(** * gles3jni: shader utilities, bouncing-quad simulation and JNI boundary

    A shallow embedding of [gles3jni/app/src/main/cpp/gles3jni.cpp].

    - C [float]/[double] arithmetic is kept behind the interface [Arith]:
      every operation names the format it is evaluated in and every implicit
      C conversion is written as a [cast].  Two instances are given:
      [ieee_arith] (IEEE-754 binary32/binary64, round to nearest even, on the
      standard library's [spec_float]) and [exact_arith] (rationals, no
      rounding).
    - The GL driver, libc and the Android log are an environment: every call
      is appended to a trace, and the values the environment returns are
      given by an oracle that sees the whole trace so far.
    - [drand48] is the 48-bit linear congruential generator of POSIX. *)

From Stdlib Require Import ZArith QArith Qabs Qpower Lqa Lia List String Ascii Bool.
From Stdlib Require Import Floats.SpecFloat.
From stdpp Require Import base option list gmap.

Local Open Scope Z_scope.

(* ===================================================================== *)
(** ** Floating-point formats                                             *)
(* ===================================================================== *)

(** The two C formats the source computes in. *)
Inductive fmt := single | double.

(** Arithmetic as the C code uses it.  [cast f x] converts [x] to format
    [f] (exact when widening, rounding when narrowing); [of_int] is the
    integer-to-floating conversion; [lit] a decimal literal; the binary
    operations evaluate in the named format. *)
Class Arith (T : Type) := {
  cast : fmt -> T -> T;
  of_int : fmt -> Z -> T;
  lit : fmt -> Q -> T;
  fadd : fmt -> T -> T -> T;
  fsub : fmt -> T -> T -> T;
  fmul : fmt -> T -> T -> T;
  fdiv : fmt -> T -> T -> T;
  fneg : T -> T;
  fabs : T -> T;
  flt : T -> T -> bool;
  fabs_fneg : forall x, fabs (fneg x) = fabs x
}.

(** [a > b] in C is [b < a]. *)
Definition fgt {T} `{Arith T} (a b : T) : bool := flt b a.

(** *** IEEE-754 instance *)

Definition prec_of (f : fmt) : Z := match f with single => 24 | double => 53 end.
Definition emax_of (f : fmt) : Z := match f with single => 128 | double => 1024 end.

Definition ieee_cast (f : fmt) (x : spec_float) : spec_float :=
  match x with
  | S754_finite s m e => binary_round (prec_of f) (emax_of f) s m e
  | _ => x
  end.

Definition ieee_of_int (f : fmt) (z : Z) : spec_float :=
  binary_normalize (prec_of f) (emax_of f) z 0 false.

(** Correctly rounded value of the rational [n/d]. *)
Definition ieee_lit (f : fmt) (q : Q) : spec_float :=
  match Qnum q with
  | Z0 => S754_zero false
  | Zpos n =>
      let '(m, e, l) := SFdiv_core_binary (prec_of f) (emax_of f) (Zpos n) 0 (Zpos (Qden q)) 0 in
      binary_round_aux (prec_of f) (emax_of f) false m e l
  | Zneg n =>
      let '(m, e, l) := SFdiv_core_binary (prec_of f) (emax_of f) (Zpos n) 0 (Zpos (Qden q)) 0 in
      binary_round_aux (prec_of f) (emax_of f) true m e l
  end.

(** Comparison promotes both operands to binary64, where every binary32
    value has a canonical representation. *)
Definition ieee_lt (x y : spec_float) : bool :=
  SFltb (ieee_cast double x) (ieee_cast double y).

Lemma ieee_abs_opp (x : spec_float) : SFabs (SFopp x) = SFabs x.
Proof. destruct x; reflexivity. Qed.

#[export] Instance ieee_arith : Arith spec_float := {|
  cast := ieee_cast;
  of_int := ieee_of_int;
  lit := ieee_lit;
  fadd f := SFadd (prec_of f) (emax_of f);
  fsub f := SFsub (prec_of f) (emax_of f);
  fmul f := SFmul (prec_of f) (emax_of f);
  fdiv f := SFdiv (prec_of f) (emax_of f);
  fneg := SFopp;
  fabs := SFabs;
  flt := ieee_lt;
  fabs_fneg := ieee_abs_opp
|}.

(** The rational a binary floating-point datum stands for (0 for
    infinities and NaN, which stand for none). *)
Definition ieee_value (x : spec_float) : Q :=
  match x with
  | S754_finite s m e =>
      let v := (inject_Z (Zpos m) * Qpower 2 e)%Q in if s then Qopp v else v
  | _ => 0%Q
  end.

Definition ieee_finite (x : spec_float) : bool :=
  match x with
  | S754_finite _ _ _ | S754_zero _ => true
  | _ => false
  end.

(** [x] is a number and [-b <= x <= b], decided on the values. *)
Definition ieee_within (b : Q) (x : spec_float) : bool :=
  ieee_finite x && Qle_bool (Qopp b) (ieee_value x) && Qle_bool (ieee_value x) b.

(** The dyadic number [m * 2^e]. *)
Definition dy (m e : Z) : Q := (inject_Z m * 2 ^ e)%Q.

(** A datum of the format with [prec] bits and largest exponent [emax]
    that is a zero, or a canonical finite number, of sign [s] and of
    magnitude at most [Mb * 2^Eb]. *)
Definition rounded_within (prec emax : Z) (s : bool) (Mb Eb : Z) (r : spec_float) : Prop :=
  r = S754_zero s \/
  exists m e, r = S754_finite s m e /\ bounded prec emax m e = true /\
              (dy (Zpos m) e <= dy Mb Eb)%Q.

(** The same, of either sign. *)
Definition magnitude_within (prec emax : Z) (Mb Eb : Z) (r : spec_float) : Prop :=
  exists s, rounded_within prec emax s Mb Eb r.

(** An infinity, or a canonical finite number of the format, of sign [s]
    and of magnitude at least [Ml * 2^El]. *)
Definition rounded_above (prec emax : Z) (s : bool) (Ml El : Z) (r : spec_float) : Prop :=
  r = S754_infinity s \/
  exists m e, r = S754_finite s m e /\ bounded prec emax m e = true /\
              (dy Ml El <= dy (Zpos m) e)%Q.

(** *** Rounding to nearest, on the values *)

(** The position of a remainder [rem] of a division by [2^n] with respect
    to the midpoint. *)
Definition loc_of_rem (rem n : Z) : location :=
  if rem =? 0 then loc_Exact else loc_Inexact (Z.compare (2 * rem) (2 ^ n)).

Definition signed (s : bool) (q : Q) : Q := if s then (- q)%Q else q.

(** [y] is [x] rounded to nearest, as far as the bounce needs it: no number
    of the format lies strictly between [x] and [y], and up to half a unit in
    the last place beyond 1 or -1 rounding returns to 1 or -1. *)
Definition rn (prec emax : Z) (x y : Q) : Prop :=
  (forall M E, Z.abs M < 2 ^ prec -> emin prec emax <= E -> E + prec <= emax ->
     ((x <= dy M E)%Q -> (y <= dy M E)%Q) /\ ((dy M E <= x)%Q -> (dy M E <= y)%Q)) /\
  ((x <= 1 + dy 1 (- prec))%Q -> (y <= 1)%Q) /\
  ((- (1) - dy 1 (- prec) <= x)%Q -> (- (1) <= y)%Q).

(** The same for magnitudes. *)
Definition rn_mag (prec emax : Z) (x a : Q) : Prop :=
  (0 <= a)%Q /\
  (forall M E, 0 < M < 2 ^ prec -> emin prec emax <= E -> E + prec <= emax ->
     ((x <= dy M E)%Q -> (a <= dy M E)%Q) /\ ((dy M E <= x)%Q -> (dy M E <= a)%Q)) /\
  ((x <= 1 + dy 1 (- prec))%Q -> (a <= 1)%Q).

(** [r] is a number of the format and its value is [x] rounded. *)
Definition rounds (prec emax : Z) (x : Q) (r : spec_float) : Prop :=
  ieee_finite r = true /\ valid_binary prec emax r = true /\ rn prec emax x (ieee_value r).

(** Beyond 1 and -1, [y] is a multiple of the unit in the last place of
    [1, 2]. *)
Definition grid (prec : Z) (y : Q) : Prop :=
  (1 <= y \/ y <= - (1))%Q -> exists N : Z, (y == dy N (1 - prec))%Q.

(** A number of format [f]: finite, with a canonical mantissa. *)
Definition ieee_num (f : fmt) (x : spec_float) : Prop :=
  ieee_finite x = true /\ valid_binary (prec_of f) (emax_of f) x = true.

(** Offsets, speeds and frame times as the bounce needs them: numbers of
    binary32 in [-1, 1], in [-5, 5] and in [0, 2]. *)
Definition ieee_unit (o : spec_float) : Prop :=
  ieee_num single o /\ (- (1) <= ieee_value o <= 1)%Q.
Definition ieee_speed (v : spec_float) : Prop :=
  ieee_num single v /\ (- (5) <= ieee_value v <= 5)%Q.
Definition ieee_short (dt : spec_float) : Prop :=
  ieee_num single dt /\ (0 <= ieee_value dt <= 2)%Q.

(** *** Exact instance: rationals, no rounding *)

Definition Qltb (x y : Q) : bool := negb (Qle_bool y x).

Lemma Qabs_Qopp_eq (x : Q) : Qabs (Qopp x) = Qabs x.
Proof. destruct x as [n d]. unfold Qabs, Qopp. simpl. now rewrite Z.abs_opp. Qed.

#[export] Instance exact_arith : Arith Q := {|
  cast _ x := x;
  of_int _ z := inject_Z z;
  lit _ q := q;
  fadd _ := Qplus;
  fsub _ := Qminus;
  fmul _ := Qmult;
  fdiv _ := Qdiv;
  fneg := Qopp;
  fabs := Qabs;
  flt := Qltb;
  fabs_fneg := Qabs_Qopp_eq
|}.

(* ===================================================================== *)
(** ** Environment: GL driver, libc, Android log                          *)
(* ===================================================================== *)

(** The two renderer subclasses (dynamic type of the object behind
    [g_renderer]). *)
Inductive Backend := ES2 | ES3.

(** Calls that leave [gles3jni.cpp]. *)
Inductive call :=
| GlGetError
| GlCreateShader (shaderType : Z)
| GlShaderSource (shader : Z) (src : string)
| GlCompileShader (shader : Z)
| GlGetShaderiv (shader pname : Z)
| GlGetShaderInfoLog (shader bufSize : Z)
| GlDeleteShader (shader : Z)
| GlCreateProgram
| GlAttachShader (program shader : Z)
| GlLinkProgram (program : Z)
| GlGetProgramiv (program pname : Z)
| GlGetProgramInfoLog (program bufSize : Z)
| GlDeleteProgram (program : Z)
| GlGetString (name : Z)
| GlViewport (x y w h : Z)
| GlClearColor (r g b a : Q)
| GlClear (mask : Z)
| Malloc (size : Z)
| Free (ptr : Z)
| ClockGettime
| MapOffsetBuf
| UnmapOffsetBuf
| Draw (numInstances : nat)
| CreateRenderer (b : Backend)
| DeleteRenderer (b : Backend).

(** What a call returned. *)
Inductive ret :=
| RVoid
| RInt (z : Z)
| RStr (s : string)
| RTime (tv_sec tv_nsec : Z).

Inductive priority := VERBOSE | INFO | ERROR.

Definition GL_NO_ERROR : Z := 0.
Definition GL_VERTEX_SHADER : Z := 35633.
Definition GL_FRAGMENT_SHADER : Z := 35632.
Definition GL_COMPILE_STATUS : Z := 35713.
Definition GL_LINK_STATUS : Z := 35714.
Definition GL_INFO_LOG_LENGTH : Z := 35716.
Definition GL_VENDOR : Z := 7936.
Definition GL_RENDERER : Z := 7937.
Definition GL_VERSION : Z := 7938.
Definition GL_EXTENSIONS : Z := 7939.
Definition GL_COLOR_BUFFER_BIT : Z := 16384.
Definition GL_DEPTH_BUFFER_BIT : Z := 256.

(** [strstr(haystack, needle) != NULL]. *)
Fixpoint strstr (haystack needle : string) : bool :=
  String.prefix needle haystack ||
  match haystack with
  | EmptyString => false
  | String _ rest => strstr rest needle
  end.

(** State of the POSIX [drand48] generator after one more draw. *)
Definition rand48_next (x : Z) : Z := (25214903917 * x + 11) mod 2 ^ 48.

(** Generator state of a process that never called [srand48]. *)
Definition rand48_init : Z := 20017429951246.

Section Model.
Context {T : Type} `{Arith T}.

(** Constants of [gles3jni.h], which is not among the sources: parameters. *)
Record Header := {
  MAX_INSTANCES_ITEM : nat;
  MAX_INSTANCES : nat;
  TWO_PI : T;
  MAX_ROT_SPEED : T
}.

Inductive logarg := AStr (s : string) | AInt (z : Z) | AFloat (x : T).

(** One observable action: an external call with its result, or a line
    handed to the Android log (format string and arguments, as passed). *)
Inductive event :=
| Called (c : call) (r : ret)
| Logged (p : priority) (format : string) (args : list logarg).

(** The environment's answers, as functions of everything observed so far. *)
Record Env := {
  env_int : list event -> call -> Z;
  env_str : list event -> call -> string;
  env_time : list event -> Z * Z
}.

(** Fields of [class Renderer] that [gles3jni.cpp] touches.  [mScale] is a
    [float[2]], shown as a pair.  [offsetBuf] is the storage handed out by
    the subclass's [mapOffsetBuf], as a map from index to the last value
    written there. *)
Record Renderer := {
  backend : Backend;
  mNumInstances : nat;
  mLastFrameNs : Z;
  mScale : T * T;
  mAngularVelocity : list T;
  mAngles : list T;
  localOffset : list T;
  mVx : list T;
  mVy : list T;
  offsetRatio : T;
  offsetBuf : gmap nat T
}.

(** Process state: the trace, [drand48]'s generator and the global
    [g_renderer] (None is NULL). *)
Record World := {
  trace : list event;
  rand48 : Z;
  g_renderer : option Renderer
}.

Definition M (A : Type) : Type := World -> A * World.

#[export] Instance M_ret : MRet M := fun A a w => (a, w).
#[export] Instance M_bind : MBind M :=
  fun A B f m w => let '(a, w') := m w in f a w'.

Definition record (e : event) (w : World) : World :=
  {| trace := trace w ++ [e]; rand48 := rand48 w; g_renderer := g_renderer w |}.

Definition emit (e : event) : M unit := fun w => (tt, record e w).

Definition get_g_renderer : M (option Renderer) := fun w => (g_renderer w, w).
Definition set_g_renderer (g : option Renderer) : M unit := fun w =>
  (tt, {| trace := trace w; rand48 := rand48 w; g_renderer := g |}).

Variable hdr : Header.
Variable env : Env.

Definition call_int (c : call) : M Z := fun w =>
  let r := env_int env (trace w) c in (r, record (Called c (RInt r)) w).
Definition call_str (c : call) : M string := fun w =>
  let r := env_str env (trace w) c in (r, record (Called c (RStr r)) w).
Definition call_void (c : call) : M unit := emit (Called c RVoid).
Definition clock_gettime : M (Z * Z) := fun w =>
  let r := env_time env (trace w) in
  (r, record (Called ClockGettime (RTime (fst r) (snd r))) w).

Definition ALOGE (format : string) (args : list logarg) : M unit :=
  emit (Logged ERROR format args).
Definition ALOGV (format : string) (args : list logarg) : M unit :=
  emit (Logged VERBOSE format args).

(** The double [X * 2^-48] that [drand48] returns in generator state [X]. *)
Definition rand48_value (x : Z) : T :=
  fmul double (of_int double x) (lit double (1 # 2 ^ 48)).

(** [drand48()]: advance the generator, return its value. *)
Definition drand48 : M T := fun w =>
  let x := rand48_next (rand48 w) in
  (rand48_value x, {| trace := trace w; rand48 := x; g_renderer := g_renderer w |}).

(** [for (i = start; i < bound; i += stride) body].  [fuel] bounds the
    number of iterations. *)
Fixpoint for_loop {A} (fuel i bound stride : nat) (body : nat -> A -> M A) (a : A) : M A :=
  match fuel with
  | O => mret a
  | S fuel' =>
      if (i <? bound)%nat
      then a' ← body i a; for_loop fuel' (i + stride)%nat bound stride body a'
      else mret a
  end.

(* ===================================================================== *)
(** ** Shader and program utilities                                       *)
(* ===================================================================== *)

Definition checkGlError (funcName : string) : M bool :=
  err ← call_int GlGetError;
  if negb (err =? GL_NO_ERROR)
  then ALOGE "GL error after %s(): 0x%08x\n" [AStr funcName; AInt err];; mret true
  else mret false.

Definition createShader (shaderType : Z) (src : string) : M Z :=
  shader ← call_int (GlCreateShader shaderType);
  if shader =? 0 then
    checkGlError "glCreateShader";; mret 0
  else
    call_void (GlShaderSource shader src);;
    call_void (GlCompileShader shader);;
    compiled ← call_int (GlGetShaderiv shader GL_COMPILE_STATUS);
    if compiled =? 0 then
      infoLogLen ← call_int (GlGetShaderiv shader GL_INFO_LOG_LENGTH);
      (if 0 <? infoLogLen then
         infoLog ← call_int (Malloc infoLogLen);
         if negb (infoLog =? 0) then
           text ← call_str (GlGetShaderInfoLog shader infoLogLen);
           ALOGE "Could not compile %s shader:\n%s\n"
                 [AStr (if shaderType =? GL_VERTEX_SHADER then "vertex" else "fragment");
                  AStr text];;
           call_void (Free infoLog)
         else mret tt
       else mret tt);;
      call_void (GlDeleteShader shader);;
      mret 0
    else mret shader.

(** The body of [createProgram] up to the label [exit]; it yields the values
    of [fragShader] and [program] with which [exit] is reached. *)
Definition createProgram_body (vtxShader : Z) (fragSrc : string) : M (Z * Z) :=
  if vtxShader =? 0 then mret (0, 0)
  else
    fragShader ← createShader GL_FRAGMENT_SHADER fragSrc;
    if fragShader =? 0 then mret (fragShader, 0)
    else
      program ← call_int GlCreateProgram;
      if program =? 0 then
        checkGlError "glCreateProgram";; mret (fragShader, 0)
      else
        call_void (GlAttachShader program vtxShader);;
        call_void (GlAttachShader program fragShader);;
        call_void (GlLinkProgram program);;
        linked ← call_int (GlGetProgramiv program GL_LINK_STATUS);
        if linked =? 0 then
          ALOGE "Could not link program" [];;
          infoLogLen ← call_int (GlGetProgramiv program GL_INFO_LOG_LENGTH);
          (if negb (infoLogLen =? 0) then
             infoLog ← call_int (Malloc infoLogLen);
             if negb (infoLog =? 0) then
               text ← call_str (GlGetProgramInfoLog program infoLogLen);
               ALOGE "Could not link program:\n%s\n" [AStr text];;
               call_void (Free infoLog)
             else mret tt
           else mret tt);;
          call_void (GlDeleteProgram program);;
          mret (fragShader, 0)
        else mret (fragShader, program).

Definition createProgram (vtxSrc fragSrc : string) : M Z :=
  vtxShader ← createShader GL_VERTEX_SHADER vtxSrc;
  '(fragShader, program) ← createProgram_body vtxShader fragSrc;
  call_void (GlDeleteShader vtxShader);;
  call_void (GlDeleteShader fragShader);;
  mret program.

Definition printGlString (name : string) (s : Z) : M unit :=
  v ← call_str (GlGetString s);
  ALOGV "GL %s: %s\n" [AStr name; AStr v].

(* ===================================================================== *)
(** ** Renderer                                                           *)
(* ===================================================================== *)

Definition fzero : T := of_int single 0.

(** [a[i]].  Reading outside the array is undefined in the source; it does
    not happen once [calcSceneParams] has allocated the arrays. *)
Definition slot (a : list T) (i : nat) : T := default fzero (a !! i).

Definition with_mLastFrameNs (v : Z) (r : Renderer) : Renderer :=
  {| backend := backend r; mNumInstances := mNumInstances r; mLastFrameNs := v;
     mScale := mScale r; mAngularVelocity := mAngularVelocity r; mAngles := mAngles r;
     localOffset := localOffset r; mVx := mVx r; mVy := mVy r;
     offsetRatio := offsetRatio r; offsetBuf := offsetBuf r |}.
Definition with_mScale (v : T * T) (r : Renderer) : Renderer :=
  {| backend := backend r; mNumInstances := mNumInstances r; mLastFrameNs := mLastFrameNs r;
     mScale := v; mAngularVelocity := mAngularVelocity r; mAngles := mAngles r;
     localOffset := localOffset r; mVx := mVx r; mVy := mVy r;
     offsetRatio := offsetRatio r; offsetBuf := offsetBuf r |}.
Definition with_mAngularVelocity (v : list T) (r : Renderer) : Renderer :=
  {| backend := backend r; mNumInstances := mNumInstances r; mLastFrameNs := mLastFrameNs r;
     mScale := mScale r; mAngularVelocity := v; mAngles := mAngles r;
     localOffset := localOffset r; mVx := mVx r; mVy := mVy r;
     offsetRatio := offsetRatio r; offsetBuf := offsetBuf r |}.
Definition with_mAngles (v : list T) (r : Renderer) : Renderer :=
  {| backend := backend r; mNumInstances := mNumInstances r; mLastFrameNs := mLastFrameNs r;
     mScale := mScale r; mAngularVelocity := mAngularVelocity r; mAngles := v;
     localOffset := localOffset r; mVx := mVx r; mVy := mVy r;
     offsetRatio := offsetRatio r; offsetBuf := offsetBuf r |}.
Definition with_localOffset (v : list T) (r : Renderer) : Renderer :=
  {| backend := backend r; mNumInstances := mNumInstances r; mLastFrameNs := mLastFrameNs r;
     mScale := mScale r; mAngularVelocity := mAngularVelocity r; mAngles := mAngles r;
     localOffset := v; mVx := mVx r; mVy := mVy r;
     offsetRatio := offsetRatio r; offsetBuf := offsetBuf r |}.
Definition with_mVx (v : list T) (r : Renderer) : Renderer :=
  {| backend := backend r; mNumInstances := mNumInstances r; mLastFrameNs := mLastFrameNs r;
     mScale := mScale r; mAngularVelocity := mAngularVelocity r; mAngles := mAngles r;
     localOffset := localOffset r; mVx := v; mVy := mVy r;
     offsetRatio := offsetRatio r; offsetBuf := offsetBuf r |}.
Definition with_mVy (v : list T) (r : Renderer) : Renderer :=
  {| backend := backend r; mNumInstances := mNumInstances r; mLastFrameNs := mLastFrameNs r;
     mScale := mScale r; mAngularVelocity := mAngularVelocity r; mAngles := mAngles r;
     localOffset := localOffset r; mVx := mVx r; mVy := v;
     offsetRatio := offsetRatio r; offsetBuf := offsetBuf r |}.
Definition with_offsetBuf (v : gmap nat T) (r : Renderer) : Renderer :=
  {| backend := backend r; mNumInstances := mNumInstances r; mLastFrameNs := mLastFrameNs r;
     mScale := mScale r; mAngularVelocity := mAngularVelocity r; mAngles := mAngles r;
     localOffset := localOffset r; mVx := mVx r; mVy := mVy r;
     offsetRatio := offsetRatio r; offsetBuf := v |}.

(** [Renderer::Renderer()].  The constructor leaves [localOffset], [mVx],
    [mVy] (pointers) and [offsetRatio] uninitialised; they are shown empty
    here and are first given storage by [calcSceneParams]. *)
Definition Renderer_new (b : Backend) : Renderer :=
  {| backend := b; mNumInstances := 0; mLastFrameNs := 0;
     mScale := (fzero, fzero);
     mAngularVelocity := replicate (MAX_INSTANCES hdr) fzero;
     mAngles := replicate (MAX_INSTANCES hdr) fzero;
     localOffset := []; mVx := []; mVy := [];
     offsetRatio := fzero; offsetBuf := ∅ |}.

(** One iteration of the seeding loop of [calcSceneParams]. *)
Definition calcSceneParams_body (i : nat) (r : Renderer) : M Renderer :=
  d ← drand48;
  let r := with_localOffset
    (<[i := cast single (fmul double (fsub double d (lit double (1 # 2)))
                                     (cast double (offsetRatio r)))]> (localOffset r)) r in
  d ← drand48;
  let r := with_mVx
    (<[i := cast single (fmul double (fsub double d (lit double (1 # 2)))
                                     (lit double 10))]> (mVx r)) r in
  d ← drand48;
  let r := with_mVy
    (<[i := cast single (fmul double (fsub double d (lit double (1 # 2)))
                                     (lit double 10))]> (mVy r)) r in
  mret (with_offsetBuf (<[i := slot (localOffset r) i]> (offsetBuf r)) r).

(** [Renderer::calcSceneParams(w, h, offsets)]; [w] and [h] are the
    [unsigned int] parameters.  The arrays are allocated afresh on every
    call; every slot is written by the loop before it is read. *)
Definition Renderer_calcSceneParams (w h : Z) (r : Renderer) : M Renderer :=
  let n2 := (MAX_INSTANCES_ITEM hdr * 2)%nat in
  let r :=
    {| backend := backend r; mNumInstances := MAX_INSTANCES_ITEM hdr;
       mLastFrameNs := mLastFrameNs r;
       mScale := mScale r; mAngularVelocity := mAngularVelocity r; mAngles := mAngles r;
       localOffset := replicate n2 fzero; mVx := replicate n2 fzero; mVy := replicate n2 fzero;
       offsetRatio := lit single 2; offsetBuf := offsetBuf r |} in
  r ← for_loop n2 0 n2 1 calcSceneParams_body r;
  let ratio := lit single (1 # 10) in
  let r := with_mScale (ratio, snd (mScale r)) r in
  let r := with_mScale
    (fst (mScale r), fdiv single (fmul single ratio (of_int single h)) (of_int single w)) r in
  mret r.

(** One iteration of the angle loop of [resize]. *)
Definition resize_body (i : nat) (r : Renderer) : M Renderer :=
  d ← drand48;
  let r := with_mAngles
    (<[i := cast single (fmul double d (cast double (TWO_PI hdr)))]> (mAngles r)) r in
  d ← drand48;
  mret (with_mAngularVelocity
    (<[i := cast single (fmul double (cast double (MAX_ROT_SPEED hdr))
                           (fsub double (fmul double (lit double 2) d) (lit double 1)))]>
       (mAngularVelocity r)) r).

(** [Renderer::resize(int w, int h)].  Passing the [int]s to
    [calcSceneParams] converts them to [unsigned int]. *)
Definition Renderer_resize (w h : Z) (r : Renderer) : M Renderer :=
  call_void MapOffsetBuf;;
  r ← Renderer_calcSceneParams (w mod 2 ^ 32) (h mod 2 ^ 32) r;
  call_void UnmapOffsetBuf;;
  r ← for_loop (mNumInstances r) 0 (mNumInstances r) 1 resize_body r;
  let r := with_mLastFrameNs 0 r in
  call_void (GlViewport 0 0 w h);;
  mret r.

(** [a[i] += v * dt * 0.1; if (a[i] > 1.0 || a[i] < -1.0) { a[i] -= 2 * v *
    dt * 0.1; v = -v; }] on one array slot and one velocity: the new slot
    value and the new velocity. *)
Definition advance (o v dt : T) : T * T :=
  let o1 := cast single (fadd double (cast double o)
              (fmul double (cast double (fmul single v dt)) (lit double (1 # 10)))) in
  if fgt (cast double o1) (lit double 1) || flt (cast double o1) (fneg (lit double 1))
  then (cast single (fsub double (cast double o1)
          (fmul double (cast double (fmul single (fmul single (of_int single 2) v) dt))
                       (lit double (1 # 10)))),
        fneg v)
  else (o1, v).

(** One iteration of the loop of [step]: slots [i] and [i + 1]. *)
Definition step_body (dt : T) (i : nat) (r : Renderer) : Renderer :=
  let '(o, v) := advance (slot (localOffset r) i) (slot (mVx r) i) dt in
  let r := with_localOffset (<[i := o]> (localOffset r)) r in
  let r := with_mVx (<[i := v]> (mVx r)) r in
  let r := with_offsetBuf (<[i := slot (localOffset r) i]> (offsetBuf r)) r in
  let '(o, v) := advance (slot (localOffset r) (i + 1)) (slot (mVy r) i) dt in
  let r := with_localOffset (<[(i + 1)%nat := o]> (localOffset r)) r in
  let r := with_mVy (<[i := v]> (mVy r)) r in
  with_offsetBuf (<[(i + 1)%nat := slot (localOffset r) (i + 1)]> (offsetBuf r)) r.

(** [float dt = float(nowNs - mLastFrameNs) * 0.000000001f], on 64-bit
    unsigned timestamps. *)
Definition frame_dt (nowNs lastNs : Z) : T :=
  fmul single (of_int single ((nowNs - lastNs) mod 2 ^ 64)) (lit single (1 # 1000000000)).

(** [now.tv_sec * 1000000000ull + now.tv_nsec]. *)
Definition timespec_ns (now : Z * Z) : Z :=
  (fst now * 1000000000 + snd now) mod 2 ^ 64.

(** [Renderer::step()]. *)
Definition Renderer_step (r : Renderer) : M Renderer :=
  now ← clock_gettime;
  let nowNs := timespec_ns now in
  r ← (if 0 <? mLastFrameNs r then
         let dt := frame_dt nowNs (mLastFrameNs r) in
         emit (Logged INFO "fps:%f" [AFloat (cast double (fdiv single (of_int single 1) dt))]);;
         call_void MapOffsetBuf;;
         r ← for_loop (2 * MAX_INSTANCES_ITEM hdr) 0 (2 * MAX_INSTANCES_ITEM hdr - 1) 2
               (fun i r => mret (step_body dt i r)) r;
         call_void UnmapOffsetBuf;;
         mret r
       else mret r);
  mret (with_mLastFrameNs nowNs r).

(** [Renderer::render()]. *)
Definition Renderer_render (r : Renderer) : M Renderer :=
  r ← Renderer_step r;
  call_void (GlClearColor (2 # 10) (2 # 10) (3 # 10) 1);;
  call_void (GlClear (Z.lor GL_COLOR_BUFFER_BIT GL_DEPTH_BUFFER_BIT));;
  call_void (Draw (mNumInstances r));;
  checkGlError "Renderer::render";;
  mret r.

(* ===================================================================== *)
(** ** JNI boundary                                                       *)
(* ===================================================================== *)

(** Modelled from the spec: [createES3Renderer] and [createES2Renderer] are
    defined in files that are not among the sources.  Per the spec (sections
    3 and 7) they yield a freshly constructed renderer of their backend, or
    null when its initialisation fails; whether it fails is the
    environment's choice. *)
Definition createRenderer (b : Backend) : M (option Renderer) :=
  ok ← call_int (CreateRenderer b);
  mret (if ok =? 0 then None else Some (Renderer_new b)).
Definition createES3Renderer : M (option Renderer) := createRenderer ES3.
Definition createES2Renderer : M (option Renderer) := createRenderer ES2.

(** [gl3stubInit()] as defined in this file (the [!defined(DYNAMIC_ES3)]
    branch). *)
Definition gl3stubInit : bool := true.

Definition Java_com_android_gles3jni_GLES3JNILib_init : M unit :=
  g ← get_g_renderer;
  match g with
  | Some r => call_void (DeleteRenderer (backend r));; set_g_renderer None
  | None => mret tt
  end;;
  printGlString "Version" GL_VERSION;;
  printGlString "Vendor" GL_VENDOR;;
  printGlString "Renderer" GL_RENDERER;;
  printGlString "Extensions" GL_EXTENSIONS;;
  versionStr ← call_str (GlGetString GL_VERSION);
  if strstr versionStr "OpenGL ES 3." && gl3stubInit then
    createES3Renderer ≫= set_g_renderer
  else if strstr versionStr "OpenGL ES 2." then
    createES2Renderer ≫= set_g_renderer
  else
    ALOGE "Unsupported OpenGL ES version" [].

Definition Java_com_android_gles3jni_GLES3JNILib_resize (width height : Z) : M unit :=
  g ← get_g_renderer;
  match g with
  | Some r => r' ← Renderer_resize width height r; set_g_renderer (Some r')
  | None => mret tt
  end.

Definition Java_com_android_gles3jni_GLES3JNILib_step : M unit :=
  g ← get_g_renderer;
  match g with
  | Some r => r' ← Renderer_render r; set_g_renderer (Some r')
  | None => mret tt
  end.

End Model.

(* ===================================================================== *)
(** ** Reading a trace                                                    *)
(* ===================================================================== *)

Fixpoint remove_one (h : Z) (l : list Z) : list Z :=
  match l with
  | [] => []
  | x :: l' => if x =? h then l' else x :: remove_one h l'
  end.

Section Traces.
Context {T : Type}.

(** Shader objects created and not yet handed to [glDeleteShader], given
    those that were live before. *)
Fixpoint live_shaders (evs : list (event (T:=T))) (live : list Z) : list Z :=
  match evs with
  | [] => live
  | Called (GlCreateShader _) (RInt h) :: evs' =>
      live_shaders evs' (if h =? 0 then live else h :: live)
  | Called (GlDeleteShader h) _ :: evs' => live_shaders evs' (remove_one h live)
  | _ :: evs' => live_shaders evs' live
  end.

(** Program objects created and not yet handed to [glDeleteProgram]. *)
Fixpoint live_programs (evs : list (event (T:=T))) (live : list Z) : list Z :=
  match evs with
  | [] => live
  | Called GlCreateProgram (RInt h) :: evs' =>
      live_programs evs' (if h =? 0 then live else h :: live)
  | Called (GlDeleteProgram h) _ :: evs' => live_programs evs' (remove_one h live)
  | _ :: evs' => live_programs evs' live
  end.




End Traces.

Section MoreTraces.
Context {T : Type}.

(** Buffers obtained from [malloc] and not yet handed to [free], given
    those that were held before. *)
Fixpoint live_bufs (evs : list (event (T:=T))) (live : list Z) : list Z :=
  match evs with
  | [] => live
  | Called (Malloc _) (RInt p) :: evs' =>
      live_bufs evs' (if p =? 0 then live else p :: live)
  | Called (Free p) _ :: evs' => live_bufs evs' (remove_one p live)
  | _ :: evs' => live_bufs evs' live
  end.

(** Calls that take or yield a program object. *)
Definition is_program_event (e : event (T:=T)) : bool :=
  match e with
  | Called GlCreateProgram _ | Called (GlAttachShader _ _) _ | Called (GlLinkProgram _) _
  | Called (GlGetProgramiv _ _) _ | Called (GlGetProgramInfoLog _ _) _
  | Called (GlDeleteProgram _) _ => true
  | _ => false
  end.

(** The driver reported link status [st] for [program]. *)
Definition link_status (evs : list (event (T:=T))) (program st : Z) : Prop :=
  In (Called (GlGetProgramiv program GL_LINK_STATUS) (RInt st)) evs.

End MoreTraces.

(** A driver that rejects every shader and keeps no info log. *)
Definition silent_driver : Env (T:=Q) :=
  {| env_int := fun _ c =>
       match c with
       | GlCreateShader _ => 7
       | _ => 0
       end;
     env_str := fun _ _ => ""%string;
     env_time := fun _ => (0, 0) |}.


(** A driver that fails every call. *)
Definition dead_driver : Env (T:=Q) :=
  {| env_int := fun _ _ => 0; env_str := fun _ _ => EmptyString; env_time := fun _ => (0, 0) |}.

(** A driver that compiles every shader and links no program. *)
Definition unlinking_driver : Env (T:=Q) :=
  {| env_int := fun _ c =>
       match c with
       | GlGetProgramiv _ _ => 0
       | _ => 1
       end;
     env_str := fun _ _ => EmptyString;
     env_time := fun _ => (0, 0) |}.

Definition empty_world {T} : World (T:=T) :=
  {| trace := []; rand48 := rand48_init; g_renderer := None |}.

(* ===================================================================== *)
(** ** States reached after a resize, and the spec's sentences            *)
(* ===================================================================== *)

(** [needle] occurs in [s]. *)
Definition contains (s needle : string) : Prop :=
  exists pre post, s = (pre ++ needle ++ post)%string.

Section Reach.
Context {T : Type} `{Arith T}.
Variable hdr : Header (T:=T).

(** The renderer states that follow a [resize]: its result, and the result
    of any [step] after that, whatever the clock shows. *)
Inductive after_resize : Renderer -> Prop :=
| ar_resize w h r wld :
    after_resize (Renderer_resize hdr w h r wld).1
| ar_step env r wld :
    after_resize r -> after_resize (Renderer_step hdr env r wld).1.

(** Nanoseconds between the last recorded frame and the clock reading that
    [step] takes in world [wld]. *)
Definition elapsed_ns (env : Env (T:=T)) (r : Renderer (T:=T)) (wld : World (T:=T)) : Z :=
  (timespec_ns (env_time env (trace wld)) - mLastFrameNs r) mod 2 ^ 64.

(** The same states, when no frame that moves the instances takes longer
    than [gap] nanoseconds. *)
Inductive paced_after_resize (gap : Z) : Renderer -> Prop :=
| pr_resize w h r wld :
    paced_after_resize gap (Renderer_resize hdr w h r wld).1
| pr_step env r wld :
    paced_after_resize gap r ->
    (0 < mLastFrameNs r -> elapsed_ns env r wld <= gap) ->
    paced_after_resize gap (Renderer_step hdr env r wld).1.

(** [-b <= o <= b], by the comparisons of the arithmetic. *)
Definition within (b o : T) : Prop := flt b o = false /\ flt o (fneg b) = false.

(** The spec's sentence on offsets, with [b] standing for [1 + ε]. *)
Definition offsets_stay_within (b : T) : Prop :=
  forall r, after_resize r -> Forall (within b) (localOffset r).

(** The spec's sentence on the scale: [scale.x = 0.1] and
    [scale.y = 0.1 * (h / w)]. *)
Definition scale_is_tenth_of_ratio : Prop :=
  forall w h r wld, 0 < w < 2 ^ 31 -> 0 <= h < 2 ^ 31 ->
    mScale (Renderer_resize hdr w h r wld).1 =
    (lit single (1 # 10),
     fmul single (lit single (1 # 10)) (fdiv single (of_int single h) (of_int single w))).

(** What [init] emits to release the renderer it finds. *)
Definition freed (w : World (T:=T)) : list (event (T:=T)) :=
  match g_renderer w with
  | Some r => [Called (DeleteRenderer (backend r)) RVoid]
  | None => []
  end.

(** Events of [printGlString]. *)
Definition is_print (e : event (T:=T)) : Prop :=
  match e with
  | Called (GlGetString _) (RStr _) => True
  | Logged VERBOSE _ _ => True
  | _ => False
  end.

End Reach.

(** The same sentence read on the numbers the floats stand for. *)
Definition scale_value_is_tenth_of_ratio (hdr : Header (T:=spec_float)) : Prop :=
  forall w h r wld, 0 < w < 2 ^ 31 -> 0 <= h < 2 ^ 31 ->
    (ieee_value (mScale (Renderer_resize hdr w h r wld).1).2 ==
     (1 # 10) * (inject_Z h / inject_Z w))%Q.

(** *** Concrete inputs *)

(** Header constants with [n] instances. *)
Definition header_ieee (n : nat) : Header (T:=spec_float) :=
  {| MAX_INSTANCES_ITEM := n; MAX_INSTANCES := n;
     TWO_PI := ieee_lit double (6283185307179586 # 1000000000000000);
     MAX_ROT_SPEED := ieee_lit double (1884955592153876 # 1000000000000000) |}.
Definition header_exact (n : nat) : Header (T:=Q) :=
  {| MAX_INSTANCES_ITEM := n; MAX_INSTANCES := n;
     TWO_PI := 6283185307179586 # 1000000000000000;
     MAX_ROT_SPEED := 1884955592153876 # 1000000000000000 |}.

(** An environment whose clock always shows [sec] seconds, whose driver
    reports [version] and succeeds at everything else. *)
Definition env_at {T} (sec : Z) (version : string) : Env (T:=T) :=
  {| env_int := fun _ _ => 1;
     env_str := fun _ _ => version;
     env_time := fun _ => (sec, 0) |}.

(** Number of clock readings in a trace. *)
Fixpoint clock_readings {T} (tr : list (event (T:=T))) : Z :=
  match tr with
  | [] => 0
  | Called ClockGettime _ :: tr' => 1 + clock_readings tr'
  | _ :: tr' => clock_readings tr'
  end.

(** An environment whose clock advances by [period] nanoseconds at every
    reading. *)
Definition ticking {T} (period : Z) : Env (T:=T) :=
  {| env_int := fun _ _ => 1;
     env_str := fun _ _ => ""%string;
     env_time := fun tr =>
       let ns := (1 + clock_readings tr) * period in
       (ns / 1000000000, ns mod 1000000000) |}.

(** [n] calls of [step], [period] nanoseconds apart. *)
Fixpoint frames {T} `{Arith T} (hdr : Header (T:=T)) (period : Z) (n : nat)
    (r : Renderer (T:=T)) (w : World (T:=T)) : Renderer (T:=T) * World (T:=T) :=
  match n with
  | O => (r, w)
  | S n' => let '(r', w') := Renderer_step hdr (ticking period) r w in
            frames hdr period n' r' w'
  end.

(** A resize and [n] frames in binary32/binary64 arithmetic, from the
    generator state of a fresh process. *)
Definition ieee_run (instances : nat) (period : Z) (n : nat) : Renderer (T:=spec_float) :=
  let hdr := header_ieee instances in
  let '(r, w) := Renderer_resize hdr 1080 1920 (Renderer_new hdr ES3) empty_world in
  (frames hdr period n r w).1.

(** A resize and a first step at 1 s, in binary32/binary64 arithmetic. *)
Definition ieee_stepped_once : Renderer (T:=spec_float) := ieee_run 1 1000000000 1.

(** A resize and a first step at 1 s, in binary32/binary64 arithmetic,
    written out. *)
Definition ieee_resized : Renderer (T:=spec_float) :=
  (Renderer_resize (header_ieee 1) 1080 1920 (Renderer_new (header_ieee 1) ES3) empty_world).1.
Definition ieee_first_step : Renderer (T:=spec_float) :=
  (Renderer_step (header_ieee 1) (env_at 1 "") ieee_resized empty_world).1.

(* ===================================================================== *)
(** ** Invariants and auxiliary predicates                                *)
(* ===================================================================== *)

Section Invariants.
Context {T : Type} `{Arith T}.
Variable hdr : Header (T:=T).

(** The arrays have the size [calcSceneParams] gave them. *)
Definition allocated (r : Renderer (T:=T)) : Prop :=
  length (localOffset r) = (MAX_INSTANCES_ITEM hdr * 2)%nat /\
  length (mVx r) = (MAX_INSTANCES_ITEM hdr * 2)%nat /\
  length (mVy r) = (MAX_INSTANCES_ITEM hdr * 2)%nat.

(** The renderer as [calcSceneParams] allocates it, before seeding. *)
Definition fresh_arrays (r : Renderer (T:=T)) : Renderer :=
  {| backend := backend r; mNumInstances := MAX_INSTANCES_ITEM hdr; mLastFrameNs := mLastFrameNs r;
     mScale := mScale r; mAngularVelocity := mAngularVelocity r; mAngles := mAngles r;
     localOffset := replicate (MAX_INSTANCES_ITEM hdr * 2) fzero; mVx := replicate (MAX_INSTANCES_ITEM hdr * 2) fzero;
     mVy := replicate (MAX_INSTANCES_ITEM hdr * 2) fzero;
     offsetRatio := lit single 2; offsetBuf := offsetBuf r |}.

(** Fields that the seeding loop leaves as they are, and array sizes. *)
Definition same_shape (r0 r' : Renderer (T:=T)) : Prop :=
  length (localOffset r') = length (localOffset r0) /\
  length (mVx r') = length (mVx r0) /\
  length (mVy r') = length (mVy r0) /\
  mScale r' = mScale r0 /\ mLastFrameNs r' = mLastFrameNs r0 /\
  offsetRatio r' = offsetRatio r0 /\ mNumInstances r' = mNumInstances r0 /\
  backend r' = backend r0.

(** Fields that the angle loop of [resize] leaves as they are. *)
Definition same_motion (r0 r' : Renderer (T:=T)) : Prop :=
  localOffset r' = localOffset r0 /\ mVx r' = mVx r0 /\ mVy r' = mVy r0 /\
  mScale r' = mScale r0 /\ mLastFrameNs r' = mLastFrameNs r0 /\
  offsetRatio r' = offsetRatio r0 /\ mNumInstances r' = mNumInstances r0 /\
  offsetBuf r' = offsetBuf r0 /\ backend r' = backend r0.

(** Instance [k] of [a] is instance [k] of [r0] advanced by [dt]. *)
Definition instance_advanced (dt : T) (r0 a : Renderer (T:=T)) (k : nat) : Prop :=
  let x := advance (slot (localOffset r0) (2 * k)) (slot (mVx r0) (2 * k)) dt in
  let y := advance (slot (localOffset r0) (2 * k + 1)) (slot (mVy r0) (2 * k)) dt in
  localOffset a !! (2 * k)%nat = Some x.1 /\ mVx a !! (2 * k)%nat = Some x.2 /\
  localOffset a !! (2 * k + 1)%nat = Some y.1 /\ mVy a !! (2 * k)%nat = Some y.2 /\
  offsetBuf a !! (2 * k)%nat = Some x.1 /\ offsetBuf a !! (2 * k + 1)%nat = Some y.1.

(** Slots from [i] on are those of [r0]. *)
Definition untouched_from (r0 a : Renderer (T:=T)) (i : nat) : Prop :=
  forall j, (i <= j)%nat ->
    localOffset a !! j = localOffset r0 !! j /\
    mVx a !! j = mVx r0 !! j /\ mVy a !! j = mVy r0 !! j.

(** The loop of [step] has handled the slots below [i]. *)
Definition step_progress (dt : T) (r0 : Renderer (T:=T)) (i : nat) (a : Renderer (T:=T)) : Prop :=
  exists m, i = (2 * m)%nat /\ allocated a /\
    (forall k, (k < m)%nat -> instance_advanced dt r0 a k) /\
    untouched_from r0 a i.

(** Offset and speed that the seeding loop computes from a draw. *)
Definition seed_offset (x : Z) : T :=
  cast single (fmul double (fsub double (rand48_value x) (lit double (1 # 2)))
                           (cast double (lit single 2))).
Definition seed_speed (x : Z) : T :=
  cast single (fmul double (fsub double (rand48_value x) (lit double (1 # 2)))
                           (lit double 10)).

(** Slot 0 holds what the first three draws from state [s] give. *)
Definition first_seeded (s : Z) (i : nat) (a : Renderer (T:=T)) : Prop :=
  (1 <= i)%nat /\
  localOffset a !! 0%nat = Some (seed_offset (rand48_next s)) /\
  mVx a !! 0%nat = Some (seed_speed (rand48_next (rand48_next s))) /\
  mVy a !! 0%nat = Some (seed_speed (rand48_next (rand48_next (rand48_next s)))).

(** A frame that lasts ten seconds: resize, a first step when the clock
    shows 1 s, a second step when it shows 11 s. *)
Definition after_long_frame : Renderer (T:=T) :=
  let r1 := (Renderer_resize hdr 1080 1920 (Renderer_new hdr ES3) empty_world).1 in
  let r2 := (Renderer_step hdr (env_at 1 "") r1 empty_world).1 in
  (Renderer_step hdr (env_at 11 "") r2 empty_world).1.

End Invariants.

(** *** Ranges, in exact arithmetic *)

Definition in_unit (o : Q) : Prop := (-(1) <= o <= 1)%Q.
Definition in_five (v : Q) : Prop := (-(5) <= v <= 5)%Q.


Definition seeded (a : Renderer (T:=Q)) : Prop :=
  offsetRatio a = 2%Q /\ Forall in_unit (localOffset a) /\
  Forall in_five (mVx a) /\ Forall in_five (mVy a).

Definition in_bounds (a : Renderer (T:=Q)) : Prop :=
  Forall in_unit (localOffset a) /\ Forall in_five (mVx a) /\ Forall in_five (mVy a).

(** *** Ranges, in binary32/binary64 arithmetic *)

Definition ieee_seeded (a : Renderer (T:=spec_float)) : Prop :=
  offsetRatio a = lit single 2 /\
  Forall (fun o => ieee_within 1 o = true) (localOffset a) /\
  Forall (fun v => ieee_within 5 v = true) (mVx a) /\
  Forall (fun v => ieee_within 5 v = true) (mVy a).

(** Offsets in [-1, 1] and speeds in [-5, 5], all numbers of binary32. *)
Definition ieee_in_bounds (a : Renderer (T:=spec_float)) : Prop :=
  Forall ieee_unit (localOffset a) /\ Forall ieee_speed (mVx a) /\ Forall ieee_speed (mVy a).

(** A resize, and a first step while the clock shows 1 s. *)
Definition resized : Renderer (T:=Q) :=
  (Renderer_resize (header_exact 1) 1080 1920 (Renderer_new (header_exact 1) ES3)
     empty_world).1.
Definition stepped_once : Renderer (T:=Q) :=
  (Renderer_step (header_exact 1) (env_at 1 "") resized empty_world).1.


(** *** Runs of [resize] *)

Section Runs.
Context {T : Type}.

(** The world [w] is [w0] after [n] draws from [drand48], nothing else
    having happened. *)
Definition drawn (n : nat) (w0 w : World (T:=T)) : Prop :=
  trace w = trace w0 /\ g_renderer w = g_renderer w0 /\
  rand48 w = Nat.iter n rand48_next (rand48 w0).

(** Two runs hold the same offsets and speeds and have drawn the same
    numbers. *)
Definition same_seeds (a : Renderer (T:=T)) (w : World (T:=T))
    (a' : Renderer (T:=T)) (w' : World (T:=T)) : Prop :=
  localOffset a = localOffset a' /\ mVx a = mVx a' /\ mVy a = mVy a' /\
  offsetRatio a = offsetRatio a' /\ rand48 w = rand48 w'.

End Runs.

(** *** The draws behind the arrays *)

Section Draws.
Context {T : Type} `{Arith T}.
Variable hdr : Header (T:=T).

(** Angle and angular velocity that the second loop of [resize] computes
    from a draw. *)
Definition seed_angle (x : Z) : T :=
  cast single (fmul double (rand48_value x) (cast double (TWO_PI hdr))).
Definition seed_spin (x : Z) : T :=
  cast single (fmul double (cast double (MAX_ROT_SPEED hdr))
                 (fsub double (fmul double (lit double 2) (rand48_value x)) (lit double 1))).

(** The seeding loop has filled the slots below [j] from the draws that
    follow generator state [s]. *)
Definition seeded_below (s : Z) (j : nat) (a : Renderer (T:=T)) (w : World (T:=T)) : Prop :=
  rand48 w = Nat.iter (3 * j) rand48_next s /\
  offsetRatio a = lit single 2 /\
  length (localOffset a) = (MAX_INSTANCES_ITEM hdr * 2)%nat /\
  length (mVx a) = (MAX_INSTANCES_ITEM hdr * 2)%nat /\
  length (mVy a) = (MAX_INSTANCES_ITEM hdr * 2)%nat /\
  forall i, (i < j)%nat ->
    localOffset a !! i = Some (seed_offset (Nat.iter (3 * i + 1) rand48_next s)) /\
    mVx a !! i = Some (seed_speed (Nat.iter (3 * i + 2) rand48_next s)) /\
    mVy a !! i = Some (seed_speed (Nat.iter (3 * i + 3) rand48_next s)).

(** The angle loop has filled the entries below [j], as far as the arrays
    of [r0] reach, from the draws that follow generator state [s]. *)
Definition spun_below (s : Z) (r0 : Renderer (T:=T)) (j : nat) (a : Renderer (T:=T))
    (w : World (T:=T)) : Prop :=
  rand48 w = Nat.iter (2 * j) rand48_next s /\
  length (mAngles a) = length (mAngles r0) /\
  length (mAngularVelocity a) = length (mAngularVelocity r0) /\
  forall i, (i < j)%nat ->
    (i < length (mAngles r0))%nat -> (i < length (mAngularVelocity r0))%nat ->
    mAngles a !! i = Some (seed_angle (Nat.iter (2 * i + 1) rand48_next s)) /\
    mAngularVelocity a !! i = Some (seed_spin (Nat.iter (2 * i + 2) rand48_next s)).

End Draws.

(** *** Sequences of boundary calls *)

Definition Backend_eqb (a b : Backend) : bool :=
  match a, b with ES2, ES2 | ES3, ES3 => true | _, _ => false end.

Section Sessions.
Context {T : Type} `{Arith T}.

(** The renderer objects alive after the events [evs], given those alive
    before, the one created last first; [None] when an object is deleted
    that is not the one created last. *)
Fixpoint renderers_alive (evs : list (event (T:=T))) (live : list Backend) :
    option (list Backend) :=
  match evs with
  | [] => Some live
  | Called (CreateRenderer b) (RInt ok) :: evs' =>
      renderers_alive evs' (if ok =? 0 then live else b :: live)
  | Called (DeleteRenderer b) _ :: evs' =>
      match live with
      | b' :: rest => if Backend_eqb b b' then renderers_alive evs' rest else None
      | [] => None
      end
  | _ :: evs' => renderers_alive evs' live
  end.

(** The renderer objects that [g_renderer] points to. *)
Definition held (w : World (T:=T)) : list Backend :=
  match g_renderer w with
  | Some r => [backend r]
  | None => []
  end.

(** The calls the host can make. *)
Inductive jni_call := JInit | JResize (width height : Z) | JStep.

Definition jni (hdr : Header (T:=T)) (env : Env (T:=T)) (c : jni_call) : M unit :=
  match c with
  | JInit => Java_com_android_gles3jni_GLES3JNILib_init hdr env
  | JResize width height => Java_com_android_gles3jni_GLES3JNILib_resize hdr width height
  | JStep => Java_com_android_gles3jni_GLES3JNILib_step hdr env
  end.

(** A sequence of calls, each answered by an environment of its own. *)
Fixpoint jni_session (hdr : Header (T:=T)) (cs : list (Env (T:=T) * jni_call))
    (w : World (T:=T)) : World (T:=T) :=
  match cs with
  | [] => w
  | (env, c) :: cs' => jni_session hdr cs' (jni hdr env c w).2
  end.

(** Every [step] of the session that finds the frame clock set, and so
    moves the instances, acts on a renderer whose three arrays a [resize]
    has allocated.  (The constructor leaves the array pointers unset; the
    source gives no meaning to a step that reads through them.) *)
Fixpoint resized_before_moving (hdr : Header (T:=T)) (cs : list (Env (T:=T) * jni_call))
    (w : World (T:=T)) : Prop :=
  match cs with
  | [] => True
  | (env, c) :: cs' =>
      match c, g_renderer w with
      | JStep, Some r => 0 < mLastFrameNs r -> allocated hdr r
      | _, _ => True
      end /\ resized_before_moving hdr cs' (jni hdr env c w).2
  end.

End Sessions.

(** In a list of calls, every [step] comes after a [resize] that followed
    the last [init]; [resized] tells whether a resize has been seen. *)
Fixpoint resize_precedes_steps (resized : bool) (cs : list jni_call) : bool :=
  match cs with
  | [] => true
  | JInit :: cs' => resize_precedes_steps false cs'
  | JResize _ _ :: cs' => resize_precedes_steps true cs'
  | JStep :: cs' => resized && resize_precedes_steps resized cs'
  end.

(* ===================================================================== *)
(** * Properties                                                          *)
(* ===================================================================== *)

(** ** Running the monad symbolically *)

Section MonadRun.
Context {T : Type}.

Lemma bind_run {A B} (m : M A) (f : A -> M B) (w : World (T:=T)) :
  (m ≫= f) w = f (m w).1 (m w).2.
Proof. unfold mbind, M_bind. destruct (m w); reflexivity. Qed.

Lemma if_run {A} (b : bool) (m1 m2 : M A) (w : World (T:=T)) :
  (if b then m1 else m2) w = if b then m1 w else m2 w.
Proof. now destruct b. Qed.

Lemma call_int_run (env : Env (T:=T)) c w :
  call_int env c w = (env_int env (trace w) c, record (Called c (RInt (env_int env (trace w) c))) w).
Proof. reflexivity. Qed.

Lemma call_str_run (env : Env (T:=T)) c w :
  call_str env c w = (env_str env (trace w) c, record (Called c (RStr (env_str env (trace w) c))) w).
Proof. reflexivity. Qed.

Lemma emit_run e (w : World (T:=T)) : emit e w = (tt, record e w).
Proof. reflexivity. Qed.

Lemma ret_run {A} (a : A) (w : World (T:=T)) : (mret a : M A) w = (a, w).
Proof. reflexivity. Qed.

Lemma trace_record e (w : World (T:=T)) : trace (record e w) = trace w ++ [e].
Proof. reflexivity. Qed.

End MonadRun.

(** Replace an answer of the environment by a variable, innermost first. *)
Ltac name_answer :=
  match goal with
  | |- context [env_int ?env ?tr ?c] =>
      lazymatch tr with
      | context [env_int] => fail
      | context [env_str] => fail
      | _ => let x := fresh "r" in generalize (env_int env tr c); intro x
      end
  | |- context [env_str ?env ?tr ?c] =>
      lazymatch tr with
      | context [env_int] => fail
      | context [env_str] => fail
      | _ => let x := fresh "s" in generalize (env_str env tr c); intro x
      end
  end.

(** Case split on a test whose outcome is already a value. *)
Ltac split_if :=
  match goal with
  | |- context [if ?b then _ else _] =>
      lazymatch b with
      | context [if _ then _ else _] => fail
      | context [env_int] => fail
      | context [env_str] => fail
      | context [@fst] => fail
      | context [@snd] => fail
      | _ => let E := fresh "E" in destruct b eqn:E
      end
  end.

Ltac mstep :=
  first
    [ rewrite call_int_run
    | rewrite call_str_run
    | rewrite emit_run
    | rewrite ret_run
    | progress cbn [fst snd]
    | progress change (0 =? 0) with true
    | name_answer
    | split_if
    | rewrite if_run
    | progress unfold checkGlError, ALOGE, ALOGV, call_void
    | rewrite bind_run ].
Ltac run_monad := repeat mstep.

Ltac show_trace := rewrite ?trace_record; rewrite <- ?app_assoc; cbn [app].

Ltac in_cases H :=
  unfold GL_COMPILE_STATUS, GL_INFO_LOG_LENGTH, GL_LINK_STATUS in H;
  repeat match type of H with
  | In _ (_ :: _) => destruct H as [H|H]; [try discriminate H|]
  | In _ [] => destruct H
  | False => destruct H
  end.

Ltac in_list := cbn [In]; repeat first [left; reflexivity | right].

(** ** Shader and program utilities *)

Section ShaderProps.
Context {T : Type} `{Arith T}.
Variable env : Env (T:=T).

Lemma remove_one_head h l : remove_one h (h :: l) = l.
Proof. simpl. now rewrite Z.eqb_refl. Qed.

Lemma live_shaders_app (a b : list (event (T:=T))) l :
  live_shaders (a ++ b) l = live_shaders b (live_shaders a l).
Proof.
  revert l. induction a as [|e a IH]; intros l; [reflexivity|].
  destruct e as [c r|p f args]; simpl; [|apply IH].
  destruct c; try apply IH. destruct r; apply IH.
Qed.

Lemma checkGlError_trace name w :
  exists evs, trace (checkGlError env name w).2 = trace w ++ evs /\
    (forall l, live_shaders evs l = l) /\ (forall l, live_programs evs l = l).
Proof.
  run_monad; show_trace; (eexists; split; [reflexivity|]); split; reflexivity.
Qed.

Lemma createShader_live ty src w :
  exists evs, trace (createShader env ty src w).2 = trace w ++ evs /\
    (forall l, live_shaders evs l =
               if (createShader env ty src w).1 =? 0 then l
               else (createShader env ty src w).1 :: l) /\
    (forall l, live_programs evs l = l).
Proof.
  unfold createShader. run_monad; show_trace;
    (eexists; split; [reflexivity|]); split; intros l; cbn [live_shaders live_programs];
    repeat match goal with E : (_ =? _) = _ |- _ => rewrite E end;
    rewrite ?remove_one_head; reflexivity.
Qed.


Lemma live_programs_app (a b : list (event (T:=T))) l :
  live_programs (a ++ b) l = live_programs b (live_programs a l).
Proof.
  revert l. induction a as [|e a IH]; intros l; [reflexivity|].
  destruct e as [c r|p f args]; simpl; [|apply IH].
  destruct c; try apply IH. destruct r; apply IH.
Qed.

Lemma createProgram_body_live vtx fragSrc w :
  let res := createProgram_body env vtx fragSrc w in
  exists evs, trace res.2 = trace w ++ evs /\
    (forall l, live_shaders evs l = if res.1.1 =? 0 then l else res.1.1 :: l) /\
    (forall l, live_programs evs l = if res.1.2 =? 0 then l else res.1.2 :: l) /\
    (vtx = 0 -> res.1.1 = 0) /\
    (res.1.2 <> 0 ->
     exists linked, linked <> 0 /\
       In (Called (GlGetProgramiv res.1.2 GL_LINK_STATUS) (RInt linked)) evs).
Proof.
  unfold createProgram_body. cbn zeta.
  destruct (vtx =? 0) eqn:Ev.
  - rewrite ret_run. cbn [fst snd]. exists []. rewrite app_nil_r.
    repeat split; try reflexivity. intros Hp; now elim Hp.
  - rewrite bind_run.
    destruct (createShader_live GL_FRAGMENT_SHADER fragSrc w) as (evs1 & Htr1 & Hs1 & Hp1).
    destruct (createShader env GL_FRAGMENT_SHADER fragSrc w) as [frag w1].
    cbn [fst snd] in *.
    assert (Hv : vtx = 0 -> frag = 0) by (apply Z.eqb_neq in Ev; intros; contradiction).
    revert Hs1. run_monad; intros Hs1; rewrite ?trace_record, Htr1; rewrite <- ?app_assoc;
      cbn [app]; (eexists; split; [reflexivity|]);
      try (exfalso; congruence);
      (split; [intros l|split; [intros l|split; [exact Hv|intros Hprog]]]);
      rewrite ?live_shaders_app, ?live_programs_app, ?Hs1, ?Hp1;
      cbn [live_shaders live_programs];
      repeat match goal with E : (_ =? _) = _ |- _ => rewrite E end;
      rewrite ?remove_one_head; try reflexivity; try (now elim Hprog).
    eexists; split; [|apply in_or_app; right; in_list].
    now apply Z.eqb_neq.
Qed.

Lemma both_shaders_removed vtx frag :
  (vtx = 0 -> frag = 0) ->
  remove_one frag
    (remove_one vtx
       (if frag =? 0 then if vtx =? 0 then [] else [vtx]
        else frag :: (if vtx =? 0 then [] else [vtx]))) = [].
Proof.
  intros Hv. destruct (Z.eqb_spec vtx 0) as [->|Hvtx].
  - rewrite (Hv eq_refl). reflexivity.
  - destruct (Z.eqb_spec frag 0) as [->|Hfrag]; cbn [remove_one].
    + rewrite Z.eqb_refl. reflexivity.
    + destruct (Z.eqb_spec frag vtx) as [->|Hne]; cbn [remove_one];
        rewrite !Z.eqb_refl; reflexivity.
Qed.

(** C6.  Whatever the driver answers, [createProgram] returns with every
    shader object it created handed to [glDeleteShader]; it returns either 0,
    and then no program object it created is left undeleted, or the nonzero
    handle of the one program it created, whose link status the driver
    reported as set. *)
Theorem createProgram_releases_shaders vtxSrc fragSrc w :
  let program := (createProgram env vtxSrc fragSrc w).1 in
  exists evs, trace (createProgram env vtxSrc fragSrc w).2 = trace w ++ evs /\
    live_shaders evs [] = [] /\
    if program =? 0 then live_programs evs [] = []
    else live_programs evs [] = [program] /\
         exists linked, linked <> 0 /\
           In (Called (GlGetProgramiv program GL_LINK_STATUS) (RInt linked)) evs.
Proof.
  unfold createProgram. rewrite bind_run.
  destruct (createShader_live GL_VERTEX_SHADER vtxSrc w) as (evs1 & Htr1 & Hs1 & Hp1).
  destruct (createShader env GL_VERTEX_SHADER vtxSrc w) as [vtx w1].
  cbn [fst snd] in *. rewrite bind_run.
  destruct (createProgram_body_live vtx fragSrc w1) as (evs2 & Htr2 & Hs2 & Hp2 & Hv & Hl).
  destruct (createProgram_body env vtx fragSrc w1) as [[frag program] w2].
  cbn [fst snd] in *. run_monad.
  all: rewrite ?trace_record, Htr2, Htr1; rewrite <- ?app_assoc; cbn [app];
    (eexists; split; [reflexivity|]);
    rewrite !live_shaders_app, ?live_programs_app, Hs1, Hs2, ?Hp1, ?Hp2;
    cbn [live_shaders live_programs];
    repeat match goal with E : (_ =? _) = _ |- _ => rewrite E end.
  all: rewrite (both_shaders_removed vtx frag Hv).
  - split; reflexivity.
  - apply Z.eqb_neq in E. destruct (Hl E) as (linked & Hne & Hin).
    repeat split; trivial. exists linked. split; [exact Hne|].
    apply in_or_app; right. apply in_or_app; left. exact Hin.
Qed.
End ShaderProps.

(** ** Loops *)

Section LoopProps.
Context {T : Type}.
Lemma for_loop_preserves {A} (P : A -> Prop) (body : nat -> A -> M (T:=T) A) :
  (forall j a w, P a -> P (body j a w).1) ->
  forall fuel i bound stride a w,
    P a -> P (for_loop fuel i bound stride body a w).1.
Proof.
  intros Hbody fuel. induction fuel as [|fuel IH]; intros i bound stride a w Ha; cbn [for_loop].
  - exact Ha.
  - destruct (i <? bound)%nat; [|exact Ha].
    rewrite bind_run. apply IH. now apply Hbody.
Qed.

Lemma for_loop_indexed {A} (P : nat -> A -> Prop) (body : nat -> A -> M (T:=T) A) bound stride :
  (0 < stride)%nat ->
  (forall j a w, (j < bound)%nat -> P j a -> P (j + stride)%nat (body j a w).1) ->
  forall fuel i a w,
    (bound - i <= fuel)%nat -> P i a ->
    exists j, (bound <= j)%nat /\ P j (for_loop fuel i bound stride body a w).1.
Proof.
  intros Hs Hbody fuel. induction fuel as [|fuel IH]; intros i a w Hfuel Ha; cbn [for_loop].
  - exists i. split; [lia|exact Ha].
  - destruct (Nat.ltb_spec i bound) as [Hlt|Hge].
    + rewrite bind_run. apply IH; [lia|]. now apply Hbody.
    + exists i. split; [lia|exact Ha].
Qed.
End LoopProps.

(** ** Renderer: resize *)

Section RendererProps.
Context {T : Type} `{Arith T}.
Variable hdr : Header (T:=T).
Abbreviation N := (MAX_INSTANCES_ITEM hdr).

Lemma calcSceneParams_body_fields i r w :
  let r' := (calcSceneParams_body i r w).1 in
  length (localOffset r') = length (localOffset r) /\
  length (mVx r') = length (mVx r) /\
  length (mVy r') = length (mVy r) /\
  mScale r' = mScale r /\ mLastFrameNs r' = mLastFrameNs r /\
  offsetRatio r' = offsetRatio r /\ mNumInstances r' = mNumInstances r /\
  backend r' = backend r.
Proof.
  unfold calcSceneParams_body. rewrite !bind_run. cbn.
  rewrite !length_insert. repeat split; reflexivity.
Qed.

Lemma resize_body_fields i r w :
  let r' := (resize_body hdr i r w).1 in
  localOffset r' = localOffset r /\ mVx r' = mVx r /\ mVy r' = mVy r /\
  mScale r' = mScale r /\ mLastFrameNs r' = mLastFrameNs r /\
  offsetRatio r' = offsetRatio r /\ mNumInstances r' = mNumInstances r /\
  offsetBuf r' = offsetBuf r /\ backend r' = backend r.
Proof.
  unfold resize_body. rewrite !bind_run. cbn. repeat split; reflexivity.
Qed.

Lemma calcSceneParams_fst w h r wld :
  (Renderer_calcSceneParams hdr w h r wld).1 =
  let r1 := (for_loop (N * 2) 0 (N * 2) 1 calcSceneParams_body (fresh_arrays hdr r) wld).1 in
  with_mScale
    (lit single (1 # 10),
     fdiv single (fmul single (lit single (1 # 10)) (of_int single h)) (of_int single w)) r1.
Proof.
  unfold Renderer_calcSceneParams. cbn zeta. rewrite bind_run. reflexivity.
Qed.

Lemma resize_fst w h r wld :
  (Renderer_resize hdr w h r wld).1 =
  let c := Renderer_calcSceneParams hdr (w mod 2 ^ 32) (h mod 2 ^ 32) r
             (record (Called MapOffsetBuf RVoid) wld) in
  with_mLastFrameNs 0
    (for_loop (mNumInstances c.1) 0 (mNumInstances c.1) 1 (resize_body hdr) c.1
       (record (Called UnmapOffsetBuf RVoid) c.2)).1.
Proof.
  unfold Renderer_resize. rewrite !bind_run. reflexivity.
Qed.

Lemma seeding_same_shape r0 fuel i bound stride w :
  same_shape r0 (for_loop fuel i bound stride calcSceneParams_body r0 w).1.
Proof.
  apply for_loop_preserves; [|repeat split; reflexivity].
  intros j a w' (H1 & H2 & H3 & H4 & H5 & H6 & H7 & H8).
  destruct (calcSceneParams_body_fields j a w') as (G1 & G2 & G3 & G4 & G5 & G6 & G7 & G8).
  repeat split; congruence.
Qed.

Lemma angles_same_motion r0 fuel i bound stride w :
  same_motion r0 (for_loop fuel i bound stride (resize_body hdr) r0 w).1.
Proof.
  apply for_loop_preserves; [|repeat split; reflexivity].
  intros j a w' (H1 & H2 & H3 & H4 & H5 & H6 & H7 & H8 & H9).
  destruct (resize_body_fields j a w') as (G1 & G2 & G3 & G4 & G5 & G6 & G7 & G8 & G9).
  repeat split; congruence.
Qed.

Lemma resize_allocated w h r wld : allocated hdr (Renderer_resize hdr w h r wld).1.
Proof.
  rewrite resize_fst. cbn zeta.
  match goal with |- allocated hdr (with_mLastFrameNs 0 (for_loop ?f ?i ?b ?s _ ?r0 ?w0).1) =>
    destruct (angles_same_motion r0 f i b s w0) as (H1 & H2 & H3 & _) end.
  unfold allocated. cbn [with_mLastFrameNs localOffset mVx mVy].
  rewrite H1, H2, H3, calcSceneParams_fst. cbn zeta.
  cbn [with_mScale localOffset mVx mVy].
  match goal with |- context [(for_loop ?f ?i ?b ?s _ ?r0 ?w0).1] =>
    destruct (seeding_same_shape r0 f i b s w0) as (G1 & G2 & G3 & _) end.
  rewrite G1, G2, G3. cbn. rewrite !length_replicate. auto.
Qed.

Lemma resize_resets_clock w h r wld : mLastFrameNs (Renderer_resize hdr w h r wld).1 = 0.
Proof. rewrite resize_fst. reflexivity. Qed.

Lemma resize_scale w h r wld :
  mScale (Renderer_resize hdr w h r wld).1 =
  (lit single (1 # 10),
   fdiv single (fmul single (lit single (1 # 10)) (of_int single (h mod 2 ^ 32)))
               (of_int single (w mod 2 ^ 32))).
Proof.
  rewrite resize_fst. cbn zeta.
  match goal with |- mScale (with_mLastFrameNs 0 (for_loop ?f ?i ?b ?s _ ?r0 ?w0).1) = _ =>
    destruct (angles_same_motion r0 f i b s w0) as (_ & _ & _ & H4 & _) end.
  cbn [with_mLastFrameNs mScale]. rewrite H4, calcSceneParams_fst. reflexivity.
Qed.

(** *** [step] *)

Lemma step_fst (env : Env (T:=T)) r wld :
  (Renderer_step hdr env r wld).1 =
  let nowNs := timespec_ns (env_time env (trace wld)) in
  with_mLastFrameNs nowNs
    (if 0 <? mLastFrameNs r then
       let dt := frame_dt nowNs (mLastFrameNs r) in
       (for_loop (2 * N) 0 (2 * N - 1) 2 (fun i r => mret (step_body dt i r)) r
          (record (Called MapOffsetBuf RVoid)
             (record (Logged INFO "fps:%f"
                        [AFloat (cast double (fdiv single (of_int single 1) dt))])
                (record (Called ClockGettime
                           (RTime (env_time env (trace wld)).1 (env_time env (trace wld)).2))
                   wld)))).1
     else r).
Proof.
  unfold Renderer_step. rewrite bind_run. cbn zeta. rewrite bind_run.
  destruct (0 <? mLastFrameNs r); [|reflexivity].
  rewrite !bind_run. reflexivity.
Qed.

Lemma step_body_localOffset dt i r :
  localOffset (step_body dt i r) =
  let ox := (advance (slot (localOffset r) i) (slot (mVx r) i) dt).1 in
  let lo1 := <[i := ox]> (localOffset r) in
  <[(i + 1)%nat := (advance (slot lo1 (i + 1)) (slot (mVy r) i) dt).1]> lo1.
Proof.
  unfold step_body.
  destruct (advance (slot (localOffset r) i) (slot (mVx r) i) dt) as [ox vx]. cbn.
  destruct (advance _ _ dt) as [oy vy]. reflexivity.
Qed.

Lemma step_body_mVx dt i r :
  mVx (step_body dt i r) =
  <[i := (advance (slot (localOffset r) i) (slot (mVx r) i) dt).2]> (mVx r).
Proof.
  unfold step_body.
  destruct (advance (slot (localOffset r) i) (slot (mVx r) i) dt) as [ox vx]. cbn.
  destruct (advance _ _ dt) as [oy vy]. reflexivity.
Qed.

Lemma step_body_mVy dt i r :
  mVy (step_body dt i r) =
  let ox := (advance (slot (localOffset r) i) (slot (mVx r) i) dt).1 in
  let lo1 := <[i := ox]> (localOffset r) in
  <[i := (advance (slot lo1 (i + 1)) (slot (mVy r) i) dt).2]> (mVy r).
Proof.
  unfold step_body.
  destruct (advance (slot (localOffset r) i) (slot (mVx r) i) dt) as [ox vx]. cbn.
  destruct (advance _ _ dt) as [oy vy]. reflexivity.
Qed.

Lemma step_body_offsetBuf dt i r :
  offsetBuf (step_body dt i r) =
  let lo2 := localOffset (step_body dt i r) in
  let ox := (advance (slot (localOffset r) i) (slot (mVx r) i) dt).1 in
  <[(i + 1)%nat := slot lo2 (i + 1)]>
    (<[i := slot (<[i := ox]> (localOffset r)) i]> (offsetBuf r)).
Proof.
  rewrite step_body_localOffset. unfold step_body.
  destruct (advance (slot (localOffset r) i) (slot (mVx r) i) dt) as [ox vx]. cbn.
  destruct (advance _ _ dt) as [oy vy]. reflexivity.
Qed.

Lemma advance_velocity o v dt :
  (advance o v dt).2 = v \/ (advance o v dt).2 = fneg v.
Proof. unfold advance. destruct (_ || _); cbn; auto. Qed.

Lemma step_allocated (env : Env (T:=T)) r wld :
  allocated hdr r -> allocated hdr (Renderer_step hdr env r wld).1.
Proof.
  intros Ha. rewrite step_fst. cbn zeta.
  unfold allocated. cbn [with_mLastFrameNs localOffset mVx mVy].
  destruct (0 <? mLastFrameNs r); [|exact Ha].
  apply (for_loop_preserves (allocated hdr)); [|exact Ha].
  intros j a w (H1 & H2 & H3). unfold mret, M_ret. cbn [fst]. unfold allocated.
  rewrite step_body_localOffset, step_body_mVx, step_body_mVy. cbn zeta.
  rewrite !length_insert. auto.
Qed.

Lemma after_resize_allocated r : after_resize hdr r -> allocated hdr r.
Proof.
  induction 1 as [w h r wld|env r wld _ IH].
  - apply resize_allocated.
  - now apply step_allocated.
Qed.

(** **** The first step after a resize *)

Lemma first_step_unchanged (env : Env (T:=T)) w h r wld wld' :
  let r1 := (Renderer_resize hdr w h r wld).1 in
  let r2 := (Renderer_step hdr env r1 wld').1 in
  let w2 := (Renderer_step hdr env r1 wld').2 in
  localOffset r2 = localOffset r1 /\ mVx r2 = mVx r1 /\ mVy r2 = mVy r1 /\
  offsetBuf r2 = offsetBuf r1 /\
  mLastFrameNs r2 = timespec_ns (env_time env (trace wld')) /\
  trace w2 = trace wld' ++
    [Called ClockGettime (RTime (env_time env (trace wld')).1 (env_time env (trace wld')).2)].
Proof.
  cbn zeta. pose proof (resize_resets_clock w h r wld) as Hclock.
  set (r1 := (Renderer_resize hdr w h r wld).1) in *.
  unfold Renderer_step. rewrite !bind_run. cbn zeta. rewrite Hclock.
  change (0 <? 0) with false. cbn. repeat split; reflexivity.
Qed.

(** C2.  The first [step] after a [resize] only records the clock: offsets,
    speeds and the offset buffer are those [resize] left, the frame clock
    holds the reading just taken, and the clock query is the only thing
    the call does. *)
Theorem first_step_moves_nothing (env : Env (T:=T)) w h r wld wld' :
  let r1 := (Renderer_resize hdr w h r wld).1 in
  let r2 := (Renderer_step hdr env r1 wld').1 in
  let w2 := (Renderer_step hdr env r1 wld').2 in
  localOffset r2 = localOffset r1 /\ mVx r2 = mVx r1 /\ mVy r2 = mVy r1 /\
  offsetBuf r2 = offsetBuf r1 /\
  mLastFrameNs r2 = timespec_ns (env_time env (trace wld')) /\
  trace w2 = trace wld' ++
    [Called ClockGettime (RTime (env_time env (trace wld')).1 (env_time env (trace wld')).2)].
Proof. apply first_step_unchanged. Qed.

(** **** Speeds *)

Lemma fmap_fabs_insert (l : list T) i v :
  v = slot l i \/ v = fneg (slot l i) ->
  fabs <$> <[i := v]> l = fabs <$> l.
Proof.
  intros Hv. rewrite list_fmap_insert.
  destruct (l !! i) as [x|] eqn:Hx.
  - apply list_insert_id. rewrite list_lookup_fmap, Hx. cbn.
    unfold slot in Hv. rewrite Hx in Hv. cbn in Hv.
    destruct Hv as [->| ->]; [reflexivity|]. now rewrite fabs_fneg.
  - apply list_insert_ge. rewrite length_fmap. now apply lookup_ge_None.
Qed.

(** C10.  A [step] leaves the absolute value of every entry of [mVx] and
    [mVy] as it was: it can only negate a speed. *)
Theorem step_keeps_speeds (env : Env (T:=T)) r wld :
  let r' := (Renderer_step hdr env r wld).1 in
  fabs <$> mVx r' = fabs <$> mVx r /\ fabs <$> mVy r' = fabs <$> mVy r.
Proof.
  cbn zeta. rewrite step_fst. cbn zeta. cbn [with_mLastFrameNs mVx mVy].
  destruct (0 <? mLastFrameNs r); [|split; reflexivity].
  apply (for_loop_preserves
           (fun a => fabs <$> mVx a = fabs <$> mVx r /\ fabs <$> mVy a = fabs <$> mVy r));
    [|split; reflexivity].
  intros j a w [Hx Hy]. unfold mret, M_ret. cbn [fst].
  rewrite step_body_mVx, step_body_mVy. cbn zeta.
  rewrite !fmap_fabs_insert by apply advance_velocity. now split.
Qed.

(** **** Every instance is advanced once *)

Lemma slot_lookup (l l0 : list T) i : l !! i = l0 !! i -> slot l i = slot l0 i.
Proof. unfold slot. now intros ->. Qed.

Lemma step_body_progress dt r0 j a :
  (j < 2 * N - 1)%nat ->
  step_progress hdr dt r0 j a -> step_progress hdr dt r0 (j + 2) (step_body dt j a).
Proof.
  intros Hj (m & -> & (L1 & L2 & L3) & Hdone & Hrest).
  exists (S m). split; [lia|]. split; [|split].
  - unfold allocated. rewrite step_body_localOffset, step_body_mVx, step_body_mVy.
    cbn zeta. rewrite !length_insert. auto.
  - intros k Hk. unfold instance_advanced. cbn zeta.
    rewrite step_body_offsetBuf, step_body_localOffset, step_body_mVx, step_body_mVy.
    cbn zeta.
    destruct (Hrest (2 * m)%nat (Nat.le_refl _)) as (R1 & R2 & R3).
    destruct (Hrest (2 * m + 1)%nat ltac:(lia)) as (R1' & _ & _).
    assert (Hk' : (k < m)%nat \/ k = m) by lia. destruct Hk' as [Hk'| ->].
    + destruct (Hdone k Hk') as (D1 & D2 & D3 & D4 & D5 & D6).
      rewrite !list_lookup_insert_ne by lia.
      rewrite !lookup_insert_ne by lia. repeat split; assumption.
    + rewrite (slot_lookup _ _ _ R1), (slot_lookup _ _ _ R2), (slot_lookup _ _ _ R3).
      set (x := advance (slot (localOffset r0) (2 * m)) (slot (mVx r0) (2 * m)) dt).
      assert (Hy : slot (<[(2 * m)%nat := x.1]> (localOffset a)) (2 * m + 1) =
                   slot (localOffset r0) (2 * m + 1)).
      { apply slot_lookup. rewrite list_lookup_insert_ne by lia. exact R1'. }
      rewrite Hy.
      set (y := advance (slot (localOffset r0) (2 * m + 1)) (slot (mVy r0) (2 * m)) dt).
      assert (Hx1 : slot (<[(2 * m)%nat := x.1]> (localOffset a)) (2 * m) = x.1).
      { unfold slot. rewrite list_lookup_insert_eq by lia. reflexivity. }
      assert (Hy1 : slot (<[(2 * m + 1)%nat := y.1]> (<[(2 * m)%nat := x.1]> (localOffset a)))
                      (2 * m + 1) = y.1).
      { unfold slot. rewrite list_lookup_insert_eq by (rewrite length_insert; lia).
        reflexivity. }
      rewrite Hx1, Hy1.
      rewrite list_lookup_insert_ne by lia.
      rewrite !list_lookup_insert_eq by (rewrite ?length_insert; lia).
      rewrite lookup_insert_ne by lia. rewrite !lookup_insert_eq.
      repeat split; reflexivity.
  - intros i Hi. destruct (Hrest i ltac:(lia)) as (R1 & R2 & R3).
    rewrite step_body_localOffset, step_body_mVx, step_body_mVy. cbn zeta.
    rewrite !list_lookup_insert_ne by lia. auto.
Qed.

Lemma step_instance_advanced (env : Env (T:=T)) r wld k :
  after_resize hdr r -> 0 < mLastFrameNs r -> (k < N)%nat ->
  let dt := frame_dt (timespec_ns (env_time env (trace wld))) (mLastFrameNs r) in
  let r' := (Renderer_step hdr env r wld).1 in
  (slot (localOffset r') (2 * k), slot (mVx r') (2 * k)) =
    advance (slot (localOffset r) (2 * k)) (slot (mVx r) (2 * k)) dt /\
  (slot (localOffset r') (2 * k + 1), slot (mVy r') (2 * k)) =
    advance (slot (localOffset r) (2 * k + 1)) (slot (mVy r) (2 * k)) dt /\
  offsetBuf r' !! (2 * k)%nat = Some (slot (localOffset r') (2 * k)) /\
  offsetBuf r' !! (2 * k + 1)%nat = Some (slot (localOffset r') (2 * k + 1)).
Proof.
  intros Hr Hclock Hk. cbn zeta. apply after_resize_allocated in Hr.
  rewrite step_fst. cbn zeta.
  apply Z.ltb_lt in Hclock. rewrite Hclock.
  cbn [with_mLastFrameNs localOffset mVx mVy offsetBuf].
  set (dt := frame_dt _ _).
  match goal with |- context [(for_loop ?f ?i ?b ?s ?body r ?w0).1] =>
    destruct (for_loop_indexed (step_progress hdr dt r) body b s ltac:(lia)
                (fun j a w Hj Hp => step_body_progress dt r j a Hj Hp) f i r w0
                ltac:(lia)) as (j & Hj & (m & -> & _ & Hdone & _))
  end.
  { exists 0%nat. split; [reflexivity|]. split; [exact Hr|]. split; [intros ? ?; lia|].
    intros ? _. auto. }
  destruct (Hdone k ltac:(lia)) as (D1 & D2 & D3 & D4 & D5 & D6).
  unfold slot at 1 2 5 6. unfold slot at 5 6.
  rewrite D1, D2, D3, D4, D5, D6. cbn [default].
  repeat split; symmetry; apply surjective_pairing.
Qed.

End RendererProps.

(** ** Exact arithmetic *)

Section Exact.
Variable hdr : Header (T:=Q).
Local Open Scope Q_scope.

Lemma Qltb_lt x y : Qltb x y = true <-> x < y.
Proof.
  unfold Qltb. rewrite negb_true_iff, <- not_true_iff_false, Qle_bool_iff.
  split; [apply Qnot_le_lt|apply Qlt_not_le].
Qed.

Lemma Qltb_ge x y : Qltb x y = false <-> y <= x.
Proof. unfold Qltb. rewrite negb_false_iff. apply Qle_bool_iff. Qed.

Lemma drand48_range (w : World (T:=Q)) : 0 <= (drand48 w).1 < 1.
Proof.
  unfold drand48, rand48_value. cbn [fst]. cbn [fmul of_int lit exact_arith].
  pose proof (Z.mod_pos_bound (25214903917 * rand48 w + 11) (2 ^ 48) eq_refl) as Hb.
  unfold rand48_next. set (x := ((25214903917 * rand48 w + 11) mod 2 ^ 48)%Z) in *.
  change (2 ^ 48)%Z with 281474976710656%Z in Hb.
  unfold Qle, Qlt. cbn. lia.
Qed.

Lemma seed_offset_in_unit d : 0 <= d < 1 -> in_unit ((d - (1 # 2)) * 2).
Proof. unfold in_unit. intros [? ?]. split; lra. Qed.

Lemma seed_speed_in_five d : 0 <= d < 1 -> in_five ((d - (1 # 2)) * 10).
Proof. unfold in_five. intros [? ?]. split; lra. Qed.

Lemma calcSceneParams_body_seeded i a w :
  seeded a -> seeded (calcSceneParams_body i a w).1.
Proof.
  intros (Hr & Hlo & Hvx & Hvy). unfold calcSceneParams_body.
  rewrite !bind_run. unfold mret, M_ret. cbn [fst].
  unfold seeded. cbn [offsetRatio localOffset mVx mVy with_offsetBuf with_mVy with_mVx
                      with_localOffset].
  split; [exact Hr|]. rewrite Hr.
  cbn [cast fmul fsub lit exact_arith].
  split; [|split]; apply Forall_insert; trivial.
  - apply seed_offset_in_unit, drand48_range.
  - apply seed_speed_in_five, drand48_range.
  - apply seed_speed_in_five, drand48_range.
Qed.

Lemma fresh_arrays_seeded r : seeded (fresh_arrays hdr r).
Proof.
  unfold seeded, fresh_arrays. cbn. split; [reflexivity|].
  repeat split; apply Forall_replicate; unfold in_unit, in_five, fzero; cbn;
    unfold inject_Z; split; lra.
Qed.

Lemma resize_seeded w h r wld : seeded (Renderer_resize hdr w h r wld).1.
Proof.
  rewrite resize_fst. cbn zeta.
  match goal with |- seeded (with_mLastFrameNs 0 (for_loop ?f ?i ?b ?s _ ?r0 ?w0).1) =>
    destruct (angles_same_motion hdr r0 f i b s w0) as (H1 & H2 & H3 & _ & _ & H6 & _) end.
  unfold seeded. cbn [with_mLastFrameNs offsetRatio localOffset mVx mVy].
  rewrite H1, H2, H3, H6, calcSceneParams_fst. cbn zeta.
  cbn [with_mScale offsetRatio localOffset mVx mVy].
  apply (for_loop_preserves seeded).
  - intros j a w'. apply calcSceneParams_body_seeded.
  - apply fresh_arrays_seeded.
Qed.

(** After [resize], in exact arithmetic: the offset ratio is 2, the three
    arrays hold two slots per instance, every offset lies in
    [-ratio/2, ratio/2], every speed in [-5, 5], and the frame clock is 0. *)
Lemma resize_seeds_in_range_exact w h r wld :
  let r' := (Renderer_resize hdr w h r wld).1 in
  let n := MAX_INSTANCES_ITEM hdr in
  offsetRatio r' = 2 /\
  length (localOffset r') = (n * 2)%nat /\
  length (mVx r') = (n * 2)%nat /\ length (mVy r') = (n * 2)%nat /\
  Forall (fun o => -(offsetRatio r' / 2) <= o <= offsetRatio r' / 2) (localOffset r') /\
  Forall (fun v => -(5) <= v <= 5) (mVx r') /\
  Forall (fun v => -(5) <= v <= 5) (mVy r') /\
  mLastFrameNs r' = 0%Z.
Proof.
  cbn zeta. destruct (resize_seeded w h r wld) as (Hr & Hlo & Hvx & Hvy).
  destruct (resize_allocated hdr w h r wld) as (L1 & L2 & L3).
  rewrite Hr. repeat split; trivial.
  - eapply Forall_impl; [exact Hlo|]. unfold in_unit. intros o [? ?].
    change (2 / 2) with (2 * (1 # 2)). split; lra.
  - apply resize_resets_clock.
Qed.

(** **** Bounce keeps a slot in range when the frame is short *)

Lemma advance_in_range o v dt :
  in_unit o -> in_five v -> 0 <= dt <= 2 ->
  in_unit (advance o v dt).1 /\ in_five (advance o v dt).2.
Proof.
  unfold in_unit, in_five. intros [Ho1 Ho2] [Hv1 Hv2] [Hd1 Hd2].
  assert (Hp : -(10) <= v * dt <= 10) by (split; nra).
  unfold advance. cbn [cast fadd fsub fmul fneg lit of_int exact_arith fgt flt].
  unfold fgt. cbn [flt exact_arith]. change (inject_Z 2) with 2.
  set (p := v * dt) in *.
  destruct (Qltb 1 (o + p * (1 # 10))) eqn:Hhi; cbn [orb fst snd].
  - apply Qltb_lt in Hhi.
    assert (Hq : 2 * v * dt == 2 * p) by (unfold p; ring).
    rewrite Hq. repeat split; lra.
  - apply Qltb_ge in Hhi.
    destruct (Qltb (o + p * (1 # 10)) (- (1))) eqn:Hlo; cbn [fst snd].
    + apply Qltb_lt in Hlo.
      assert (Hq : 2 * v * dt == 2 * p) by (unfold p; ring).
      rewrite Hq. repeat split; lra.
    + apply Qltb_ge in Hlo. repeat split; lra.
Qed.

Lemma slot_Forall (P : Q -> Prop) l i : P fzero -> Forall P l -> P (slot l i).
Proof.
  intros H0 Hl. unfold slot. destruct (l !! i) as [x|] eqn:Hx; cbn; [|exact H0].
  eapply Forall_lookup_1; eauto.
Qed.

Lemma fzero_in_unit : in_unit fzero.
Proof. unfold in_unit, fzero. cbn. unfold inject_Z. split; lra. Qed.

Lemma fzero_in_five : in_five fzero.
Proof. unfold in_five, fzero. cbn. unfold inject_Z. split; lra. Qed.

Lemma step_body_in_bounds dt j a :
  0 <= dt <= 2 -> in_bounds a -> in_bounds (step_body dt j a).
Proof.
  intros Hdt (Hlo & Hvx & Hvy). unfold in_bounds.
  rewrite step_body_localOffset, step_body_mVx, step_body_mVy. cbn zeta.
  assert (Hx := advance_in_range (slot (localOffset a) j) (slot (mVx a) j) dt
                  (slot_Forall _ _ _ fzero_in_unit Hlo)
                  (slot_Forall _ _ _ fzero_in_five Hvx) Hdt).
  destruct Hx as [Hx1 Hx2].
  assert (Hlo1 : Forall in_unit
            (<[j := (advance (slot (localOffset a) j) (slot (mVx a) j) dt).1]> (localOffset a)))
    by (apply Forall_insert; trivial).
  assert (Hy := advance_in_range _ (slot (mVy a) j) dt
                  (slot_Forall _ _ (j + 1) fzero_in_unit Hlo1)
                  (slot_Forall _ _ _ fzero_in_five Hvy) Hdt).
  destruct Hy as [Hy1 Hy2].
  repeat split; apply Forall_insert; trivial.
Qed.

Lemma frame_dt_range now last :
  ((now - last) mod 2 ^ 64 <= 2000000000)%Z -> 0 <= frame_dt now last <= 2.
Proof.
  intros Hgap. unfold frame_dt. cbn [fmul of_int lit exact_arith].
  pose proof (Z.mod_pos_bound (now - last) (2 ^ 64) eq_refl) as [Hpos _].
  set (e := ((now - last) mod 2 ^ 64)%Z) in *.
  unfold Qle. cbn. lia.
Qed.

Lemma paced_in_bounds r : paced_after_resize hdr 2000000000 r -> in_bounds r.
Proof.
  induction 1 as [w h r wld|env r wld _ IH Hgap].
  - destruct (resize_seeded w h r wld) as (_ & Hlo & Hvx & Hvy). now repeat split.
  - rewrite step_fst. cbn zeta. unfold in_bounds.
    cbn [with_mLastFrameNs localOffset mVx mVy].
    destruct (0 <? mLastFrameNs r)%Z eqn:Hclock; [|exact IH].
    apply Z.ltb_lt in Hclock. specialize (Hgap Hclock). unfold elapsed_ns in Hgap.
    apply (for_loop_preserves in_bounds); [|exact IH].
    intros j a w Ha. unfold mret, M_ret. cbn [fst].
    apply step_body_in_bounds; [|exact Ha]. now apply frame_dt_range.
Qed.


(** After a [resize] and any number of [step]s none of which comes more
    than two seconds after the one before, every offset component lies in
    [-1, 1] in exact arithmetic as well. *)
Lemma paced_offsets_in_range_exact r :
  paced_after_resize hdr 2000000000 r ->
  Forall (fun o => -(1) <= o <= 1) (localOffset r).
Proof. intros Hr. apply (paced_in_bounds r Hr). Qed.
End Exact.

(** ** One step, written out *)


(** ** Binary floating point *)

(** *** Dyadic numbers [m * 2^e] *)

Lemma pow2_pos e : (0 < 2 ^ e)%Q.
Proof. apply Qpower_0_lt. reflexivity. Qed.

Lemma pow2_plus a b : (2 ^ (a + b) == 2 ^ a * 2 ^ b)%Q.
Proof. apply Qpower_plus. discriminate. Qed.

Lemma pow2_Z k : 0 <= k -> (2 ^ k == inject_Z (2 ^ k))%Q.
Proof. intros Hk. rewrite Zpower_Qpower by exact Hk. reflexivity. Qed.

Lemma dy_shift m e k : 0 <= k -> (dy (m * 2 ^ k) e == dy m (e + k))%Q.
Proof.
  intros Hk. unfold dy. rewrite inject_Z_mult, pow2_plus, (pow2_Z k Hk). ring.
Qed.

Lemma dy_le m1 m2 e : m1 <= m2 <-> (dy m1 e <= dy m2 e)%Q.
Proof.
  unfold dy. pose proof (pow2_pos e) as Hp. rewrite Zle_Qle. split; intros Hle.
  - apply Qmult_le_compat_r; [exact Hle|]. now apply Qlt_le_weak.
  - eapply Qmult_le_r; eauto.
Qed.

Lemma dy_lt m1 m2 e : m1 < m2 <-> (dy m1 e < dy m2 e)%Q.
Proof.
  unfold dy. pose proof (pow2_pos e) as Hp. rewrite Zlt_Qlt. split; intros Hlt.
  - apply Qmult_lt_compat_r; assumption.
  - eapply Qmult_lt_r; eauto.
Qed.

Lemma dy_pow2 k e : 0 <= k -> (dy (2 ^ k) e == dy 1 (e + k))%Q.
Proof. intros Hk. rewrite <- (dy_shift 1 e k Hk). now rewrite Z.mul_1_l. Qed.

Lemma dy_one_mono e e' : e <= e' -> (dy 1 e <= dy 1 e')%Q.
Proof.
  intros Hle. replace e' with (e + (e' - e)) by lia.
  rewrite <- dy_pow2 by lia. apply dy_le.
  assert (0 < 2 ^ (e' - e)) by (apply Z.pow_pos_nonneg; lia). lia.
Qed.

Lemma dy_below_pow2 m e k : 0 <= k -> m < 2 ^ k -> (dy m e < dy 1 (e + k))%Q.
Proof. intros Hk Hlt. rewrite <- dy_pow2 by exact Hk. now apply dy_lt. Qed.

Lemma dy_above_pow2 m e k : 0 <= k -> 2 ^ k <= m -> (dy 1 (e + k) <= dy m e)%Q.
Proof. intros Hk Hle. rewrite <- dy_pow2 by exact Hk. now apply dy_le. Qed.

Lemma dy_mul a e b f : (dy (a * b) (e + f) == dy a e * dy b f)%Q.
Proof. unfold dy. rewrite inject_Z_mult, pow2_plus. ring. Qed.

Lemma dy_nonneg m e : 0 <= m -> (0 <= dy m e)%Q.
Proof.
  intros Hm. unfold dy. apply Qmult_le_0_compat.
  - change 0%Q with (inject_Z 0). now rewrite <- Zle_Qle.
  - apply Qlt_le_weak, pow2_pos.
Qed.

(** *** Digits *)

Lemma digits2_pos_bounds p :
  2 ^ (Zpos (digits2_pos p) - 1) <= Zpos p < 2 ^ Zpos (digits2_pos p).
Proof.
  induction p as [p IH|p IH|]; cbn [digits2_pos].
  - rewrite Pos2Z.inj_succ. replace (Z.succ (Zpos (digits2_pos p)) - 1) with
      (Z.succ (Zpos (digits2_pos p) - 1)) by lia.
    rewrite !Z.pow_succ_r by lia. lia.
  - rewrite Pos2Z.inj_succ. replace (Z.succ (Zpos (digits2_pos p)) - 1) with
      (Z.succ (Zpos (digits2_pos p) - 1)) by lia.
    rewrite !Z.pow_succ_r by lia. lia.
  - cbn. lia.
Qed.

Lemma Zdigits2_bounds m :
  0 < m -> 2 ^ (Zdigits2 m - 1) <= m < 2 ^ Zdigits2 m.
Proof. destruct m as [|p|p]; try lia. intros _. apply digits2_pos_bounds. Qed.

Lemma Zdigits2_pos m : 0 < m -> 0 < Zdigits2 m.
Proof. destruct m; cbn; lia. Qed.

Lemma Zdigits2_unique m d :
  0 < m -> 2 ^ (d - 1) <= m < 2 ^ d -> Zdigits2 m = d.
Proof.
  intros Hm [Hlo Hhi]. pose proof (Zdigits2_bounds m Hm) as [Glo Ghi].
  pose proof (Zdigits2_pos m Hm) as Hd.
  assert (0 < d).
  { destruct (Z.le_gt_cases d 0) as [Hle|]; [|assumption].
    assert (2 ^ d <= 2 ^ 0) by (apply Z.pow_le_mono_r; lia).
    change (2 ^ 0) with 1 in *. lia. }
  destruct (Z.lt_trichotomy (Zdigits2 m) d) as [Hlt|[Heq|Hgt]]; [|assumption|].
  - assert (2 ^ Zdigits2 m <= 2 ^ (d - 1)) by (apply Z.pow_le_mono_r; lia). lia.
  - assert (2 ^ d <= 2 ^ (Zdigits2 m - 1)) by (apply Z.pow_le_mono_r; lia). lia.
Qed.

Lemma Zdigits2_pow2 j : 0 <= j -> Zdigits2 (2 ^ j) = j + 1.
Proof.
  intros Hj. assert (0 < 2 ^ j) by (apply Z.pow_pos_nonneg; lia).
  apply Zdigits2_unique; [assumption|].
  replace (j + 1 - 1) with j by lia. rewrite Z.pow_add_r by lia. lia.
Qed.

Lemma Zdigits2_div m k :
  0 < m -> 0 <= k -> 0 < m / 2 ^ k -> Zdigits2 (m / 2 ^ k) = Zdigits2 m - k.
Proof.
  intros Hm Hk Hq. pose proof (Zdigits2_bounds m Hm) as [Glo Ghi].
  assert (HP : 0 < 2 ^ k) by (apply Z.pow_pos_nonneg; lia).
  assert (Hkd : k < Zdigits2 m).
  { destruct (Z.lt_ge_cases k (Zdigits2 m)) as [|Hge]; [assumption|].
    assert (2 ^ Zdigits2 m <= 2 ^ k) by (apply Z.pow_le_mono_r; lia).
    rewrite Z.div_small in Hq; lia. }
  apply Zdigits2_unique; [assumption|]. split.
  - apply Z.div_le_lower_bound; [assumption|].
    rewrite <- Z.pow_add_r by lia. replace (k + (Zdigits2 m - k - 1)) with (Zdigits2 m - 1) by lia.
    assumption.
  - apply Z.div_lt_upper_bound; [assumption|].
    rewrite <- Z.pow_add_r by lia. replace (k + (Zdigits2 m - k)) with (Zdigits2 m) by lia.
    assumption.
Qed.

Lemma Zdigits2_succ m :
  0 < m ->
  Zdigits2 (m + 1) = Zdigits2 m \/
  (m + 1 = 2 ^ Zdigits2 m /\ Zdigits2 (m + 1) = Zdigits2 m + 1).
Proof.
  intros Hm. pose proof (Zdigits2_bounds m Hm) as [Glo Ghi].
  pose proof (Zdigits2_pos m Hm) as Hd.
  destruct (Z.eq_dec (m + 1) (2 ^ Zdigits2 m)) as [Heq|Hne].
  - right. split; [assumption|]. rewrite Heq. apply Zdigits2_pow2. lia.
  - left. apply Zdigits2_unique; lia.
Qed.

Lemma Zdigits2_shift m k : 0 < m -> 0 <= k -> Zdigits2 (m * 2 ^ k) = Zdigits2 m + k.
Proof.
  intros Hm Hk. pose proof (Zdigits2_bounds m Hm) as [Glo Ghi].
  pose proof (Zdigits2_pos m Hm) as Hd.
  assert (HP : 0 < 2 ^ k) by (apply Z.pow_pos_nonneg; lia).
  apply Zdigits2_unique; [nia|].
  replace (Zdigits2 m + k - 1) with (Zdigits2 m - 1 + k) by lia.
  rewrite !Z.pow_add_r by lia. nia.
Qed.

Lemma Zdigits2_mul a b :
  0 < a -> 0 < b -> Zdigits2 a + Zdigits2 b - 1 <= Zdigits2 (a * b).
Proof.
  intros Ha Hb. pose proof (Zdigits2_bounds a Ha) as [Alo _].
  pose proof (Zdigits2_bounds b Hb) as [Blo _].
  pose proof (Zdigits2_bounds (a * b) ltac:(nia)) as [_ Chi].
  pose proof (Zdigits2_pos a Ha). pose proof (Zdigits2_pos b Hb).
  pose proof (Zdigits2_pos (a * b) ltac:(nia)).
  assert (Hlo : 2 ^ (Zdigits2 a - 1 + (Zdigits2 b - 1)) <= a * b).
  { rewrite Z.pow_add_r by lia.
    assert (0 < 2 ^ (Zdigits2 a - 1)) by (apply Z.pow_pos_nonneg; lia).
    assert (0 < 2 ^ (Zdigits2 b - 1)) by (apply Z.pow_pos_nonneg; lia). nia. }
  assert (Hlt : 2 ^ (Zdigits2 a - 1 + (Zdigits2 b - 1)) < 2 ^ Zdigits2 (a * b)) by lia.
  apply Z.pow_lt_mono_r_iff in Hlt; lia.
Qed.

(** *** Shifting *)

Lemma iter_pos_nat {A} (f : A -> A) p x :
  SpecFloat.iter_pos f p x = Nat.iter (Pos.to_nat p) f x.
Proof.
  revert x. induction p as [p IH|p IH|]; intros x; cbn [SpecFloat.iter_pos].
  - rewrite !IH, Pos2Nat.inj_xI.
    replace (S (2 * Pos.to_nat p)) with (Pos.to_nat p + (Pos.to_nat p + 1))%nat by lia.
    rewrite !Nat.iter_add. reflexivity.
  - rewrite !IH, Pos2Nat.inj_xO.
    replace (2 * Pos.to_nat p)%nat with (Pos.to_nat p + Pos.to_nat p)%nat by lia.
    rewrite Nat.iter_add. reflexivity.
  - reflexivity.
Qed.

Lemma shr_1_nonneg m r s :
  0 <= m -> shr_1 (Build_shr_record m r s) = Build_shr_record (Z.div2 m) (Z.odd m) (r || s).
Proof. intros Hm. destruct m as [|[p|p|]|p]; try reflexivity. lia. Qed.

Lemma shr_iter k m :
  0 <= m ->
  let res := Nat.iter k shr_1 (Build_shr_record m false false) in
  shr_m res = m / 2 ^ Z.of_nat k /\
  (m mod 2 ^ Z.of_nat k = 0 -> shr_r res = false /\ shr_s res = false).
Proof.
  intros Hm. induction k as [|k IH]; cbn zeta in *.
  - cbn. rewrite Z.div_1_r. auto.
  - rewrite Nat.iter_succ. destruct IH as [IHm IHe].
    destruct (Nat.iter k shr_1 (Build_shr_record m false false)) as [mk rk sk] eqn:Ek.
    cbn [shr_m shr_r shr_s] in *.
    assert (Hmk : 0 <= mk) by (subst mk; apply Z.div_pos; lia).
    rewrite shr_1_nonneg by exact Hmk. cbn [shr_m shr_r shr_s].
    rewrite Nat2Z.inj_succ, Z.pow_succ_r by lia. split.
    + rewrite Z.div2_div, IHm, Z.div_div by lia. f_equal. lia.
    + intros Hmod.
      assert (Hk : m mod 2 ^ Z.of_nat k = 0).
      { apply Z.mod_divide in Hmod; [|lia]. apply Z.mod_divide; [lia|].
        destruct Hmod as [q Hq]. exists (q * 2). lia. }
      destruct (IHe Hk) as [-> ->]. split; [|reflexivity].
      apply Z.mod_divide in Hmod; [|lia]. destruct Hmod as [q Hq].
      subst mk. rewrite Hq.
      replace (q * (2 * 2 ^ Z.of_nat k)) with ((q * 2) * 2 ^ Z.of_nat k) by lia.
      rewrite Z.div_mul by lia. rewrite Z.mul_comm. apply Z.odd_even.
Qed.

(** [shr] on an exact record: the quotient, and no lost bit when the
    division is exact. *)
Lemma shr_exact m e n :
  0 <= m -> 0 < n ->
  exists res, shr (Build_shr_record m false false) e n = (res, e + n) /\
    shr_m res = m / 2 ^ n /\
    (m mod 2 ^ n = 0 -> loc_of_shr_record res = loc_Exact).
Proof.
  intros Hm Hn. destruct n as [|p|p]; try lia. cbn [shr].
  rewrite iter_pos_nat. eexists. split; [reflexivity|].
  pose proof (shr_iter (Pos.to_nat p) m Hm) as Hs. cbn zeta in Hs.
  rewrite positive_nat_Z in Hs. destruct Hs as [Hq Hr]. split; [exact Hq|].
  intros Hmod. destruct (Hr Hmod) as [H1 H2].
  destruct (Nat.iter (Pos.to_nat p) shr_1 _) as [mm r s]. cbn in *. subst. reflexivity.
Qed.

Lemma iter_xO m d : Zpos (Pos.iter xO m d) = Zpos m * 2 ^ Zpos d.
Proof.
  induction d as [|d IH] using Pos.peano_ind.
  - cbn. lia.
  - rewrite Pos.iter_succ, Pos2Z.inj_xO, IH, Pos2Z.inj_succ, Z.pow_succ_r by lia. lia.
Qed.

Lemma shl_align_spec mx ex ex' :
  let r := shl_align mx ex ex' in
  r.2 = Z.min ex ex' /\ Zpos r.1 = Zpos mx * 2 ^ (ex - r.2).
Proof.
  unfold shl_align. destruct (ex' - ex) as [|d|d] eqn:Hd; cbn [fst snd].
  - replace (Z.min ex ex') with ex by lia. rewrite Z.sub_diag. cbn. lia.
  - replace (Z.min ex ex') with ex by lia. rewrite Z.sub_diag. cbn. lia.
  - replace (Z.min ex ex') with ex' by lia. split; [reflexivity|].
    rewrite iter_xO. f_equal. f_equal. lia.
Qed.

(** *** Rounding to nearest *)

Lemma round_nearest_even_bounds m l :
  m <= round_nearest_even m l <= m + 1 /\
  (l = loc_Exact -> round_nearest_even m l = m).
Proof.
  unfold round_nearest_even. destruct l as [|[| |]]; try destruct (Z.even m);
    (split; [lia|]); intros; (reflexivity || discriminate).
Qed.

Section Rounding.
Variables prec emax : Z.
Hypothesis prec_pos : 0 < prec.
Hypothesis prec_lt_emax : prec < emax.

Lemma shr_fexp_exact m e :
  0 <= m ->
  let k := Z.max 0 (fexp prec emax (Zdigits2 m + e) - e) in
  exists res, shr_fexp prec emax m e loc_Exact = (res, e + k) /\
    shr_m res = m / 2 ^ k /\
    (m mod 2 ^ k = 0 -> loc_of_shr_record res = loc_Exact).
Proof.
  intros Hm k. unfold shr_fexp. cbn [shr_record_of_loc].
  destruct (Z.le_gt_cases (fexp prec emax (Zdigits2 m + e) - e) 0) as [Hle|Hgt].
  - replace k with 0 by lia. exists (Build_shr_record m false false).
    rewrite Z.add_0_r, Z.pow_0_r, Z.div_1_r. cbn [shr_m loc_of_shr_record].
    split; [|auto]. destruct (fexp prec emax (Zdigits2 m + e) - e); try reflexivity. lia.
  - replace k with (fexp prec emax (Zdigits2 m + e) - e) by lia.
    apply shr_exact; lia.
Qed.


(** Rounding to nearest never crosses a representable number. *)
Lemma binary_round_aux_le s m e Mb Eb :
  0 < m -> e <= fexp prec emax (Zdigits2 m + e) ->
  Mb < 2 ^ prec -> emin prec emax <= Eb -> Eb + prec <= emax ->
  (dy m e <= dy Mb Eb)%Q ->
  rounded_within prec emax s Mb Eb (binary_round_aux prec emax s m e loc_Exact).
Proof.
  intros Hm Hin HMb HEb Hfin Hle. unfold binary_round_aux.
  pose proof (Zdigits2_bounds m Hm) as [Dlo Dhi].
  pose proof (Zdigits2_pos m Hm) as Dpos.
  destruct (shr_fexp_exact m e ltac:(lia)) as (r1 & E1 & Hq1 & Hx1). cbn zeta in *.
  rewrite E1. clear E1.
  set (d := Zdigits2 m) in *. set (e1 := fexp prec emax (d + e)) in *.
  replace (Z.max 0 (e1 - e)) with (e1 - e) in * by lia.
  replace (e + (e1 - e)) with e1 by lia.
  set (k := e1 - e) in *. assert (Hk : 0 <= k) by lia.
  assert (Hek : e + k = e1) by (unfold k; lia).
  assert (HP : 0 < 2 ^ k) by (apply Z.pow_pos_nonneg; lia).
  set (m1 := shr_m r1) in *.
  assert (Hm1 : 0 <= m1) by (rewrite Hq1; apply Z.div_pos; lia).
  destruct (round_nearest_even_bounds m1 (loc_of_shr_record r1)) as [Hr Hrx].
  set (m2 := round_nearest_even m1 (loc_of_shr_record r1)) in *.
  destruct (shr_fexp_exact m2 e1 ltac:(lia)) as (r2 & E2 & Hq2 & _). cbn zeta in *.
  rewrite E2. clear E2.
  set (k2 := Z.max 0 (fexp prec emax (Zdigits2 m2 + e1) - e1)) in *.
  assert (Hk2 : 0 <= k2) by lia.
  assert (HP2 : 0 < 2 ^ k2) by (apply Z.pow_pos_nonneg; lia).
  set (m3 := shr_m r2) in *.
  assert (Hm3 : 0 <= m3) by (rewrite Hq2; apply Z.div_pos; lia).
  (* the rounded mantissa stays below the bound *)
  assert (HA : (dy m2 e1 <= dy Mb Eb)%Q).
  { destruct (Z.le_gt_cases e1 Eb) as [Hcase|Hcase].
    - assert (HB : (dy Mb Eb == dy (Mb * 2 ^ (Eb - e1)) e1)%Q).
      { rewrite dy_shift by lia. now replace (e1 + (Eb - e1)) with Eb by lia. }
      rewrite HB. apply dy_le.
      assert (HB' : (dy Mb Eb == dy (Mb * 2 ^ (Eb - e1) * 2 ^ k) e)%Q).
      { rewrite HB, (dy_shift (Mb * 2 ^ (Eb - e1)) e k), Hek by lia. reflexivity. }
      rewrite HB' in Hle. apply dy_le in Hle.
      set (Bz := Mb * 2 ^ (Eb - e1)) in *.
      pose proof (Z.div_mod m (2 ^ k) ltac:(lia)) as Hdm.
      pose proof (Z.mod_pos_bound m (2 ^ k) HP) as Hmod.
      rewrite <- Hq1 in Hdm.
      assert (m1 <= Bz) by nia.
      destruct (Z.eq_dec m1 Bz) as [Heq|Hne]; [|lia].
      assert (m mod 2 ^ k = 0) by nia.
      rewrite Hrx; [lia|auto].
    - exfalso. assert (Hnorm : e1 = d + e - prec) by (unfold e1, fexp in *; lia).
      assert (H1 : (dy 1 (e + (d - 1)) <= dy m e)%Q) by (apply dy_above_pow2; lia).
      assert (H2 : (dy Mb Eb < dy 1 (Eb + prec))%Q) by (apply dy_below_pow2; lia).
      assert (H3 : (dy 1 (Eb + prec) <= dy 1 (e + (d - 1)))%Q) by (apply dy_one_mono; lia).
      apply (Qlt_irrefl (dy Mb Eb)).
      eapply Qlt_le_trans; [exact H2|]. eapply Qle_trans; [exact H3|].
      eapply Qle_trans; [exact H1|exact Hle]. }
  (* the second shift only truncates *)
  assert (HB : (dy m3 (e1 + k2) <= dy m2 e1)%Q).
  { rewrite <- dy_shift by lia. apply dy_le. rewrite Hq2, Z.mul_comm.
    apply Z.mul_div_le. lia. }
  (* the result is canonical *)
  assert (HC : 0 < m3 -> fexp prec emax (Zdigits2 m3 + (e1 + k2)) = e1 + k2).
  { intros Hpos. destruct (Z.eq_dec m1 0) as [Hz|Hnz].
    - assert (Hsmall : m < 2 ^ k).
      { rewrite Hz in Hq1. symmetry in Hq1. apply Z.div_small_iff in Hq1; lia. }
      assert (d <= k).
      { destruct (Z.le_gt_cases d k); [assumption|].
        assert (2 ^ k <= 2 ^ (d - 1)) by (apply Z.pow_le_mono_r; lia). lia. }
      assert (Hm2 : m2 = 0 \/ m2 = 1) by lia. destruct Hm2 as [Hm2|Hm2].
      + rewrite Hm2, Z.div_0_l in Hq2 by lia. lia.
      + assert (Hk0 : k2 = 0) by (unfold k2, e1, fexp, emin in *; rewrite Hm2; cbn; lia).
        assert (Hm31 : m3 = 1) by (rewrite Hq2, Hm2, Hk0; reflexivity).
        rewrite Hm31, Hk0. unfold e1, fexp, emin in *. cbn. lia.
    - assert (Hd1 : Zdigits2 m1 = d - k).
      { rewrite Hq1. apply Zdigits2_div; lia. }
      assert (Hd2 : Zdigits2 m2 = d - k \/ (m2 = 2 ^ (d - k) /\ Zdigits2 m2 = d - k + 1)).
      { destruct (Z.eq_dec m2 m1) as [->|Hne]; [left; assumption|].
        replace m2 with (m1 + 1) by lia. rewrite <- Hd1. apply Zdigits2_succ. lia. }
      pose proof (Zdigits2_pos m1 ltac:(lia)) as Hd1pos.
      destruct Hd2 as [Hd2|[Hpow Hd2]].
      + assert (Hk0 : k2 = 0) by (unfold k2, e1, fexp, emin in *; rewrite Hd2; lia).
        assert (Hm32 : m3 = m2) by (rewrite Hq2, Hk0, Z.pow_0_r; apply Z.div_1_r).
        rewrite Hm32, Hd2, Hk0. unfold e1, fexp, emin in *. lia.
      + assert (Hk2c : k2 = 0 \/ k2 = 1) by (unfold k2, e1, fexp, emin in *; rewrite Hd2; lia).
        destruct Hk2c as [Hk0|Hk1].
        * assert (Hm32 : m3 = m2) by (rewrite Hq2, Hk0, Z.pow_0_r; apply Z.div_1_r).
          rewrite Hm32, Hd2. unfold k2, e1, fexp, emin in *. rewrite Hd2 in Hk0. lia.
        * assert (Hm33 : m3 = 2 ^ (d - k - 1)).
          { assert (Hpw : 2 ^ (d - k) = 2 ^ (d - k - 1) * 2).
            { rewrite Z.mul_comm, <- (Z.pow_succ_r 2 (d - k - 1)) by lia. f_equal. lia. }
            rewrite Hq2, Hpow, Hk1, Hpw. change (2 ^ 1) with 2. apply Z.div_mul. lia. }
          rewrite Hm33, Zdigits2_pow2 by lia.
          unfold k2, e1, fexp, emin in *. rewrite Hd2 in Hk1. lia. }
  destruct m3 as [|p|p] eqn:Em3; [left; reflexivity| |lia].
  specialize (HC ltac:(lia)).
  assert (Hov : e1 + k2 <= emax - prec).
  { destruct (Z.le_gt_cases (e1 + k2) (emax - prec)) as [|Hgt]; [assumption|exfalso].
    assert (Hdp : Zdigits2 (Zpos p) = prec) by (unfold fexp, emin in HC; lia).
    pose proof (Zdigits2_bounds (Zpos p) ltac:(lia)) as [Plo _]. rewrite Hdp in Plo.
    assert (H1 : (dy 1 (e1 + k2 + (prec - 1)) <= dy (Zpos p) (e1 + k2))%Q)
      by (apply dy_above_pow2; lia).
    assert (H2 : (dy Mb Eb < dy 1 (Eb + prec))%Q) by (apply dy_below_pow2; lia).
    assert (H3 : (dy 1 (Eb + prec) <= dy 1 (e1 + k2 + (prec - 1)))%Q) by (apply dy_one_mono; lia).
    apply (Qlt_irrefl (dy Mb Eb)).
    eapply Qlt_le_trans; [exact H2|]. eapply Qle_trans; [exact H3|].
    eapply Qle_trans; [exact H1|]. eapply Qle_trans; [exact HB|exact HA]. }
  apply Z.leb_le in Hov. rewrite Hov. right. exists p, (e1 + k2). split; [reflexivity|]. split.
  - unfold bounded, canonical_mantissa. rewrite Hov, andb_true_r. apply Z.eqb_eq. exact HC.
  - eapply Qle_trans; [exact HB|exact HA].
Qed.


Lemma binary_round_le s m e Mb Eb :
  Mb < 2 ^ prec -> emin prec emax <= Eb -> Eb + prec <= emax ->
  (dy (Zpos m) e <= dy Mb Eb)%Q ->
  rounded_within prec emax s Mb Eb (binary_round prec emax s m e).
Proof.
  intros HMb HEb Hfin Hle. unfold binary_round.
  pose proof (shl_align_spec m e (fexp prec emax (Zpos (digits2_pos m) + e))) as Hs.
  destruct (shl_align m e _) as [mz ez]. cbn [fst snd] in Hs. destruct Hs as [He Hmz].
  assert (Hsh : 0 <= e - ez) by lia.
  assert (Hd : Zdigits2 (Zpos mz) = Zpos (digits2_pos m) + (e - ez)).
  { rewrite Hmz. apply (Zdigits2_shift (Zpos m)); lia. }
  apply binary_round_aux_le; try assumption; try lia.
  - rewrite Hd. replace (Zpos (digits2_pos m) + (e - ez) + ez) with (Zpos (digits2_pos m) + e) by lia.
    lia.
  - rewrite Hmz, dy_shift by lia. now replace (ez + (e - ez)) with e by lia.
Qed.

Lemma binary_normalize_le z e Mb Eb :
  Mb < 2 ^ prec -> emin prec emax <= Eb -> Eb + prec <= emax ->
  (dy (Z.abs z) e <= dy Mb Eb)%Q ->
  magnitude_within prec emax Mb Eb (binary_normalize prec emax z e false).
Proof.
  intros HMb HEb Hfin Hle. destruct z as [|p|p]; cbn [binary_normalize].
  - exists false. left. reflexivity.
  - exists false. now apply binary_round_le.
  - exists true. now apply binary_round_le.
Qed.

Lemma bounded_inv m e :
  bounded prec emax m e = true ->
  fexp prec emax (Zpos (digits2_pos m) + e) = e /\ e <= emax - prec /\
  Zpos m < 2 ^ prec /\ emin prec emax <= e.
Proof.
  unfold bounded, canonical_mantissa. rewrite andb_true_iff, Z.eqb_eq, Z.leb_le.
  intros [Hc Hb]. pose proof (digits2_pos_bounds m) as [_ Hhi].
  assert (Hdp : Zpos (digits2_pos m) <= prec) by (unfold fexp, emin in Hc; lia).
  assert (2 ^ Zpos (digits2_pos m) <= 2 ^ prec) by (apply Z.pow_le_mono_r; lia).
  repeat split; try assumption; try lia. unfold fexp in Hc. lia.
Qed.

Lemma SFmul_le sx sy Mx Ex My Ey Mb Eb x y :
  rounded_within prec emax sx Mx Ex x -> rounded_within prec emax sy My Ey y ->
  Mb < 2 ^ prec -> emin prec emax <= Eb -> Eb + prec <= emax ->
  (dy Mx Ex * dy My Ey <= dy Mb Eb)%Q ->
  rounded_within prec emax (xorb sx sy) Mb Eb (SFmul prec emax x y).
Proof.
  intros [->|(mx & ex & -> & Bx & Hx)] [->|(my & ey & -> & By & Hy)] HMb HEb Hfin Hle;
    try (left; reflexivity).
  cbn [SFmul]. destruct (bounded_inv _ _ Bx) as (Cx & _ & _ & Nx).
  destruct (bounded_inv _ _ By) as (Cy & _ & _ & Ny).
  apply binary_round_aux_le; try assumption; try lia.
  - pose proof (Zdigits2_mul (Zpos mx) (Zpos my) ltac:(lia) ltac:(lia)) as Hd.
    change (Zdigits2 (Zpos mx)) with (Zpos (digits2_pos mx)) in Hd.
    change (Zdigits2 (Zpos my)) with (Zpos (digits2_pos my)) in Hd.
    change (Zpos (mx * my)) with (Zpos mx * Zpos my).
    unfold fexp, emin in *. lia.
  - change (Zpos (mx * my)) with (Zpos mx * Zpos my). rewrite dy_mul.
    eapply Qle_trans; [|exact Hle].
    apply Qmult_le_compat_nonneg; (split; [apply dy_nonneg; lia|assumption]).
Qed.

(** [x - y] for [0 <= x <= 2 y] (or both negated): the difference is at
    most [y] in magnitude. *)
Lemma SFsub_le s mx ex my ey :
  bounded prec emax my ey = true ->
  (dy (Zpos mx) ex <= dy (2 * Zpos my) ey)%Q ->
  magnitude_within prec emax (Zpos my) ey
    (SFsub prec emax (S754_finite s mx ex) (S754_finite s my ey)).
Proof.
  intros By Hle. cbn [SFsub]. destruct (bounded_inv _ _ By) as (_ & Hov & Hmy & Ny).
  pose proof (shl_align_spec mx ex (Z.min ex ey)) as [Ex Mx].
  pose proof (shl_align_spec my ey (Z.min ex ey)) as [Ey My].
  cbn zeta in *. set (X := Zpos (shl_align mx ex (Z.min ex ey)).1) in *.
  set (Y := Zpos (shl_align my ey (Z.min ex ey)).1) in *.
  rewrite Ex in Mx. rewrite Ey in My.
  replace (Z.min ex (Z.min ex ey)) with (Z.min ex ey) in Mx by lia.
  replace (Z.min ey (Z.min ex ey)) with (Z.min ex ey) in My by lia.
  set (ez := Z.min ex ey) in *.
  assert (HX : (dy X ez == dy (Zpos mx) ex)%Q).
  { rewrite Mx, dy_shift by lia. now replace (ez + (ex - ez)) with ex by lia. }
  assert (HY : (dy Y ez == dy (Zpos my) ey)%Q).
  { rewrite My, dy_shift by lia. now replace (ez + (ey - ez)) with ey by lia. }
  assert (HY2 : (dy (2 * Y) ez == dy (2 * Zpos my) ey)%Q).
  { rewrite My, Z.mul_assoc, dy_shift by lia. now replace (ez + (ey - ez)) with ey by lia. }
  rewrite <- HX, <- HY2 in Hle. apply dy_le in Hle.
  apply binary_normalize_le; try lia.
  rewrite <- HY. apply dy_le. destruct s; cbn [cond_Zopp]; lia.
Qed.

End Rounding.

(** *** The seeds of [calcSceneParams] in binary32/binary64 *)

Lemma dy_concrete_le m e M E :
  Qle_bool (dy m e) (dy M E) = true -> (dy m e <= dy M E)%Q.
Proof. apply Qle_bool_iff. Qed.

Lemma rounded_within_ieee prec emax s Mb Eb b r :
  rounded_within prec emax s Mb Eb r -> (0 <= b)%Q -> (dy Mb Eb <= b)%Q ->
  ieee_within b r = true.
Proof.
  intros [->|(m & e & -> & _ & Hle)] Hb HB; unfold ieee_within; cbn [ieee_finite ieee_value andb].
  - rewrite andb_true_iff, !Qle_bool_iff. split; [|assumption].
    apply (Qopp_le_compat 0 b) in Hb. exact Hb.
  - fold (dy (Zpos m) e). pose proof (dy_nonneg (Zpos m) e ltac:(lia)) as Hpos.
    assert (Hmb : (dy (Zpos m) e <= b)%Q) by (eapply Qle_trans; eassumption).
    rewrite andb_true_iff, !Qle_bool_iff. destruct s; split; lra.
Qed.

Lemma ieee_of_int_le x k :
  0 <= x < 2 ^ k -> 0 <= k -> k + 53 <= 1024 ->
  rounded_within 53 1024 false 1 k (ieee_of_int double x).
Proof.
  intros [Hlo Hhi] Hk Hfin. unfold ieee_of_int. cbn [prec_of emax_of].
  destruct x as [|p|p]; [left; reflexivity| |lia]. cbn [binary_normalize].
  apply binary_round_le; try lia; try reflexivity.
  - unfold emin. lia.
  - replace k with (0 + k) by lia. rewrite <- dy_pow2 by lia. apply dy_le. lia.
Qed.

Lemma ieee_rand48_value x :
  0 <= x < 2 ^ 48 -> rounded_within 53 1024 false 1 0 (rand48_value (T:=spec_float) x).
Proof.
  intros Hx. unfold rand48_value. cbn [fmul of_int lit ieee_arith prec_of emax_of].
  change false with (xorb false false).
  apply (SFmul_le 53 1024 ltac:(lia) ltac:(lia) false false 1 48 1 (-48)).
  - apply ieee_of_int_le; [assumption|lia|lia].
  - right. eexists _, _. split; [vm_compute; reflexivity|]. split; [reflexivity|].
    apply dy_concrete_le. reflexivity.
  - reflexivity.
  - unfold emin. lia.
  - lia.
  - apply Qle_bool_iff. reflexivity.
Qed.

(** [d - 0.5] for a draw [d]. *)
Lemma ieee_centred d :
  rounded_within 53 1024 false 1 0 d ->
  magnitude_within 53 1024 4503599627370496 (-53)
    (fsub double d (lit double (1 # 2))).
Proof.
  intros Hd. cbn [fsub lit ieee_arith prec_of emax_of].
  replace (ieee_lit double (1 # 2)) with (S754_finite false 4503599627370496 (-53))
    by (vm_compute; reflexivity).
  destruct Hd as [->|(m & e & -> & _ & Hle)].
  - exists true. right. eexists _, _. split; [reflexivity|]. split; [reflexivity|].
    apply Qle_refl.
  - apply SFsub_le; [lia|lia|reflexivity|].
    eapply Qle_trans; [exact Hle|]. apply Qle_bool_iff. reflexivity.
Qed.

Lemma ieee_scaled t c Mc Ec Mb Eb b :
  magnitude_within 53 1024 4503599627370496 (-53) t ->
  rounded_within 53 1024 false Mc Ec c ->
  Qle_bool (dy 4503599627370496 (-53) * dy Mc Ec) (dy Mb Eb) = true ->
  Mb < 2 ^ 24 -> -149 <= Eb -> Eb + 24 <= 128 ->
  Qle_bool 0 b = true -> Qle_bool (dy Mb Eb) b = true ->
  ieee_within b (cast single (fmul double t c)) = true.
Proof.
  intros [s Ht] Hc Hprod HMb HEb Hfin Hb HB.
  apply Qle_bool_iff in Hprod, Hb, HB.
  assert (Hu : rounded_within 53 1024 (xorb s false) Mb Eb (fmul double t c)).
  { cbn [fmul ieee_arith prec_of emax_of].
    apply (SFmul_le 53 1024 ltac:(lia) ltac:(lia) s false 4503599627370496 (-53) Mc Ec);
      try assumption; [|unfold emin; lia|lia].
    assert (2 ^ 24 <= 2 ^ 53) by (apply Z.pow_le_mono_r; lia). lia. }
  apply (rounded_within_ieee 24 128 (xorb s false) Mb Eb); try assumption.
  cbn [cast ieee_arith]. destruct Hu as [->|(m & e & -> & _ & Hle)].
  - left. reflexivity.
  - cbn [ieee_cast prec_of emax_of]. apply binary_round_le; try lia; try assumption.
Qed.

Lemma ieee_seed_offset x :
  0 <= x < 2 ^ 48 -> ieee_within 1 (seed_offset (T:=spec_float) x) = true.
Proof.
  intros Hx. unfold seed_offset.
  apply (ieee_scaled _ _ 1 1 1 0); try reflexivity; try lia.
  - apply ieee_centred, ieee_rand48_value, Hx.
  - right. eexists _, _. split; [vm_compute; reflexivity|].
    split; [reflexivity|apply Qle_bool_iff; reflexivity].
Qed.

Lemma ieee_seed_speed x :
  0 <= x < 2 ^ 48 -> ieee_within 5 (seed_speed (T:=spec_float) x) = true.
Proof.
  intros Hx. unfold seed_speed.
  apply (ieee_scaled _ _ 5 1 5 0); try reflexivity; try lia.
  - apply ieee_centred, ieee_rand48_value, Hx.
  - right. eexists _, _. split; [vm_compute; reflexivity|].
    split; [reflexivity|apply Qle_bool_iff; reflexivity].
Qed.

Section Ieee.
Variable hdr : Header (T:=spec_float).

Lemma rand48_next_range s : 0 <= rand48_next s < 2 ^ 48.
Proof. unfold rand48_next. apply Z.mod_pos_bound. reflexivity. Qed.

Lemma ieee_calcSceneParams_body_seeded i a w :
  ieee_seeded a -> ieee_seeded (calcSceneParams_body i a w).1.
Proof.
  intros (Hr & Hlo & Hvx & Hvy). unfold calcSceneParams_body.
  rewrite !bind_run. unfold mret, M_ret. cbn [fst].
  unfold ieee_seeded. cbn [offsetRatio localOffset mVx mVy with_offsetBuf with_mVy with_mVx
                           with_localOffset].
  split; [exact Hr|]. rewrite Hr. unfold drand48. cbn [fst snd rand48].
  split; [|split]; apply Forall_insert; trivial.
  - apply ieee_seed_offset, rand48_next_range.
  - apply ieee_seed_speed, rand48_next_range.
  - apply ieee_seed_speed, rand48_next_range.
Qed.

Lemma ieee_fresh_arrays_seeded r : ieee_seeded (fresh_arrays hdr r).
Proof.
  unfold ieee_seeded, fresh_arrays. cbn. split; [reflexivity|].
  repeat split; apply Forall_replicate; reflexivity.
Qed.

Lemma ieee_resize_seeded w h r wld : ieee_seeded (Renderer_resize hdr w h r wld).1.
Proof.
  rewrite resize_fst. cbn zeta.
  match goal with |- ieee_seeded (with_mLastFrameNs 0 (for_loop ?f ?i ?b ?s _ ?r0 ?w0).1) =>
    destruct (angles_same_motion hdr r0 f i b s w0) as (H1 & H2 & H3 & _ & _ & H6 & _) end.
  unfold ieee_seeded. cbn [with_mLastFrameNs offsetRatio localOffset mVx mVy].
  rewrite H1, H2, H3, H6, calcSceneParams_fst. cbn zeta.
  cbn [with_mScale offsetRatio localOffset mVx mVy].
  apply (for_loop_preserves ieee_seeded).
  - intros j a w'. apply ieee_calcSceneParams_body_seeded.
  - apply ieee_fresh_arrays_seeded.
Qed.

Lemma ieee_within_range b x :
  ieee_within b x = true ->
  ieee_finite x = true /\ (- b <= ieee_value x <= b)%Q.
Proof.
  unfold ieee_within. rewrite !andb_true_iff, !Qle_bool_iff. tauto.
Qed.


End Ieee.

(** ** JNI boundary *)

Lemma prefix_iff (n s : string) :
  String.prefix n s = true <-> exists post, s = (n ++ post)%string.
Proof.
  revert s. induction n as [|c n IH]; intros s.
  - split; [intros _; now exists s|intros _; now destruct s].
  - destruct s as [|d s]; cbn.
    + split; [discriminate|intros [post Hp]; discriminate].
    + destruct (Ascii.ascii_dec c d) as [->|Hne].
      * rewrite IH. split; intros [post Hp]; exists post; [now rewrite Hp|now injection Hp].
      * split; [discriminate|]. intros [post Hp]. injection Hp as Hc _. congruence.
Qed.

Lemma strstr_iff (s n : string) : strstr s n = true <-> contains s n.
Proof.
  unfold contains. induction s as [|c s IH]; cbn [strstr].
  - rewrite orb_false_r, prefix_iff. split.
    + intros [post Hp]. now exists ""%string, post.
    + intros (pre & post & Hp). destruct pre; cbn in Hp; [now exists post|discriminate].
  - rewrite orb_true_iff, prefix_iff, IH. split.
    + intros [[post Hp]|(pre & post & Hp)].
      * now exists ""%string, post.
      * exists (String c pre), post. cbn. now rewrite Hp.
    + intros (pre & post & Hp). destruct pre as [|d pre]; cbn in Hp.
      * left. now exists post.
      * right. injection Hp as _ Hs. now exists pre, post.
Qed.

Section Boundary.
Context {T : Type} `{Arith T}.
Variable hdr : Header (T:=T).
Variable env : Env (T:=T).

(** C8.  While [g_renderer] is null, the boundary calls [resize] and [step]
    return with the process state as it was: no field changed, nothing
    called, nothing drawn. *)
Theorem uninitialized_calls_do_nothing w width height :
  g_renderer w = None ->
  Java_com_android_gles3jni_GLES3JNILib_resize hdr width height w = (tt, w) /\
  Java_com_android_gles3jni_GLES3JNILib_step hdr env w = (tt, w).
Proof.
  intros Hg.
  unfold Java_com_android_gles3jni_GLES3JNILib_resize,
         Java_com_android_gles3jni_GLES3JNILib_step.
  rewrite !bind_run. unfold get_g_renderer. cbn [fst snd]. rewrite Hg.
  split; reflexivity.
Qed.

Lemma set_g_renderer_run g (w : World (T:=T)) :
  set_g_renderer g w = (tt, {| trace := trace w; rand48 := rand48 w; g_renderer := g |}).
Proof. reflexivity. Qed.

(** C9.  [init] first releases the renderer it finds, prints four driver
    strings, then reads the version string: if it contains [OpenGL ES 3.]
    the ES3 renderer is created and stored, else if it contains
    [OpenGL ES 2.] the ES2 renderer, else an error is logged and
    [g_renderer] is null.  A creation that fails stores null. *)
Theorem init_selects_backend w :
  let w' := (Java_com_android_gles3jni_GLES3JNILib_init hdr env w).2 in
  exists prints version evs,
    trace w' = trace w ++ freed w ++ prints ++
               Called (GlGetString GL_VERSION) (RStr version) :: evs /\
    Forall is_print prints /\
    ((contains version "OpenGL ES 3." /\
      exists ok, evs = [Called (CreateRenderer ES3) (RInt ok)] /\
        g_renderer w' = if ok =? 0 then None else Some (Renderer_new hdr ES3)) \/
     (~ contains version "OpenGL ES 3." /\ contains version "OpenGL ES 2." /\
      exists ok, evs = [Called (CreateRenderer ES2) (RInt ok)] /\
        g_renderer w' = if ok =? 0 then None else Some (Renderer_new hdr ES2)) \/
     (~ contains version "OpenGL ES 3." /\ ~ contains version "OpenGL ES 2." /\
      evs = [Logged ERROR "Unsupported OpenGL ES version" []] /\
      g_renderer w' = None)).
Proof.
  cbn zeta.
  unfold Java_com_android_gles3jni_GLES3JNILib_init, printGlString,
         createES3Renderer, createES2Renderer, createRenderer, gl3stubInit, freed.
  rewrite bind_run. unfold get_g_renderer. cbn [fst snd].
  rewrite bind_run.
  destruct (g_renderer w) as [r|] eqn:Hg.
  all: repeat first [mstep | rewrite set_g_renderer_run | progress cbn [trace rand48 g_renderer]].
  all: rewrite ?andb_true_r in *.
  all: repeat match goal with
       | E : strstr _ _ = true |- _ => apply strstr_iff in E
       | E : strstr _ _ = false |- _ => apply not_true_iff_false in E; rewrite strstr_iff in E
       end.
  all: show_trace.
  all: match goal with
       | |- context [[?p1; ?p2; ?p3; ?p4; ?p5; ?p6; ?p7; ?p8;
                      Called (GlGetString GL_VERSION) (RStr ?v); ?e]] =>
           exists [p1; p2; p3; p4; p5; p6; p7; p8], v, [e]
       end.
  all: split; [cbn [trace app]; rewrite <- ?app_assoc; reflexivity|].
  all: split; [repeat (constructor; [exact I|]); constructor|].
  all: first
       [ left; split; [assumption|];
         eexists; split; [reflexivity|];
         repeat match goal with E : (_ =? _) = _ |- _ => rewrite E end; reflexivity
       | right; left; split; [assumption|]; split; [assumption|];
         eexists; split; [reflexivity|];
         repeat match goal with E : (_ =? _) = _ |- _ => rewrite E end; reflexivity
       | right; right; repeat split; assumption || reflexivity ].
Qed.
End Boundary.

(** ** One instance through a long frame *)

Section FirstInstance.
Context {T : Type} `{Arith T}.
Variable hdr : Header (T:=T).

Lemma calcSceneParams_body_first s j a w :
  first_seeded s j a -> first_seeded s (j + 1) (calcSceneParams_body j a w).1.
Proof.
  intros (Hj & H1 & H2 & H3). unfold calcSceneParams_body, first_seeded.
  rewrite !bind_run. unfold mret, M_ret. cbn [fst].
  cbn [localOffset mVx mVy with_offsetBuf with_mVy with_mVx with_localOffset].
  rewrite !list_lookup_insert_ne by lia. repeat split; trivial. lia.
Qed.

Lemma for_loop_S {A} fuel i bound stride (body : nat -> A -> M (T:=T) A) a :
  for_loop (S fuel) i bound stride body a =
  if (i <? bound)%nat
  then body i a ≫= for_loop fuel (i + stride) bound stride body
  else mret a.
Proof. reflexivity. Qed.

Lemma resize_first_instance w h r wld :
  (1 <= MAX_INSTANCES_ITEM hdr)%nat ->
  let s := rand48 wld in
  let r' := (Renderer_resize hdr w h r wld).1 in
  localOffset r' !! 0%nat = Some (seed_offset (rand48_next s)) /\
  mVx r' !! 0%nat = Some (seed_speed (rand48_next (rand48_next s))) /\
  mVy r' !! 0%nat = Some (seed_speed (rand48_next (rand48_next (rand48_next s)))).
Proof.
  intros HN. cbn zeta. rewrite resize_fst. cbn zeta.
  match goal with |- context [with_mLastFrameNs 0 (for_loop ?f ?i ?b ?st _ ?r0 ?w0).1] =>
    destruct (angles_same_motion hdr r0 f i b st w0) as (H1 & H2 & H3 & _) end.
  cbn [with_mLastFrameNs localOffset mVx mVy].
  rewrite H1, H2, H3, calcSceneParams_fst. cbn zeta.
  cbn [with_mScale localOffset mVx mVy].
  destruct (MAX_INSTANCES_ITEM hdr) as [|n] eqn:En; [lia|].
  change (S n * 2)%nat with (S (S (n * 2))).
  rewrite for_loop_S. change (0 <? S (S (n * 2)))%nat with true. cbn iota.
  rewrite bind_run.
  match goal with |- context [(for_loop ?f ?i ?b ?st ?body ?r0 ?w0).1] =>
    destruct (for_loop_indexed (first_seeded (rand48 wld)) body b st ltac:(lia)
                (fun j a w _ Hp => calcSceneParams_body_first (rand48 wld) j a w Hp)
                f i r0 w0 ltac:(lia)) as (j & _ & _ & G1 & G2 & G3)
  end.
  - unfold calcSceneParams_body, first_seeded.
    rewrite !bind_run. unfold mret, M_ret. cbn [fst].
    cbn [localOffset mVx mVy with_offsetBuf with_mVy with_mVx with_localOffset].
    unfold fresh_arrays. rewrite En. cbn [localOffset mVx mVy offsetRatio].
    rewrite !list_lookup_insert_eq by (rewrite length_replicate; lia).
    split; [lia|]. repeat split; reflexivity.
  - auto.
Qed.

Lemma after_long_frame_reached : after_resize hdr (after_long_frame hdr).
Proof. unfold after_long_frame. cbn zeta. do 2 apply ar_step. apply ar_resize. Qed.

Lemma after_long_frame_offset :
  (1 <= MAX_INSTANCES_ITEM hdr)%nat ->
  let x1 := rand48_next rand48_init in
  let x2 := rand48_next x1 in
  localOffset (after_long_frame hdr) !! 0%nat =
  Some (advance (seed_offset x1) (seed_speed x2) (frame_dt 11000000000 1000000000)).1.
Proof.
  intros HN. cbn zeta. unfold after_long_frame. cbn zeta.
  set (r1 := (Renderer_resize hdr 1080 1920 (Renderer_new hdr ES3) empty_world).1).
  destruct (first_step_unchanged hdr (env_at 1 "") 1080 1920 (Renderer_new hdr ES3)
              empty_world empty_world) as (Hlo & Hvx & _ & _ & Hclock & _).
  fold r1 in Hlo, Hvx, Hclock.
  set (r2 := (Renderer_step hdr (env_at 1 "") r1 empty_world).1) in *.
  assert (Hr2 : after_resize hdr r2) by (apply ar_step, ar_resize).
  assert (Hpos : 0 < mLastFrameNs r2) by (rewrite Hclock; reflexivity).
  destruct (step_instance_advanced hdr (env_at 11 "") r2 empty_world 0 Hr2 Hpos HN)
    as (Hx & _).
  change (2 * 0)%nat with 0%nat in Hx.
  destruct (resize_first_instance 1080 1920 (Renderer_new hdr ES3) empty_world HN)
    as (S1 & S2 & _).
  fold r1 in S1, S2. cbn [rand48 empty_world] in S1, S2.
  assert (Ho : slot (localOffset r2) 0 = seed_offset (rand48_next rand48_init))
    by (unfold slot; rewrite Hlo, S1; reflexivity).
  assert (Hv : slot (mVx r2) 0 = seed_speed (rand48_next (rand48_next rand48_init)))
    by (unfold slot; rewrite Hvx, S2; reflexivity).
  rewrite Ho, Hv, Hclock in Hx.
  set (r3 := (Renderer_step hdr (env_at 11 "") r2 empty_world).1) in *.
  assert (Hr3 : allocated hdr r3) by (apply after_resize_allocated, ar_step, Hr2).
  destruct Hr3 as (L & _).
  destruct (lookup_lt_is_Some_2 (localOffset r3) 0 ltac:(lia)) as [o Hlook].
  rewrite Hlook. f_equal.
  apply (f_equal fst) in Hx. cbn [fst] in Hx. unfold slot in Hx. rewrite Hlook in Hx.
  exact Hx.
Qed.
End FirstInstance.

(** C1, as stated, fails.  Whatever the number of instances, a frame of
    ten seconds takes the first offset from about -0.21 to about -3.61: in
    binary32/binary64 arithmetic it leaves [-3, 3], and in exact arithmetic
    it leaves [-1-ε, 1+ε] for every ε up to 2. *)
Lemma offsets_escape_after_long_frame :
  (~ exists hdr : Header (T:=spec_float),
       (1 <= MAX_INSTANCES_ITEM hdr)%nat /\ offsets_stay_within hdr (lit double 3)) /\
  (~ exists (hdr : Header (T:=Q)) (eps : Q),
       (1 <= MAX_INSTANCES_ITEM hdr)%nat /\ (eps <= 2)%Q /\
       offsets_stay_within hdr (1 + eps)%Q).
Proof.
  split.
  - intros (hdr & HN & Hclaim).
    specialize (Hclaim _ (after_long_frame_reached hdr)).
    pose proof (after_long_frame_offset hdr HN) as Hoff. cbn zeta in Hoff.
    pose proof (Forall_lookup_1 _ _ _ _ Hclaim Hoff) as [_ Hlow].
    vm_compute in Hlow. discriminate Hlow.
  - intros (hdr & eps & HN & Heps & Hclaim).
    specialize (Hclaim _ (after_long_frame_reached hdr)).
    pose proof (after_long_frame_offset hdr HN) as Hoff. cbn zeta in Hoff.
    pose proof (Forall_lookup_1 _ _ _ _ Hclaim Hoff) as [_ Hlow].
    cbn [flt fneg exact_arith] in Hlow. apply Qltb_ge in Hlow.
    revert Hlow.
    match goal with |- (_ <= ?x)%Q -> _ =>
      let y := eval vm_compute in x in change x with y end.
    intros Hlow. lra.
Qed.


(** ** Scale *)

(** C5, as stated, fails in single precision.  For a 1920 x 1080 surface
    [(0.1f * h) / w] and [0.1f * (h / w)] differ in the last place, and the
    number that [scale.y] holds is not 0.1 * 1080 / 1920 either. *)
Lemma scale_not_tenth_of_ratio :
  (~ exists hdr : Header (T:=spec_float), scale_is_tenth_of_ratio hdr) /\
  (~ exists hdr : Header (T:=spec_float), scale_value_is_tenth_of_ratio hdr).
Proof.
  split.
  - intros [hdr Hclaim].
    specialize (Hclaim 1920 1080 (Renderer_new hdr ES3) empty_world ltac:(lia) ltac:(lia)).
    rewrite resize_scale in Hclaim. vm_compute in Hclaim. discriminate Hclaim.
  - intros [hdr Hclaim].
    specialize (Hclaim 1920 1080 (Renderer_new hdr ES3) empty_world ltac:(lia) ltac:(lia)).
    rewrite resize_scale in Hclaim. vm_compute in Hclaim. discriminate Hclaim.
Qed.

(** C5 (amended).  After [resize(w, h)], in any arithmetic, [scale.x] is
    the literal [0.1f] and [scale.y] is [(0.1f * h) / w] evaluated in single
    precision on the sizes read as unsigned 32-bit numbers; in exact
    arithmetic, for [0 < w] and [0 <= h], that is [0.1 * (h / w)]. *)
Theorem resize_scale_value :
  (forall (T : Type) (A : Arith T) (hdr : Header (T:=T)) w h r wld,
      mScale (Renderer_resize hdr w h r wld).1 =
      (lit single (1 # 10),
       fdiv single (fmul single (lit single (1 # 10)) (of_int single (h mod 2 ^ 32)))
                   (of_int single (w mod 2 ^ 32)))) /\
  (forall (hdr : Header (T:=Q)) w h r wld,
      0 < w < 2 ^ 31 -> 0 <= h < 2 ^ 31 ->
      (mScale (Renderer_resize hdr w h r wld).1).1 = (1 # 10)%Q /\
      ((mScale (Renderer_resize hdr w h r wld).1).2 ==
       (1 # 10) * (inject_Z h / inject_Z w))%Q).
Proof.
  split.
  - intros. apply resize_scale.
  - intros hdr w h r wld Hw Hh. rewrite resize_scale. cbn [fst snd].
    split; [reflexivity|].
    rewrite !Z.mod_small by lia. cbn [fdiv fmul lit of_int exact_arith].
    unfold Qdiv. ring.
Qed.

Lemma resize_scale_witness :
  ((mScale (Renderer_resize (header_exact 1) 1920 1080
              (Renderer_new (header_exact 1) ES3) empty_world).1).2 ==
   (1 # 10) * (inject_Z 1080 / inject_Z 1920))%Q.
Proof.
  apply (proj2 resize_scale_value (header_exact 1) 1920 1080
           (Renderer_new (header_exact 1) ES3) empty_world); lia.
Defined.

(** ** Shader failure without a log *)



(** ** Concrete runs *)

Lemma uninitialized_calls_witness :
  Java_com_android_gles3jni_GLES3JNILib_resize (header_exact 1) 1080 1920 empty_world
    = (tt, empty_world) /\
  Java_com_android_gles3jni_GLES3JNILib_step (header_exact 1) (env_at 1 "") empty_world
    = (tt, empty_world).
Proof.
  apply (uninitialized_calls_do_nothing (header_exact 1) (env_at 1 "") empty_world
           1080 1920 eq_refl).
Defined.

Lemma stepped_once_reached : after_resize (header_exact 1) stepped_once.
Proof. apply ar_step, ar_resize. Qed.


(** ** Sample runs in binary32/binary64 arithmetic *)

(** The seeds of 64 instances lie in [-1, 1] and [-5, 5]. *)
Example ieee_seeds_in_range :
  forallb (ieee_within 1) (localOffset (ieee_run 64 0 0)) &&
  forallb (ieee_within 5) (mVx (ieee_run 64 0 0)) &&
  forallb (ieee_within 5) (mVy (ieee_run 64 0 0)) = true.
Proof. vm_compute. reflexivity. Qed.

(** 300 frames at 60 frames per second keep 16 instances in [-1, 1]. *)
Example ieee_offsets_at_60fps :
  forallb (ieee_within 1) (localOffset (ieee_run 16 16666667 300)) = true.
Proof. vm_compute. reflexivity. Qed.

(** One frame of ten seconds does not: the first offset ends below -3. *)
Example ieee_offsets_after_long_frame :
  forallb (ieee_within 3) (localOffset (ieee_run 1 10000000000 2)) = false.
Proof. vm_compute. reflexivity. Qed.

(* ===================================================================== *)
(** * Further properties                                                  *)
(* ===================================================================== *)

(** ** Shader and program utilities: failures and buffers *)

Section MoreShaderProps.
Context {T : Type} `{Arith T}.
Variable env : Env (T:=T).

Lemma live_bufs_app (a b : list (event (T:=T))) l :
  live_bufs (a ++ b) l = live_bufs b (live_bufs a l).
Proof.
  revert l. induction a as [|e a IH]; intros l; [reflexivity|].
  destruct e as [c r|p f args]; simpl; [|apply IH].
  destruct c; try apply IH. destruct r; apply IH.
Qed.

Lemma createShader_bufs ty src w :
  exists evs, trace (createShader env ty src w).2 = trace w ++ evs /\
    (forall l, live_bufs evs l = l) /\
    existsb is_program_event evs = false.
Proof.
  unfold createShader. run_monad; show_trace;
    (eexists; split; [reflexivity|]); (split; [intros l|]);
    cbn [live_bufs];
    repeat match goal with
           | E : negb _ = true |- _ => apply negb_true_iff in E
           | E : negb _ = false |- _ => apply negb_false_iff in E
           end;
    repeat match goal with E : (_ =? _) = _ |- _ => rewrite E end;
    rewrite ?remove_one_head; reflexivity.
Qed.

(** X1.  When [glCreateShader] returns 0, [createShader] returns 0 after one
    [glGetError] query and nothing else: no source is set, nothing is
    compiled or deleted, and a line is logged exactly when that query
    reports an error. *)
Theorem createShader_without_object ty src w :
  env_int env (trace w) (GlCreateShader ty) = 0 ->
  let err := env_int env (trace w ++ [Called (GlCreateShader ty) (RInt 0)]) GlGetError in
  (createShader env ty src w).1 = 0 /\
  trace (createShader env ty src w).2 =
    trace w ++ Called (GlCreateShader ty) (RInt 0) :: Called GlGetError (RInt err) ::
      (if err =? 0 then []
       else [Logged ERROR "GL error after %s(): 0x%08x\n" [AStr "glCreateShader"; AInt err]]).
Proof.
  intros H0. cbn zeta. unfold createShader. rewrite bind_run, call_int_run. cbn [fst snd].
  rewrite H0. change (0 =? 0) with true. cbn iota.
  unfold checkGlError, ALOGE, GL_NO_ERROR. rewrite !bind_run, call_int_run. cbn [fst snd].
  change (trace (record (Called (GlCreateShader ty) (RInt 0)) w))
    with (trace w ++ [Called (GlCreateShader ty) (RInt 0)]).
  destruct (env_int env _ GlGetError =? 0) eqn:E; cbn [negb].
  - split; [reflexivity|]. cbn. rewrite <- app_assoc. reflexivity.
  - rewrite !bind_run, emit_run. cbn [fst snd]. split; [reflexivity|].
    cbn. rewrite <- !app_assoc. reflexivity.
Qed.

Lemma not_program_event (evs : list (event (T:=T))) e :
  existsb is_program_event evs = false -> In e evs -> is_program_event e = false.
Proof.
  intros Hex Hin. destruct (is_program_event e) eqn:He; [|reflexivity].
  assert (existsb is_program_event evs = true) by (apply existsb_exists; eauto). congruence.
Qed.

Lemma createProgram_body_link vtx fragSrc w :
  let res := createProgram_body env vtx fragSrc w in
  exists evs, trace res.2 = trace w ++ evs /\
    (forall l, live_bufs evs l = l) /\
    forall program st, link_status evs program st ->
      if st =? 0 then
        res.1.2 = 0 /\ In (Logged ERROR "Could not link program" []) evs /\
        In (Called (GlDeleteProgram program) RVoid) evs
      else res.1.2 = program /\ program <> 0.
Proof.
  unfold createProgram_body, link_status. cbn zeta.
  destruct (vtx =? 0) eqn:Ev.
  - rewrite ret_run. cbn [fst snd]. exists []. rewrite app_nil_r.
    split; [reflexivity|]. split; [reflexivity|]. intros ? ? [].
  - rewrite bind_run.
    destruct (createShader_bufs GL_FRAGMENT_SHADER fragSrc w) as (evs1 & Htr1 & Hb1 & Hp1).
    destruct (createShader env GL_FRAGMENT_SHADER fragSrc w) as [frag w1].
    cbn [fst snd] in *.
    run_monad; rewrite ?trace_record, Htr1; rewrite <- ?app_assoc; cbn [app];
      (eexists; split; [reflexivity|]);
      repeat match goal with
           | E : negb _ = true |- _ => apply negb_true_iff in E
           | E : negb _ = false |- _ => apply negb_false_iff in E
           end;
      (split; [intros l; rewrite ?live_bufs_app, Hb1; cbn [live_bufs];
               repeat match goal with E : (_ =? _) = _ |- _ => rewrite E end;
               rewrite ?remove_one_head; reflexivity|]);
      intros program st Hin; rewrite ?app_nil_r in Hin;
      (apply in_app_or in Hin || idtac);
      try (destruct Hin as [Hin|Hin];
           [apply (not_program_event _ _ Hp1) in Hin; discriminate Hin|]);
      try (apply (not_program_event _ _ Hp1) in Hin; discriminate Hin);
      in_cases Hin; injection Hin as <- <-;
      repeat match goal with E : (_ =? _) = _ |- _ => rewrite E end;
      repeat match goal with
           | E : (_ =? 0) = true |- _ => apply Z.eqb_eq in E
           | E : (_ =? 0) = false |- _ => apply Z.eqb_neq in E
           end;
      (split; [reflexivity|]); try assumption;
      split; apply in_or_app; right; in_list.
Qed.

(** X2.  Whatever link status the driver reports for a program: if it is
    0, [createProgram] returns 0, the line [Could not link program] is in the
    error log (whether or not the driver keeps an info log) and the program
    is deleted; otherwise [createProgram] returns that program, which is not
    0. *)
Theorem createProgram_link_result vtxSrc fragSrc w evs program st :
  trace (createProgram env vtxSrc fragSrc w).2 = trace w ++ evs ->
  link_status evs program st ->
  let h := (createProgram env vtxSrc fragSrc w).1 in
  if st =? 0 then
    h = 0 /\ In (Logged ERROR "Could not link program" []) evs /\
    In (Called (GlDeleteProgram program) RVoid) evs
  else h = program /\ h <> 0.
Proof.
  cbn zeta. unfold createProgram. rewrite bind_run.
  destruct (createShader_bufs GL_VERTEX_SHADER vtxSrc w) as (evs1 & Htr1 & _ & Hp1).
  destruct (createShader env GL_VERTEX_SHADER vtxSrc w) as [vtx w1].
  cbn [fst snd] in *. rewrite bind_run.
  destruct (createProgram_body_link vtx fragSrc w1) as (evs2 & Htr2 & _ & Hl).
  destruct (createProgram_body env vtx fragSrc w1) as [[frag prog] w2].
  cbn [fst snd] in *. unfold call_void. rewrite !bind_run, !emit_run, ret_run. cbn [fst snd].
  rewrite !trace_record, Htr2, Htr1. rewrite <- !app_assoc. cbn [app].
  intros Htr Hst. apply app_inv_head in Htr. subst evs. unfold link_status in Hst.
  apply in_app_or in Hst. destruct Hst as [Hst|Hst].
  { apply (not_program_event _ _ Hp1) in Hst. discriminate Hst. }
  apply in_app_or in Hst. destruct Hst as [Hst|Hst]; [|in_cases Hst].
  specialize (Hl program st Hst). destruct (st =? 0).
  - destruct Hl as (Hz & Hlog & Hdel). split; [exact Hz|].
    split; apply in_or_app; right; apply in_or_app; left; assumption.
  - destruct Hl as [-> Hne]. split; [reflexivity|exact Hne].
Qed.

(** X3.  When the vertex shader fails, [createProgram] returns 0 without
    creating the fragment shader or a program; all it still does is call
    [glDeleteShader(0)] twice. *)
Theorem createProgram_vertex_failure vtxSrc fragSrc w :
  let vtx := createShader env GL_VERTEX_SHADER vtxSrc w in
  vtx.1 = 0 ->
  (createProgram env vtxSrc fragSrc w).1 = 0 /\
  trace (createProgram env vtxSrc fragSrc w).2 =
    trace vtx.2 ++ [Called (GlDeleteShader 0) RVoid; Called (GlDeleteShader 0) RVoid].
Proof.
  cbn zeta. intros Hv. unfold createProgram. rewrite bind_run.
  destruct (createShader env GL_VERTEX_SHADER vtxSrc w) as [vtx w1].
  cbn [fst snd] in *. subst vtx. rewrite bind_run. unfold createProgram_body.
  change (0 =? 0) with true. cbn iota. rewrite ret_run. cbn [fst snd].
  unfold call_void. rewrite !bind_run, !emit_run. cbn [fst snd].
  split; [reflexivity|]. cbn. rewrite <- app_assoc. reflexivity.
Qed.

(** X4.  Every info-log buffer that [createProgram], and the two
    [createShader] calls in it, obtain from [malloc] is freed before
    [createProgram] returns. *)
Theorem createProgram_frees_buffers vtxSrc fragSrc w :
  exists evs, trace (createProgram env vtxSrc fragSrc w).2 = trace w ++ evs /\
    live_bufs evs [] = [].
Proof.
  unfold createProgram. rewrite bind_run.
  destruct (createShader_bufs GL_VERTEX_SHADER vtxSrc w) as (evs1 & Htr1 & Hb1 & _).
  destruct (createShader env GL_VERTEX_SHADER vtxSrc w) as [vtx w1].
  cbn [fst snd] in *. rewrite bind_run.
  destruct (createProgram_body_link vtx fragSrc w1) as (evs2 & Htr2 & Hb2 & _).
  destruct (createProgram_body env vtx fragSrc w1) as [[frag prog] w2].
  cbn [fst snd] in *. unfold call_void. rewrite !bind_run, !emit_run, ret_run. cbn [fst snd].
  rewrite !trace_record, Htr2, Htr1. rewrite <- !app_assoc. cbn [app].
  eexists. split; [reflexivity|]. rewrite !live_bufs_app, Hb1, Hb2. reflexivity.
Qed.
End MoreShaderProps.

(** ** Loops: the world *)

Section MoreLoopProps.
Context {T : Type}.

Lemma for_loop_world {A} (P : World (T:=T) -> Prop) (body : nat -> A -> M (T:=T) A) :
  (forall j a w, P w -> P (body j a w).2) ->
  forall fuel i bound stride a w,
    P w -> P (for_loop fuel i bound stride body a w).2.
Proof.
  intros Hbody fuel. induction fuel as [|fuel IH]; intros i bound stride a w Hw; cbn [for_loop].
  - exact Hw.
  - destruct (i <? bound)%nat; [|exact Hw].
    rewrite bind_run. apply IH. now apply Hbody.
Qed.

(** A loop of stride 1 that has fuel for all its iterations runs its body
    once for every index below the bound. *)
Lemma for_loop_counted {A} (P : nat -> World (T:=T) -> Prop) (body : nat -> A -> M (T:=T) A) bound :
  (forall j a w, (j < bound)%nat -> P j w -> P (j + 1)%nat (body j a w).2) ->
  forall fuel i a w,
    (bound - i <= fuel)%nat -> (i <= bound)%nat -> P i w ->
    P bound (for_loop fuel i bound 1 body a w).2.
Proof.
  intros Hbody fuel. induction fuel as [|fuel IH]; intros i a w Hfuel Hi Hw; cbn [for_loop].
  - replace bound with i by lia. exact Hw.
  - destruct (Nat.ltb_spec i bound) as [Hlt|Hge].
    + rewrite bind_run. apply IH; [lia|lia|]. now apply Hbody.
    + replace bound with i by lia. exact Hw.
Qed.
End MoreLoopProps.

(** ** Renderer: what [resize], [step] and [render] do and leave alone *)

Section MoreRendererProps.
Context {T : Type} `{Arith T}.
Variable hdr : Header (T:=T).

Lemma calcSceneParams_body_draws w0 j a w :
  drawn (3 * j) w0 w -> drawn (3 * (j + 1)) w0 (calcSceneParams_body j a w).2.
Proof.
  intros (Ht & Hg & Hr). unfold calcSceneParams_body, drawn.
  rewrite !bind_run. unfold drand48, mret, M_ret. cbn [fst snd trace rand48 g_renderer].
  replace (3 * (j + 1))%nat with (S (S (S (3 * j)))) by lia.
  rewrite !Nat.iter_succ, <- Hr. auto.
Qed.

Lemma resize_body_draws w0 j a w :
  drawn (2 * j) w0 w -> drawn (2 * (j + 1)) w0 (resize_body hdr j a w).2.
Proof.
  intros (Ht & Hg & Hr). unfold resize_body, drawn.
  rewrite !bind_run. unfold drand48, mret, M_ret. cbn [fst snd trace rand48 g_renderer].
  replace (2 * (j + 1))%nat with (S (S (2 * j))) by lia.
  rewrite !Nat.iter_succ, <- Hr. auto.
Qed.

Lemma resize_snd w h r wld :
  (Renderer_resize hdr w h r wld).2 =
  let c := Renderer_calcSceneParams hdr (w mod 2 ^ 32) (h mod 2 ^ 32) r
             (record (Called MapOffsetBuf RVoid) wld) in
  record (Called (GlViewport 0 0 w h) RVoid)
    (for_loop (mNumInstances c.1) 0 (mNumInstances c.1) 1 (resize_body hdr) c.1
       (record (Called UnmapOffsetBuf RVoid) c.2)).2.
Proof.
  unfold Renderer_resize. rewrite !bind_run. reflexivity.
Qed.

Lemma calcSceneParams_snd w h r wld :
  (Renderer_calcSceneParams hdr w h r wld).2 =
  (for_loop (MAX_INSTANCES_ITEM hdr * 2) 0 (MAX_INSTANCES_ITEM hdr * 2) 1 calcSceneParams_body (fresh_arrays hdr r) wld).2.
Proof.
  unfold Renderer_calcSceneParams. cbn zeta. rewrite bind_run. reflexivity.
Qed.

Lemma calcSceneParams_instances w h r wld :
  mNumInstances (Renderer_calcSceneParams hdr w h r wld).1 = MAX_INSTANCES_ITEM hdr.
Proof.
  rewrite calcSceneParams_fst. cbn zeta. cbn [with_mScale mNumInstances].
  match goal with |- context [(for_loop ?f ?i ?b ?s _ ?r0 ?w0).1] =>
    destruct (seeding_same_shape r0 f i b s w0) as (_ & _ & _ & _ & _ & _ & G7 & _) end.
  rewrite G7. reflexivity.
Qed.

Lemma resize_world w h r wld :
  let wld' := (Renderer_resize hdr w h r wld).2 in
  trace wld' = trace wld ++
    [Called MapOffsetBuf RVoid; Called UnmapOffsetBuf RVoid;
     Called (GlViewport 0 0 w h) RVoid] /\
  rand48 wld' = Nat.iter (8 * MAX_INSTANCES_ITEM hdr) rand48_next (rand48 wld) /\
  g_renderer wld' = g_renderer wld.
Proof.
  cbn zeta. rewrite resize_snd. cbn zeta. rewrite calcSceneParams_instances.
  rewrite calcSceneParams_snd.
  set (w1 := record (Called MapOffsetBuf RVoid) wld).
  assert (H1 : drawn (3 * (MAX_INSTANCES_ITEM hdr * 2)) w1
                 (for_loop (MAX_INSTANCES_ITEM hdr * 2) 0 (MAX_INSTANCES_ITEM hdr * 2) 1 calcSceneParams_body (fresh_arrays hdr r) w1).2).
  { apply (for_loop_counted (fun j w => drawn (3 * j) w1 w)); try lia.
    - intros j a w0 _. apply calcSceneParams_body_draws.
    - repeat split. }
  set (w2 := (for_loop (MAX_INSTANCES_ITEM hdr * 2) 0 (MAX_INSTANCES_ITEM hdr * 2) 1 calcSceneParams_body (fresh_arrays hdr r) w1).2) in *.
  set (w3 := record (Called UnmapOffsetBuf RVoid) w2).
  set (c := Renderer_calcSceneParams hdr (w mod 2 ^ 32) (h mod 2 ^ 32) r w1).
  assert (H2 : drawn (2 * MAX_INSTANCES_ITEM hdr) w3 (for_loop (MAX_INSTANCES_ITEM hdr) 0 (MAX_INSTANCES_ITEM hdr) 1 (resize_body hdr) c.1 w3).2).
  { apply (for_loop_counted (fun j w => drawn (2 * j) w3 w)); try lia.
    - intros j a w0 _. apply resize_body_draws.
    - repeat split. }
  destruct H1 as (T1 & G1 & R1). destruct H2 as (T2 & G2 & R2).
  rewrite trace_record, T2. unfold w3 at 1. rewrite trace_record, T1.
  unfold w1 at 1. rewrite trace_record, <- !app_assoc. cbn [app].
  split; [reflexivity|]. cbn [record rand48 g_renderer]. rewrite R2, G2.
  unfold w3. cbn [record rand48 g_renderer]. rewrite R1, G1.
  unfold w1. cbn [record rand48 g_renderer]. split; [|reflexivity].
  rewrite <- Nat.iter_add. f_equal. lia.
Qed.

(** X5.  [resize] makes three external calls, in this order:
    [mapOffsetBuf], [unmapOffsetBuf] and [glViewport(0, 0, w, h)] with the
    sizes as passed.  It logs nothing, takes [8 * MAX_INSTANCES_ITEM] numbers
    from [drand48] and leaves [g_renderer] alone. *)
Theorem resize_world_effect w h r wld :
  let wld' := (Renderer_resize hdr w h r wld).2 in
  trace wld' = trace wld ++
    [Called MapOffsetBuf RVoid; Called UnmapOffsetBuf RVoid;
     Called (GlViewport 0 0 w h) RVoid] /\
  rand48 wld' = Nat.iter (8 * MAX_INSTANCES_ITEM hdr) rand48_next (rand48 wld) /\
  g_renderer wld' = g_renderer wld.
Proof. apply resize_world. Qed.

Lemma resize_backend w h r wld : backend (Renderer_resize hdr w h r wld).1 = backend r.
Proof.
  rewrite resize_fst. cbn zeta. cbn [with_mLastFrameNs backend].
  match goal with |- context [(for_loop ?f0 ?i0 ?b0 ?s0 _ ?r0 ?w0).1] =>
    destruct (angles_same_motion hdr r0 f0 i0 b0 s0 w0) as (_ & _ & _ & _ & _ & _ & _ & _ & H9) end.
  rewrite H9, calcSceneParams_fst. cbn zeta. cbn [with_mScale backend].
  match goal with |- context [(for_loop ?f0 ?i0 ?b0 ?s0 _ ?r0 ?w0).1] =>
    destruct (seeding_same_shape r0 f0 i0 b0 s0 w0) as (_ & _ & _ & _ & _ & _ & _ & G8) end.
  rewrite G8. reflexivity.
Qed.



Lemma step_loop_world (dt : T) fuel i bound stride (r : Renderer (T:=T)) (w : World (T:=T)) :
  (for_loop fuel i bound stride (fun i r => mret (step_body dt i r)) r w).2 = w.
Proof.
  apply (for_loop_world (fun w' => w' = w)); [|reflexivity].
  intros j a w' ->. reflexivity.
Qed.

Lemma step_snd (env : Env (T:=T)) r wld :
  (Renderer_step hdr env r wld).2 =
  let now := env_time env (trace wld) in
  let c := record (Called ClockGettime (RTime now.1 now.2)) wld in
  if 0 <? mLastFrameNs r then
    record (Called UnmapOffsetBuf RVoid)
      (record (Called MapOffsetBuf RVoid)
         (record (Logged INFO "fps:%f"
                    [AFloat (cast double (fdiv single (of_int single 1)
                                            (frame_dt (timespec_ns now) (mLastFrameNs r))))])
            c))
  else c.
Proof.
  unfold Renderer_step. rewrite bind_run. cbn zeta. rewrite bind_run.
  destruct (0 <? mLastFrameNs r); [|reflexivity].
  rewrite !bind_run. unfold call_void. rewrite !emit_run. cbn [fst snd].
  rewrite step_loop_world. reflexivity.
Qed.

(** X10.  Every [step] stores the clock reading it took as the frame clock.
    It queries the clock once; when the frame clock was set it also logs one
    fps line and maps and unmaps the offset buffer, and otherwise it does
    nothing else.  It takes no number from [drand48] and leaves [g_renderer]
    alone. *)
Theorem step_world_effect (env : Env (T:=T)) r wld :
  let now := env_time env (trace wld) in
  let res := Renderer_step hdr env r wld in
  mLastFrameNs res.1 = timespec_ns now /\
  trace res.2 = trace wld ++ Called ClockGettime (RTime now.1 now.2) ::
    (if 0 <? mLastFrameNs r then
       [Logged INFO "fps:%f"
          [AFloat (cast double (fdiv single (of_int single 1)
                                  (frame_dt (timespec_ns now) (mLastFrameNs r))))];
        Called MapOffsetBuf RVoid; Called UnmapOffsetBuf RVoid]
     else []) /\
  rand48 res.2 = rand48 wld /\ g_renderer res.2 = g_renderer wld.
Proof.
  cbn zeta. rewrite step_fst, step_snd. cbn zeta. split; [reflexivity|].
  destruct (0 <? mLastFrameNs r); rewrite !trace_record, <- ?app_assoc; repeat split.
Qed.

Lemma step_body_fields dt i (r : Renderer (T:=T)) :
  let r' := step_body dt i r in
  backend r' = backend r /\ mNumInstances r' = mNumInstances r /\
  mScale r' = mScale r /\ mAngles r' = mAngles r /\
  mAngularVelocity r' = mAngularVelocity r /\ offsetRatio r' = offsetRatio r /\
  mLastFrameNs r' = mLastFrameNs r /\
  length (localOffset r') = length (localOffset r) /\
  length (mVx r') = length (mVx r) /\ length (mVy r') = length (mVy r).
Proof.
  cbn zeta. rewrite step_body_localOffset, step_body_mVx, step_body_mVy. cbn zeta.
  rewrite !length_insert. unfold step_body.
  destruct (advance (slot (localOffset r) i) (slot (mVx r) i) dt) as [ox vx]. cbn.
  destruct (advance _ _ dt) as [oy vy]. repeat split; reflexivity.
Qed.

Lemma step_shape (env : Env (T:=T)) r wld :
  let r' := (Renderer_step hdr env r wld).1 in
  backend r' = backend r /\ mNumInstances r' = mNumInstances r /\
  mScale r' = mScale r /\ mAngles r' = mAngles r /\
  mAngularVelocity r' = mAngularVelocity r /\ offsetRatio r' = offsetRatio r /\
  length (localOffset r') = length (localOffset r) /\
  length (mVx r') = length (mVx r) /\ length (mVy r') = length (mVy r).
Proof.
  cbn zeta. rewrite step_fst. cbn zeta.
  cbn [with_mLastFrameNs backend mNumInstances mScale mAngles mAngularVelocity offsetRatio
       localOffset mVx mVy].
  destruct (0 <? mLastFrameNs r); [|repeat split; reflexivity].
  apply (for_loop_preserves
    (fun a => backend a = backend r /\ mNumInstances a = mNumInstances r /\
       mScale a = mScale r /\ mAngles a = mAngles r /\
       mAngularVelocity a = mAngularVelocity r /\ offsetRatio a = offsetRatio r /\
       length (localOffset a) = length (localOffset r) /\
       length (mVx a) = length (mVx r) /\ length (mVy a) = length (mVy r)));
    [|repeat split; reflexivity].
  intros j a w (H1 & H2 & H3 & H4 & H5 & H6 & H7 & H8 & H9).
  unfold mret, M_ret. cbn [fst].
  destruct (step_body_fields (frame_dt (timespec_ns (env_time env (trace wld))) (mLastFrameNs r)) j a)
    as (G1 & G2 & G3 & G4 & G5 & G6 & _ & G7 & G8 & G9).
  repeat split; congruence.
Qed.

(** X8.  [step] writes to [localOffset], [mVx], [mVy], the offset buffer
    and the frame clock only: backend, instance count, scale, angles, angular
    velocities and offset ratio are as before, and the three arrays keep
    their lengths. *)
Theorem step_keeps_shape (env : Env (T:=T)) r wld :
  let r' := (Renderer_step hdr env r wld).1 in
  backend r' = backend r /\ mNumInstances r' = mNumInstances r /\
  mScale r' = mScale r /\ mAngles r' = mAngles r /\
  mAngularVelocity r' = mAngularVelocity r /\ offsetRatio r' = offsetRatio r /\
  length (localOffset r') = length (localOffset r) /\
  length (mVx r') = length (mVx r) /\ length (mVy r') = length (mVy r).
Proof. apply step_shape. Qed.

(** X9.  [step] uses [mVx[i]] and [mVy[i]] for even [i] only: the entries
    at odd indices, which [calcSceneParams] seeded as well, are never
    changed. *)
Theorem step_skips_odd_speeds (env : Env (T:=T)) r wld j :
  Nat.odd j = true ->
  let r' := (Renderer_step hdr env r wld).1 in
  mVx r' !! j = mVx r !! j /\ mVy r' !! j = mVy r !! j.
Proof.
  intros Hodd. cbn zeta. rewrite step_fst. cbn zeta. cbn [with_mLastFrameNs mVx mVy].
  destruct (0 <? mLastFrameNs r); [|split; reflexivity].
  match goal with |- context [(for_loop ?f0 ?i0 ?b0 ?s0 ?body r ?w0).1] =>
    destruct (for_loop_indexed
                (fun i a => Nat.even i = true /\ mVx a !! j = mVx r !! j /\ mVy a !! j = mVy r !! j)
                body b0 s0 ltac:(lia)) with (fuel := f0) (i := i0) (a := r) (w := w0)
      as (k & _ & _ & Hx & Hy)
  end.
  - intros i a w _ (Hev & Hx & Hy). unfold mret, M_ret. cbn [fst].
    rewrite step_body_mVx, step_body_mVy. cbn zeta.
    assert (i <> j) by (intros ->; rewrite <- Nat.negb_odd, Hodd in Hev; discriminate).
    rewrite !list_lookup_insert_ne by assumption.
    split; [|split; assumption].
    replace (i + 2)%nat with (S (S i)) by lia. rewrite Nat.even_succ_succ. exact Hev.
  - lia.
  - repeat split.
  - split; assumption.
Qed.


(** *** The offset buffer *)

Lemma calcSceneParams_body_mirrors j a w :
  (j < MAX_INSTANCES_ITEM hdr * 2)%nat ->
  length (localOffset a) = (MAX_INSTANCES_ITEM hdr * 2)%nat /\
  (forall k, (k < j)%nat -> offsetBuf a !! k = localOffset a !! k) ->
  let a' := (calcSceneParams_body j a w).1 in
  length (localOffset a') = (MAX_INSTANCES_ITEM hdr * 2)%nat /\
  (forall k, (k < j + 1)%nat -> offsetBuf a' !! k = localOffset a' !! k).
Proof.
  intros Hj (Hlen & Hm). cbn zeta. unfold calcSceneParams_body.
  rewrite !bind_run. unfold mret, M_ret. cbn [fst].
  cbn [localOffset offsetBuf with_offsetBuf with_mVy with_mVx with_localOffset].
  rewrite length_insert. split; [exact Hlen|]. intros k Hk.
  destruct (Nat.eq_dec k j) as [->|Hne].
  - rewrite lookup_insert_eq. unfold slot.
    rewrite list_lookup_insert_eq by lia. reflexivity.
  - rewrite lookup_insert_ne by congruence. rewrite list_lookup_insert_ne by congruence.
    apply Hm. lia.
Qed.

Lemma resize_mirrors w h r wld k :
  (k < MAX_INSTANCES_ITEM hdr * 2)%nat ->
  let r' := (Renderer_resize hdr w h r wld).1 in
  offsetBuf r' !! k = localOffset r' !! k.
Proof.
  intros Hk. cbn zeta. rewrite resize_fst. cbn zeta.
  match goal with |- context [with_mLastFrameNs 0 (for_loop ?f0 ?i0 ?b0 ?s0 _ ?r0 ?w0).1] =>
    destruct (angles_same_motion hdr r0 f0 i0 b0 s0 w0) as (H1 & _ & _ & _ & _ & _ & _ & H8 & _) end.
  cbn [with_mLastFrameNs localOffset offsetBuf].
  rewrite H1, H8, calcSceneParams_fst. cbn zeta. cbn [with_mScale localOffset offsetBuf].
  match goal with |- context [(for_loop ?f0 ?i0 ?b0 ?s0 ?body ?r0 ?w0).1] =>
    destruct (for_loop_indexed
      (fun j a => length (localOffset a) = (MAX_INSTANCES_ITEM hdr * 2)%nat /\
                  (forall k, (k < j)%nat -> offsetBuf a !! k = localOffset a !! k))
      body b0 s0 ltac:(lia)) with (fuel := f0) (i := i0) (a := r0) (w := w0)
      as (j & Hj & _ & Hm)
  end.
  - intros j a w0 Hj Hp. now apply calcSceneParams_body_mirrors.
  - lia.
  - split; [cbn; apply length_replicate|]. intros ? ?. lia.
  - apply Hm. lia.
Qed.

Lemma step_body_mirrors dt j a :
  (j < 2 * MAX_INSTANCES_ITEM hdr - 1)%nat ->
  allocated hdr a /\
  (forall k, (k < MAX_INSTANCES_ITEM hdr * 2)%nat -> offsetBuf a !! k = localOffset a !! k) ->
  allocated hdr (step_body dt j a) /\
  (forall k, (k < MAX_INSTANCES_ITEM hdr * 2)%nat ->
     offsetBuf (step_body dt j a) !! k = localOffset (step_body dt j a) !! k).
Proof.
  intros Hj ((L1 & L2 & L3) & Hm). split.
  - unfold allocated. rewrite step_body_localOffset, step_body_mVx, step_body_mVy.
    cbn zeta. rewrite !length_insert. auto.
  - intros k Hk. rewrite step_body_offsetBuf. cbn zeta. rewrite step_body_localOffset.
    cbn zeta.
    set (ox := (advance (slot (localOffset a) j) (slot (mVx a) j) dt).1).
    set (lo1 := <[j := ox]> (localOffset a)).
    set (oy := (advance (slot lo1 (j + 1)) (slot (mVy a) j) dt).1).
    assert (Hl1 : length lo1 = (MAX_INSTANCES_ITEM hdr * 2)%nat)
      by (unfold lo1; rewrite length_insert; exact L1).
    destruct (Nat.eq_dec k (j + 1)%nat) as [->|Hne1].
    + rewrite lookup_insert_eq. unfold slot.
      rewrite list_lookup_insert_eq by lia. reflexivity.
    + rewrite lookup_insert_ne by congruence. rewrite list_lookup_insert_ne by congruence.
      destruct (Nat.eq_dec k j) as [->|Hne].
      * rewrite lookup_insert_eq. unfold slot, lo1.
        rewrite list_lookup_insert_eq by lia. reflexivity.
      * rewrite lookup_insert_ne by congruence. unfold lo1.
        rewrite list_lookup_insert_ne by congruence. now apply Hm.
Qed.

Lemma step_mirrors (env : Env (T:=T)) r wld :
  allocated hdr r /\
  (forall k, (k < MAX_INSTANCES_ITEM hdr * 2)%nat -> offsetBuf r !! k = localOffset r !! k) ->
  forall k, (k < MAX_INSTANCES_ITEM hdr * 2)%nat ->
    offsetBuf (Renderer_step hdr env r wld).1 !! k =
    localOffset (Renderer_step hdr env r wld).1 !! k.
Proof.
  intros Hr. rewrite step_fst. cbn zeta. cbn [with_mLastFrameNs localOffset offsetBuf].
  destruct (0 <? mLastFrameNs r); [|apply Hr].
  match goal with |- context [(for_loop ?f0 ?i0 ?b0 ?s0 ?body r ?w0).1] =>
    destruct (for_loop_indexed
      (fun (_ : nat) a => allocated hdr a /\
         (forall k, (k < MAX_INSTANCES_ITEM hdr * 2)%nat -> offsetBuf a !! k = localOffset a !! k))
      body b0 s0 ltac:(lia)) with (fuel := f0) (i := i0) (a := r) (w := w0)
      as (j & _ & _ & Hm)
  end.
  - intros j a w0 Hj Hp. unfold mret, M_ret. cbn [fst]. now apply step_body_mirrors.
  - lia.
  - exact Hr.
  - exact Hm.
Qed.

(** X7.  After a [resize] and any number of [step]s, the offset buffer
    holds, in each of the [2 * MAX_INSTANCES_ITEM] slots, the value that
    [localOffset] holds there. *)
Theorem offset_buffer_mirrors_offsets r k :
  after_resize hdr r -> (k < 2 * MAX_INSTANCES_ITEM hdr)%nat ->
  offsetBuf r !! k = localOffset r !! k /\ is_Some (localOffset r !! k).
Proof.
  intros Hr Hk. split.
  - revert k Hk. induction Hr as [w h r wld|env r wld Hr IH]; intros k Hk.
    + apply resize_mirrors. lia.
    + apply step_mirrors; [|lia]. split; [now apply after_resize_allocated|].
      intros j Hj. apply IH. lia.
  - apply lookup_lt_is_Some_2. destruct (after_resize_allocated hdr r Hr) as (L & _). lia.
Qed.

(** *** The clock *)

(** X11.  0 is both a clock value and the mark for no frame yet: a [step]
    that reads the clock as 0 ns leaves the frame clock at 0, and the [step]
    after it moves nothing, whatever time has passed. *)
Theorem step_after_clock_zero (env env' : Env (T:=T)) r wld wld' :
  timespec_ns (env_time env (trace wld)) = 0 ->
  let r1 := (Renderer_step hdr env r wld).1 in
  let r2 := (Renderer_step hdr env' r1 wld').1 in
  mLastFrameNs r1 = 0 /\
  localOffset r2 = localOffset r1 /\ mVx r2 = mVx r1 /\ mVy r2 = mVy r1 /\
  offsetBuf r2 = offsetBuf r1.
Proof.
  intros Hz. cbn zeta.
  assert (H1 : mLastFrameNs (Renderer_step hdr env r wld).1 = 0).
  { rewrite step_fst. cbn zeta. cbn [with_mLastFrameNs mLastFrameNs]. exact Hz. }
  split; [exact H1|].
  rewrite (step_fst hdr env' (Renderer_step hdr env r wld).1). cbn zeta. rewrite H1.
  change (0 <? 0) with false. cbn iota. repeat split; reflexivity.
Qed.

(** *** [render] *)

Lemma after_resize_instances r :
  after_resize hdr r -> mNumInstances r = MAX_INSTANCES_ITEM hdr.
Proof.
  induction 1 as [w h r wld|env r wld _ IH].
  - rewrite resize_fst. cbn zeta. cbn [with_mLastFrameNs mNumInstances].
    match goal with |- context [(for_loop ?f0 ?i0 ?b0 ?s0 _ ?r0 ?w0).1] =>
      destruct (angles_same_motion hdr r0 f0 i0 b0 s0 w0) as (_ & _ & _ & _ & _ & _ & H7 & _) end.
    rewrite H7. apply calcSceneParams_instances.
  - destruct (step_shape env r wld) as (_ & -> & _). exact IH.
Qed.

Lemma render_run (env : Env (T:=T)) r wld :
  Renderer_render hdr env r wld =
  let s := Renderer_step hdr env r wld in
  let w1 := record (Called (Draw (mNumInstances s.1)) RVoid)
              (record (Called (GlClear 16640) RVoid)
                 (record (Called (GlClearColor (2 # 10) (2 # 10) (3 # 10) 1) RVoid) s.2)) in
  let err := env_int env (trace w1) GlGetError in
  (s.1,
   if err =? 0 then record (Called GlGetError (RInt err)) w1
   else record (Logged ERROR "GL error after %s(): 0x%08x\n" [AStr "Renderer::render"; AInt err])
          (record (Called GlGetError (RInt err)) w1)).
Proof.
  unfold Renderer_render. rewrite bind_run.
  destruct (Renderer_step hdr env r wld) as [r1 w1]. cbn [fst snd].
  unfold call_void, checkGlError, ALOGE, GL_NO_ERROR.
  repeat first [rewrite bind_run | rewrite emit_run | rewrite call_int_run
               | progress cbn [fst snd]].
  change (Z.lor GL_COLOR_BUFFER_BIT GL_DEPTH_BUFFER_BIT) with 16640.
  cbn zeta. destruct (env_int env _ GlGetError =? 0); cbn [negb].
  - rewrite !ret_run. reflexivity.
  - repeat first [rewrite bind_run | rewrite emit_run | rewrite ret_run
                 | progress cbn [fst snd]]. reflexivity.
Qed.

(** X13.  After a [resize], [render] is [step] followed by
    [glClearColor(0.2, 0.2, 0.3, 1)], [glClear] of the colour and depth
    buffers, one draw of [MAX_INSTANCES_ITEM] instances and one [glGetError]
    query, which adds a line to the error log when it reports an error; the
    renderer is as [step] left it. *)
Theorem render_draws_all_instances (env : Env (T:=T)) r wld :
  after_resize hdr r ->
  let s := Renderer_step hdr env r wld in
  let res := Renderer_render hdr env r wld in
  res.1 = s.1 /\
  exists err,
    trace res.2 = trace s.2 ++
      [Called (GlClearColor (2 # 10) (2 # 10) (3 # 10) 1) RVoid;
       Called (GlClear 16640) RVoid;
       Called (Draw (MAX_INSTANCES_ITEM hdr)) RVoid;
       Called GlGetError (RInt err)] ++
      (if err =? 0 then []
       else [Logged ERROR "GL error after %s(): 0x%08x\n" [AStr "Renderer::render"; AInt err]]).
Proof.
  intros Hr. cbn zeta. rewrite render_run. cbn zeta. split; [reflexivity|].
  rewrite (after_resize_instances _ (ar_step hdr env r wld Hr)).
  match goal with |- context [env_int env ?tr GlGetError] =>
    set (err := env_int env tr GlGetError) end.
  exists err. destruct (err =? 0); cbn [snd]; rewrite !trace_record, <- !app_assoc; reflexivity.
Qed.

End MoreRendererProps.

(** ** Renderer: a [resize] starts afresh *)

Section Forget.
Context {T : Type} `{Arith T}.
Variable hdr : Header (T:=T).

Lemma for_loop_related {A} (R : A -> World (T:=T) -> A -> World (T:=T) -> Prop)
    (body : nat -> A -> M (T:=T) A) :
  (forall j a w a' w', R a w a' w' ->
     R (body j a w).1 (body j a w).2 (body j a' w').1 (body j a' w').2) ->
  forall fuel i bound stride a w a' w',
    R a w a' w' ->
    R (for_loop fuel i bound stride body a w).1 (for_loop fuel i bound stride body a w).2
      (for_loop fuel i bound stride body a' w').1 (for_loop fuel i bound stride body a' w').2.
Proof.
  intros Hbody fuel. induction fuel as [|fuel IH]; intros i bound stride a w a' w' HR;
    cbn [for_loop].
  - exact HR.
  - destruct (i <? bound)%nat; [|exact HR].
    rewrite !bind_run. apply IH. now apply Hbody.
Qed.

Lemma calcSceneParams_body_same j a w a' w' :
  same_seeds a w a' w' ->
  same_seeds (calcSceneParams_body j a w).1 (calcSceneParams_body j a w).2
             (calcSceneParams_body j a' w').1 (calcSceneParams_body j a' w').2.
Proof.
  intros (H1 & H2 & H3 & H4 & H5). unfold calcSceneParams_body, same_seeds.
  rewrite !bind_run. unfold drand48, mret, M_ret.
  cbn [fst snd rand48 localOffset mVx mVy offsetRatio with_offsetBuf with_mVy with_mVx
       with_localOffset].
  rewrite H1, H2, H3, H4, H5. repeat split; reflexivity.
Qed.

Lemma resize_same_seeds w h r1 r2 wld1 wld2 :
  rand48 wld1 = rand48 wld2 ->
  let a := (Renderer_resize hdr w h r1 wld1).1 in
  let b := (Renderer_resize hdr w h r2 wld2).1 in
  localOffset a = localOffset b /\ mVx a = mVx b /\ mVy a = mVy b /\
  offsetRatio a = offsetRatio b.
Proof.
  intros Hr. cbn zeta. rewrite !resize_fst. cbn zeta.
  cbn [with_mLastFrameNs localOffset mVx mVy offsetRatio].
  repeat match goal with |- context [(for_loop ?f0 ?i0 ?b0 ?s0 (resize_body hdr) ?r0 ?w0).1] =>
    let H1 := fresh in let H2 := fresh in let H3 := fresh in let H6 := fresh in
    destruct (angles_same_motion hdr r0 f0 i0 b0 s0 w0) as (H1 & H2 & H3 & _ & _ & H6 & _);
    rewrite H1, H2, H3, H6; clear H1 H2 H3 H6 end.
  rewrite !calcSceneParams_fst. cbn zeta.
  cbn [with_mScale localOffset mVx mVy offsetRatio].
  match goal with
  | |- context [(for_loop ?f0 ?i0 ?b0 ?s0 ?body (fresh_arrays hdr r1) ?w1).1] =>
    match goal with
    | |- context [(for_loop f0 i0 b0 s0 body (fresh_arrays hdr r2) ?w2).1] =>
      destruct (for_loop_related same_seeds body calcSceneParams_body_same f0 i0 b0 s0
                  (fresh_arrays hdr r1) w1 (fresh_arrays hdr r2) w2)
        as (G1 & G2 & G3 & G4 & _)
    end
  end.
  - repeat split; try reflexivity. exact Hr.
  - auto.
Qed.

(** X6.  [resize] keeps nothing of the previous simulation: from the same
    state of the generator, two renderers end with the same offsets, speeds,
    scale, offset ratio, instance count and frame clock, whatever they held
    before. *)
Theorem resize_forgets_motion w h r1 r2 wld1 wld2 :
  rand48 wld1 = rand48 wld2 ->
  let a := (Renderer_resize hdr w h r1 wld1).1 in
  let b := (Renderer_resize hdr w h r2 wld2).1 in
  localOffset a = localOffset b /\ mVx a = mVx b /\ mVy a = mVy b /\
  mScale a = mScale b /\ offsetRatio a = offsetRatio b /\
  mNumInstances a = mNumInstances b /\ mLastFrameNs a = mLastFrameNs b.
Proof.
  intros Hr. cbn zeta.
  destruct (resize_same_seeds w h r1 r2 wld1 wld2 Hr) as (H1 & H2 & H3 & H4).
  rewrite !resize_scale, !resize_resets_clock.
  rewrite !(after_resize_instances hdr _ (ar_resize hdr _ _ _ _)).
  repeat split; assumption.
Qed.
End Forget.

(** ** JNI boundary: sequences of calls *)

Section SessionProps.
Context {T : Type} `{Arith T}.
Variable hdr : Header (T:=T).

Lemma renderers_alive_app (a b : list (event (T:=T))) l :
  renderers_alive (a ++ b) l =
  match renderers_alive a l with Some l' => renderers_alive b l' | None => None end.
Proof.
  revert l. induction a as [|e a IH]; intros l; [reflexivity|].
  destruct e as [c r|p f args]; simpl; [|apply IH].
  destruct c as [| | | | | | | | | | | | | | | | | | | | | | |bk|bk]; try apply IH.
  - destruct r; apply IH.
  - destruct l as [|b' rest]; [reflexivity|].
    destruct (Backend_eqb bk b'); [apply IH|reflexivity].
Qed.

Lemma Backend_eqb_refl b : Backend_eqb b b = true.
Proof. now destruct b. Qed.

Lemma init_alive env w :
  let w' := (Java_com_android_gles3jni_GLES3JNILib_init hdr env w).2 in
  exists evs, trace w' = trace w ++ evs /\ renderers_alive evs (held w) = Some (held w').
Proof.
  cbn zeta.
  unfold Java_com_android_gles3jni_GLES3JNILib_init, printGlString,
         createES3Renderer, createES2Renderer, createRenderer, gl3stubInit, held.
  rewrite bind_run. unfold get_g_renderer. cbn [fst snd].
  rewrite bind_run.
  destruct (g_renderer w) as [r|] eqn:Hg.
  all: repeat first [mstep | rewrite set_g_renderer_run | progress cbn [trace rand48 g_renderer]].
  all: show_trace.
  all: (eexists; split; [cbn [trace app]; rewrite <- ?app_assoc; reflexivity|]).
  all: cbn [renderers_alive app g_renderer record]; rewrite ?Hg;
       rewrite ?Backend_eqb_refl; cbn [renderers_alive];
       repeat match goal with E : (_ =? _) = _ |- _ => rewrite E end; reflexivity.
Qed.

Lemma resize_alive width height w :
  let w' := (Java_com_android_gles3jni_GLES3JNILib_resize hdr width height w).2 in
  exists evs, trace w' = trace w ++ evs /\ renderers_alive evs (held w) = Some (held w').
Proof.
  cbn zeta. unfold Java_com_android_gles3jni_GLES3JNILib_resize, held.
  rewrite bind_run. unfold get_g_renderer. cbn [fst snd].
  destruct (g_renderer w) as [r|] eqn:Hg.
  - rewrite bind_run, set_g_renderer_run. cbn [snd trace g_renderer].
    destruct (resize_world hdr width height r w) as (Ht & _).
    rewrite Ht, resize_backend. eexists. split; [reflexivity|]. reflexivity.
  - rewrite ret_run. cbn [snd]. exists []. rewrite app_nil_r, Hg. split; reflexivity.
Qed.

Lemma step_alive env w :
  let w' := (Java_com_android_gles3jni_GLES3JNILib_step hdr env w).2 in
  exists evs, trace w' = trace w ++ evs /\ renderers_alive evs (held w) = Some (held w').
Proof.
  cbn zeta. unfold Java_com_android_gles3jni_GLES3JNILib_step, held.
  rewrite bind_run. unfold get_g_renderer. cbn [fst snd].
  destruct (g_renderer w) as [r|] eqn:Hg.
  - rewrite bind_run, set_g_renderer_run. cbn [snd trace g_renderer].
    rewrite render_run. cbn zeta. cbn [fst snd].
    destruct (step_shape hdr env r w) as (-> & _).
    rewrite step_snd. cbn zeta.
    match goal with |- context [env_int env ?tr GlGetError] =>
      generalize (env_int env tr GlGetError); intros err end.
    destruct (err =? 0); destruct (0 <? mLastFrameNs r);
      rewrite !trace_record, <- !app_assoc; cbn [app];
      (eexists; split; [reflexivity|]); reflexivity.
  - rewrite ret_run. cbn [snd]. exists []. rewrite app_nil_r, Hg. split; reflexivity.
Qed.

(** X15.  Over any sequence of boundary calls, answered by any
    environments, in which a resize has allocated the arrays before any step
    that moves the instances, renderer objects are created and deleted in
    step with [g_renderer]: no object is deleted twice, and the objects alive
    at the end are the one [g_renderer] points to, or none when it is null.
    (The creation itself is [createRenderer], modelled from the spec.  By
    [resize_first_sessions_defined] below, the sessions meant include every
    one in which each [step] follows a [resize] made after the last
    [init].) *)
Theorem session_keeps_one_renderer cs w :
  resized_before_moving hdr cs w ->
  let w' := jni_session hdr cs w in
  exists evs, trace w' = trace w ++ evs /\ renderers_alive evs (held w) = Some (held w').
Proof.
  cbn zeta. revert w. induction cs as [|[env c] cs IH]; intros w Hdef; cbn [jni_session].
  - exists []. rewrite app_nil_r. split; reflexivity.
  - cbn [resized_before_moving] in Hdef. destruct Hdef as [_ Hdef].
    assert (Hc : exists evs, trace (jni hdr env c w).2 = trace w ++ evs /\
                   renderers_alive evs (held w) = Some (held (jni hdr env c w).2)).
    { destruct c; cbn [jni]; [apply init_alive|apply resize_alive|apply step_alive]. }
    destruct Hc as (evs1 & Ht1 & Ha1).
    destruct (IH (jni hdr env c w).2 Hdef) as (evs2 & Ht2 & Ha2).
    exists (evs1 ++ evs2). rewrite Ht2, Ht1, <- app_assoc. split; [reflexivity|].
    rewrite renderers_alive_app, Ha1. exact Ha2.
Qed.

End SessionProps.

Section MoreBoundary.
Context {T : Type} `{Arith T}.
Variable hdr : Header (T:=T).
Variable env : Env (T:=T).

(** X14.  A renderer that was constructed and never resized draws no
    instance: [render] records the clock, clears, draws 0 instances and
    checks the GL error. *)
Theorem render_before_resize b wld :
  let now := env_time env (trace wld) in
  let res := Renderer_render hdr env (Renderer_new hdr b) wld in
  res.1 = with_mLastFrameNs (timespec_ns now) (Renderer_new hdr b) /\
  exists err,
    trace res.2 = trace wld ++
      [Called ClockGettime (RTime now.1 now.2);
       Called (GlClearColor (2 # 10) (2 # 10) (3 # 10) 1) RVoid;
       Called (GlClear 16640) RVoid;
       Called (Draw 0) RVoid;
       Called GlGetError (RInt err)] ++
      (if err =? 0 then []
       else [Logged ERROR "GL error after %s(): 0x%08x\n" [AStr "Renderer::render"; AInt err]]).
Proof.
  cbn zeta. rewrite render_run. cbn zeta. cbn [fst snd].
  rewrite step_fst, step_snd. cbn zeta.
  change (0 <? mLastFrameNs (Renderer_new hdr b)) with false. cbn iota.
  split; [reflexivity|]. cbn [with_mLastFrameNs mNumInstances Renderer_new].
  match goal with |- context [env_int env ?tr GlGetError] =>
    set (err := env_int env tr GlGetError) end.
  exists err. destruct (err =? 0); rewrite !trace_record, <- !app_assoc; reflexivity.
Qed.

Lemma jni_resize_run width height r w :
  g_renderer w = Some r ->
  Java_com_android_gles3jni_GLES3JNILib_resize hdr width height w =
  let res := Renderer_resize hdr width height r w in
  (tt, {| trace := trace res.2; rand48 := rand48 res.2; g_renderer := Some res.1 |}).
Proof.
  intros Hg. unfold Java_com_android_gles3jni_GLES3JNILib_resize.
  rewrite bind_run. unfold get_g_renderer. cbn [fst snd]. rewrite Hg.
  rewrite bind_run, set_g_renderer_run. reflexivity.
Qed.

Lemma jni_step_run r w :
  g_renderer w = Some r ->
  Java_com_android_gles3jni_GLES3JNILib_step hdr env w =
  let res := Renderer_render hdr env r w in
  (tt, {| trace := trace res.2; rand48 := rand48 res.2; g_renderer := Some res.1 |}).
Proof.
  intros Hg. unfold Java_com_android_gles3jni_GLES3JNILib_step.
  rewrite bind_run. unfold get_g_renderer. cbn [fst snd]. rewrite Hg.
  rewrite bind_run, set_g_renderer_run. reflexivity.
Qed.

(** X16.  With a renderer present, the boundary call [resize] followed by
    [step]: [g_renderer] holds the resized renderer, then that renderer after
    a first frame, with the offsets, speeds and offset buffer the resize
    gave, and [MAX_INSTANCES_ITEM] instances are drawn. *)
Theorem resize_then_step width height r w :
  g_renderer w = Some r ->
  let w1 := (Java_com_android_gles3jni_GLES3JNILib_resize hdr width height w).2 in
  let w2 := (Java_com_android_gles3jni_GLES3JNILib_step hdr env w1).2 in
  exists r1 r2,
    g_renderer w1 = Some r1 /\ g_renderer w2 = Some r2 /\
    r1 = (Renderer_resize hdr width height r w).1 /\
    localOffset r2 = localOffset r1 /\ mVx r2 = mVx r1 /\ mVy r2 = mVy r1 /\
    offsetBuf r2 = offsetBuf r1 /\
    In (Called (Draw (MAX_INSTANCES_ITEM hdr)) RVoid) (trace w2).
Proof.
  intros Hg. cbn zeta. rewrite (jni_resize_run width height r w Hg). cbn zeta. cbn [snd].
  set (r1 := (Renderer_resize hdr width height r w).1).
  set (wr := (Renderer_resize hdr width height r w).2).
  set (w1 := {| trace := trace wr; rand48 := rand48 wr; g_renderer := Some r1 |}).
  rewrite (jni_step_run r1 w1 eq_refl). cbn zeta. cbn [snd g_renderer trace].
  exists r1, (Renderer_render hdr env r1 w1).1.
  split; [reflexivity|]. split; [reflexivity|]. split; [reflexivity|].
  rewrite render_run. cbn zeta. cbn [fst snd].
  destruct (first_step_unchanged hdr env width height r w w1) as (H1 & H2 & H3 & H4 & _).
  fold r1 in H1, H2, H3, H4. repeat (split; [assumption|]).
  assert (Hn : mNumInstances (Renderer_step hdr env r1 w1).1 = MAX_INSTANCES_ITEM hdr).
  { apply after_resize_instances. apply ar_step. apply ar_resize. }
  rewrite Hn.
  match goal with |- context [env_int env ?tr GlGetError] =>
    generalize (env_int env tr GlGetError); intros err end.
  destruct (err =? 0); rewrite !trace_record, <- !app_assoc; cbn [app];
    apply in_or_app; right; in_list.
Qed.
End MoreBoundary.

Section SessionsDefined.
Context {T : Type} `{Arith T}.
Variable hdr : Header (T:=T).

(** Sessions in which a resize precedes every step satisfy
    [resized_before_moving]. *)
Lemma resize_first_sessions_defined resized cs w :
  resize_precedes_steps resized (map snd cs) = true ->
  (resized = true ->
   match g_renderer w with Some r => allocated hdr r | None => True end) ->
  resized_before_moving hdr cs w.
Proof.
  revert resized w. induction cs as [|[env c] cs IH]; intros resized w Hcs Hw; [exact I|].
  cbn [resized_before_moving map snd resize_precedes_steps] in *.
  destruct c as [|width height|].
  - split; [exact I|]. apply (IH false); [exact Hcs|discriminate].
  - split; [exact I|]. apply (IH true); [exact Hcs|]. intros _. cbn [jni].
    destruct (g_renderer w) as [r|] eqn:Hg.
    + rewrite (jni_resize_run hdr width height r w Hg). cbn zeta. cbn [snd g_renderer].
      apply resize_allocated.
    + unfold Java_com_android_gles3jni_GLES3JNILib_resize.
      rewrite bind_run. unfold get_g_renderer. cbn [fst snd]. rewrite Hg, ret_run.
      cbn [snd]. now rewrite Hg.
  - apply andb_true_iff in Hcs. destruct Hcs as [-> Hcs]. specialize (Hw eq_refl).
    split.
    + destruct (g_renderer w) as [r|]; [intros _; exact Hw|exact I].
    + apply (IH true); [exact Hcs|]. intros _. cbn [jni].
      destruct (g_renderer w) as [r|] eqn:Hg.
      * rewrite (jni_step_run hdr env r w Hg). cbn zeta. cbn [snd g_renderer].
        rewrite render_run. cbn zeta. cbn [fst]. now apply step_allocated.
      * unfold Java_com_android_gles3jni_GLES3JNILib_step.
        rewrite bind_run. unfold get_g_renderer. cbn [fst snd]. rewrite Hg, ret_run.
        cbn [snd]. now rewrite Hg.
Qed.
End SessionsDefined.

(** ** Speeds and the frame clock in binary floating point *)

Section Speeds.
Context {T : Type} `{Arith T}.
Variable hdr : Header (T:=T).

Lemma slot_closed (P : T -> Prop) (l : list T) i : P fzero -> Forall P l -> P (slot l i).
Proof.
  intros H0 Hl. unfold slot. destruct (l !! i) as [x|] eqn:Hx; [|exact H0].
  cbn. eapply Forall_lookup_1; eassumption.
Qed.

(** A set of speeds that holds 0 and is closed under negation is kept by
    [step]. *)
Lemma step_speeds_closed (P : T -> Prop) (env : Env (T:=T)) r wld :
  P fzero -> (forall v, P v -> P (fneg v)) ->
  Forall P (mVx r) /\ Forall P (mVy r) ->
  Forall P (mVx (Renderer_step hdr env r wld).1) /\
  Forall P (mVy (Renderer_step hdr env r wld).1).
Proof.
  intros H0 Hneg Hr. rewrite step_fst. cbn zeta. cbn [with_mLastFrameNs mVx mVy].
  destruct (0 <? mLastFrameNs r); [|exact Hr].
  apply (for_loop_preserves (fun a => Forall P (mVx a) /\ Forall P (mVy a))); [|exact Hr].
  intros j a w [Hx Hy]. unfold mret, M_ret. cbn [fst].
  rewrite step_body_mVx, step_body_mVy. cbn zeta.
  split; apply Forall_insert; trivial.
  - destruct (advance_velocity (slot (localOffset a) j) (slot (mVx a) j)
                (frame_dt (timespec_ns (env_time env (trace wld))) (mLastFrameNs r)))
      as [-> | ->]; [|apply Hneg]; now apply slot_closed.
  - match goal with |- P (advance ?o ?v ?dt).2 =>
      destruct (advance_velocity o v dt) as [-> | ->] end;
      [|apply Hneg]; now apply slot_closed.
Qed.
End Speeds.

Lemma ieee_within_opp b x : ieee_within b x = true -> ieee_within b (SFopp x) = true.
Proof.
  unfold ieee_within. destruct x as [s|s| |s m e]; cbn [SFopp ieee_finite ieee_value andb];
    try discriminate; try (intros Hx; exact Hx).
  rewrite !andb_true_iff, !Qle_bool_iff. intros [H1 H2].
  destruct s; cbn [negb]; split; lra.
Qed.

Section IeeeSpeeds.
Variable hdr : Header (T:=spec_float).

Lemma ieee_speeds_kept r :
  after_resize hdr r ->
  Forall (fun v => ieee_within 5 v = true) (mVx r) /\
  Forall (fun v => ieee_within 5 v = true) (mVy r).
Proof.
  induction 1 as [w h r wld|env r wld _ IH].
  - destruct (ieee_resize_seeded hdr w h r wld) as (_ & _ & Hx & Hy). now split.
  - apply step_speeds_closed; [reflexivity| |exact IH].
    intros v. apply ieee_within_opp.
Qed.

(** X17.  In binary32/binary64 arithmetic, after a [resize] and any number
    of [step]s, whatever the clock shows, every speed is a number in
    [-5, 5]. *)
Theorem speeds_stay_in_range r :
  after_resize hdr r ->
  Forall (fun v => ieee_finite v = true /\ (-(5) <= ieee_value v <= 5)%Q) (mVx r) /\
  Forall (fun v => ieee_finite v = true /\ (-(5) <= ieee_value v <= 5)%Q) (mVy r).
Proof.
  intros Hr. destruct (ieee_speeds_kept r Hr) as [Hx Hy].
  split; (eapply Forall_impl; [eassumption|]); intros v; apply ieee_within_range.
Qed.

(** X12.  In binary32 arithmetic, a [step] that reads the same clock value
    as the frame before computes [dt = 0] and logs [1/dt], +infinity, as the
    fps. *)
Theorem step_without_elapsed_time env r wld :
  0 < mLastFrameNs r ->
  timespec_ns (env_time env (trace wld)) = mLastFrameNs r ->
  In (Logged INFO "fps:%f" [AFloat (S754_infinity false)])
     (trace (Renderer_step hdr env r wld).2).
Proof.
  intros Hpos Hnow. rewrite step_snd. cbn zeta.
  apply Z.ltb_lt in Hpos. rewrite Hpos, Hnow.
  unfold frame_dt. rewrite Z.sub_diag.
  rewrite !trace_record. apply in_or_app. left. apply in_or_app. left.
  apply in_or_app. right. left. reflexivity.
Qed.
End IeeeSpeeds.

(** ** Rounding from above, and a width of 0 *)

Lemma dy_zero e : (dy 0 e == 0)%Q.
Proof. unfold dy. ring. Qed.

Lemma dy_pos m e : 0 < m -> (0 < dy m e)%Q.
Proof. intros Hm. rewrite <- (dy_zero e). now apply dy_lt. Qed.

Section RoundingBelow.
Variables prec emax : Z.
Hypothesis prec_pos : 0 < prec.
Hypothesis prec_lt_emax : prec < emax.

(** Rounding to nearest never crosses a representable number from above
    either. *)
Lemma binary_round_aux_ge s m e Ml El :
  0 < m -> e <= fexp prec emax (Zdigits2 m + e) ->
  0 < Ml < 2 ^ prec -> emin prec emax <= El ->
  (dy Ml El <= dy m e)%Q ->
  rounded_above prec emax s Ml El (binary_round_aux prec emax s m e loc_Exact).
Proof.
  intros Hm Hin [HMl0 HMl] HEl Hle. unfold binary_round_aux.
  pose proof (Zdigits2_bounds m Hm) as [Dlo Dhi].
  pose proof (Zdigits2_pos m Hm) as Dpos.
  destruct (shr_fexp_exact prec emax m e ltac:(lia)) as (r1 & E1 & Hq1 & _). cbn zeta in *.
  rewrite E1. clear E1.
  set (d := Zdigits2 m) in *. set (e1 := fexp prec emax (d + e)) in *.
  replace (Z.max 0 (e1 - e)) with (e1 - e) in * by lia.
  replace (e + (e1 - e)) with e1 by lia.
  set (k := e1 - e) in *. assert (Hk : 0 <= k) by lia.
  assert (Hek : e + k = e1) by (unfold k; lia).
  assert (HP : 0 < 2 ^ k) by (apply Z.pow_pos_nonneg; lia).
  set (m1 := shr_m r1) in *.
  destruct (round_nearest_even_bounds m1 (loc_of_shr_record r1)) as [Hr _].
  set (m2 := round_nearest_even m1 (loc_of_shr_record r1)) in *.
  (* the truncated mantissa is still above the bound *)
  assert (HA : (dy Ml El <= dy m1 e1)%Q).
  { destruct (Z.le_gt_cases e1 El) as [Hcase|Hcase].
    - assert (HB : (dy Ml El == dy (Ml * 2 ^ (El - e1)) e1)%Q).
      { rewrite dy_shift by lia. now replace (e1 + (El - e1)) with El by lia. }
      rewrite HB. apply dy_le.
      assert (HB' : (dy Ml El == dy (Ml * 2 ^ (El - e1) * 2 ^ k) e)%Q).
      { rewrite HB, (dy_shift (Ml * 2 ^ (El - e1)) e k), Hek by lia. reflexivity. }
      rewrite HB' in Hle. apply dy_le in Hle.
      rewrite Hq1. apply Z.div_le_lower_bound; lia.
    - assert (Hnorm : e1 = d + e - prec) by (unfold e1, fexp in *; lia).
      assert (H1 : 2 ^ (prec - 1) <= m1).
      { rewrite Hq1. apply Z.div_le_lower_bound; [lia|].
        rewrite <- Z.pow_add_r by lia. replace (k + (prec - 1)) with (d - 1) by lia.
        exact Dlo. }
      assert (H2 : (dy Ml El < dy 1 (El + prec))%Q) by (apply dy_below_pow2; lia).
      assert (H3 : (dy 1 (El + prec) <= dy 1 (e1 + (prec - 1)))%Q) by (apply dy_one_mono; lia).
      assert (H4 : (dy 1 (e1 + (prec - 1)) <= dy m1 e1)%Q) by (apply dy_above_pow2; lia).
      apply Qlt_le_weak. eapply Qlt_le_trans; [exact H2|]. eapply Qle_trans; eassumption. }
  assert (Hm1 : 0 < m1).
  { apply (dy_lt 0 m1 e1). rewrite dy_zero. eapply Qlt_le_trans; [|exact HA].
    now apply dy_pos. }
  destruct (shr_fexp_exact prec emax m2 e1 ltac:(lia)) as (r2 & E2 & Hq2 & _). cbn zeta in *.
  rewrite E2. clear E2.
  set (k2 := Z.max 0 (fexp prec emax (Zdigits2 m2 + e1) - e1)) in *.
  assert (Hk2 : 0 <= k2) by lia.
  set (m3 := shr_m r2) in *.
  (* the second shift loses nothing, and the result is canonical *)
  assert (HC : m3 * 2 ^ k2 = m2 /\ fexp prec emax (Zdigits2 m3 + (e1 + k2)) = e1 + k2).
  { assert (Hd1 : Zdigits2 m1 = d - k).
    { rewrite Hq1. apply Zdigits2_div; lia. }
    assert (Hd2 : Zdigits2 m2 = d - k \/ (m2 = 2 ^ (d - k) /\ Zdigits2 m2 = d - k + 1)).
    { destruct (Z.eq_dec m2 m1) as [->|Hne]; [left; assumption|].
      replace m2 with (m1 + 1) by lia. rewrite <- Hd1. apply Zdigits2_succ. lia. }
    pose proof (Zdigits2_pos m1 ltac:(lia)) as Hd1pos.
    destruct Hd2 as [Hd2|[Hpow Hd2]].
    - assert (Hk0 : k2 = 0) by (unfold k2, e1, fexp, emin in *; rewrite Hd2; lia).
      assert (Hm32 : m3 = m2) by (rewrite Hq2, Hk0, Z.pow_0_r; apply Z.div_1_r).
      rewrite Hm32, Hd2, Hk0, Z.pow_0_r. split; [lia|]. unfold e1, fexp, emin in *. lia.
    - assert (Hk2c : k2 = 0 \/ k2 = 1) by (unfold k2, e1, fexp, emin in *; rewrite Hd2; lia).
      destruct Hk2c as [Hk0|Hk1].
      + assert (Hm32 : m3 = m2) by (rewrite Hq2, Hk0, Z.pow_0_r; apply Z.div_1_r).
        rewrite Hm32, Hd2, Hk0, Z.pow_0_r. split; [lia|].
        unfold k2, e1, fexp, emin in *. rewrite Hd2 in Hk0. lia.
      + assert (Hpw : 2 ^ (d - k) = 2 ^ (d - k - 1) * 2).
        { rewrite Z.mul_comm, <- (Z.pow_succ_r 2 (d - k - 1)) by lia. f_equal. lia. }
        assert (Hm33 : m3 = 2 ^ (d - k - 1)).
        { rewrite Hq2, Hpow, Hk1, Hpw. change (2 ^ 1) with 2. apply Z.div_mul. lia. }
        split.
        * rewrite Hm33, Hk1, Hpow, Hpw. reflexivity.
        * rewrite Hm33, Zdigits2_pow2 by lia.
          unfold k2, e1, fexp, emin in *. rewrite Hd2 in Hk1. lia. }
  destruct HC as [Hexact Hcanon].
  assert (HP2 : 0 < 2 ^ k2) by (apply Z.pow_pos_nonneg; lia).
  assert (Hm3 : 0 < m3) by nia.
  destruct m3 as [|p|p] eqn:Em3; try lia.
  destruct (Z.leb_spec (e1 + k2) (emax - prec)) as [Hov|Hov]; [|left; reflexivity].
  right. exists p, (e1 + k2). split; [reflexivity|]. split.
  - unfold bounded, canonical_mantissa. apply andb_true_iff. split.
    + apply Z.eqb_eq. exact Hcanon.
    + apply Z.leb_le. exact Hov.
  - rewrite <- dy_shift by lia. rewrite Hexact.
    eapply Qle_trans; [exact HA|]. apply dy_le. lia.
Qed.

Lemma binary_round_ge s m e Ml El :
  0 < Ml < 2 ^ prec -> emin prec emax <= El ->
  (dy Ml El <= dy (Zpos m) e)%Q ->
  rounded_above prec emax s Ml El (binary_round prec emax s m e).
Proof.
  intros HMl HEl Hle. unfold binary_round.
  pose proof (shl_align_spec m e (fexp prec emax (Zpos (digits2_pos m) + e))) as Hs.
  destruct (shl_align m e _) as [mz ez]. cbn [fst snd] in Hs. destruct Hs as [He Hmz].
  assert (Hsh : 0 <= e - ez) by lia.
  assert (Hd : Zdigits2 (Zpos mz) = Zpos (digits2_pos m) + (e - ez)).
  { rewrite Hmz. apply (Zdigits2_shift (Zpos m)); lia. }
  apply binary_round_aux_ge; try assumption; try lia.
  - rewrite Hd. replace (Zpos (digits2_pos m) + (e - ez) + ez) with (Zpos (digits2_pos m) + e) by lia.
    lia.
  - rewrite Hmz, dy_shift by lia. now replace (ez + (e - ez)) with e by lia.
Qed.

Lemma SFmul_ge sx sy Mx Ex My Ey Ml El x y :
  rounded_above prec emax sx Mx Ex x -> rounded_above prec emax sy My Ey y ->
  0 <= Mx -> 0 <= My ->
  0 < Ml < 2 ^ prec -> emin prec emax <= El ->
  (dy Ml El <= dy Mx Ex * dy My Ey)%Q ->
  rounded_above prec emax (xorb sx sy) Ml El (SFmul prec emax x y).
Proof.
  intros [->|(mx & ex & -> & Bx & Hx)] [->|(my & ey & -> & By & Hy)] HMx HMy HMl HEl Hle;
    try (left; reflexivity).
  cbn [SFmul]. destruct (bounded_inv prec emax prec_pos _ _ Bx) as (Cx & _ & _ & Nx).
  destruct (bounded_inv prec emax prec_pos _ _ By) as (Cy & _ & _ & Ny).
  apply binary_round_aux_ge; try assumption; try lia.
  - pose proof (Zdigits2_mul (Zpos mx) (Zpos my) ltac:(lia) ltac:(lia)) as Hd.
    change (Zdigits2 (Zpos mx)) with (Zpos (digits2_pos mx)) in Hd.
    change (Zdigits2 (Zpos my)) with (Zpos (digits2_pos my)) in Hd.
    change (Zpos (mx * my)) with (Zpos mx * Zpos my).
    unfold fexp, emin in *. lia.
  - change (Zpos (mx * my)) with (Zpos mx * Zpos my). rewrite dy_mul.
    eapply Qle_trans; [exact Hle|].
    apply Qmult_le_compat_nonneg; (split; [apply dy_nonneg; lia|assumption]).
Qed.

End RoundingBelow.

Section ScaleEdge.
Variable hdr : Header (T:=spec_float).

Lemma ieee_of_int_ge x :
  0 < x -> rounded_above 24 128 false 1 0 (ieee_of_int single x).
Proof.
  intros Hx. unfold ieee_of_int. cbn [prec_of emax_of].
  destruct x as [|p|p]; try lia. cbn [binary_normalize].
  apply binary_round_ge; try lia; try reflexivity.
  - unfold emin. lia.
  - apply dy_le. lia.
Qed.

Lemma ieee_tenth_of_height x :
  0 < x -> rounded_above 24 128 false 13421773 (-27)
             (fmul single (lit single (1 # 10)) (of_int single x)).
Proof.
  intros Hx. cbn [fmul lit of_int ieee_arith prec_of emax_of].
  change false with (xorb false false).
  apply (SFmul_ge 24 128 ltac:(lia) ltac:(lia) false false 13421773 (-27) 1 0).
  - right. eexists _, _. split; [vm_compute; reflexivity|].
    split; [reflexivity|apply Qle_refl].
  - apply ieee_of_int_ge, Hx.
  - lia.
  - lia.
  - split; [lia|reflexivity].
  - unfold emin. lia.
  - apply Qle_bool_iff. reflexivity.
Qed.

(** X18.  In binary32 arithmetic, [resize] with a width that is 0 as an
    unsigned 32-bit number divides by zero: [scale.y] is +infinity, or NaN
    when the height is 0 as well. *)
Theorem resize_zero_width_scale w h r wld :
  w mod 2 ^ 32 = 0 ->
  (mScale (Renderer_resize hdr w h r wld).1).2 =
  if h mod 2 ^ 32 =? 0 then S754_nan else S754_infinity false.
Proof.
  intros Hw. rewrite resize_scale. cbn [snd]. rewrite Hw.
  destruct (Z.eqb_spec (h mod 2 ^ 32) 0) as [->|Hh]; [reflexivity|].
  pose proof (Z.mod_pos_bound h (2 ^ 32) eq_refl) as Hb.
  destruct (ieee_tenth_of_height (h mod 2 ^ 32) ltac:(lia)) as [Hx|(m & e & Hx & _)];
    rewrite Hx; reflexivity.
Qed.
End ScaleEdge.

(** ** Shader and program utilities: the successful path *)

Section ShaderSuccess.
Context {T : Type} `{Arith T}.
Variable env : Env (T:=T).

(** X19.  A [createShader] that returns a shader made exactly four calls:
    [glCreateShader], [glShaderSource] with the source it was given,
    [glCompileShader], and the query of the compile status, which was not 0.
    It logged nothing and deleted nothing. *)
Theorem createShader_success_calls ty src w :
  (createShader env ty src w).1 <> 0 ->
  exists st, st <> 0 /\
    trace (createShader env ty src w).2 = trace w ++
      [Called (GlCreateShader ty) (RInt (createShader env ty src w).1);
       Called (GlShaderSource (createShader env ty src w).1 src) RVoid;
       Called (GlCompileShader (createShader env ty src w).1) RVoid;
       Called (GlGetShaderiv (createShader env ty src w).1 GL_COMPILE_STATUS) (RInt st)].
Proof.
  unfold createShader. run_monad; show_trace; intros Hne; try (now elim Hne).
  all: eexists; split; [|reflexivity]; now apply Z.eqb_neq.
Qed.

Lemma createProgram_body_success vtx fragSrc w :
  let res := createProgram_body env vtx fragSrc w in
  res.1.2 <> 0 ->
  let frag := createShader env GL_FRAGMENT_SHADER fragSrc w in
  vtx <> 0 /\ frag.1 <> 0 /\ res.1.1 = frag.1 /\
  exists st, st <> 0 /\
    trace res.2 = trace frag.2 ++
      [Called GlCreateProgram (RInt res.1.2);
       Called (GlAttachShader res.1.2 vtx) RVoid;
       Called (GlAttachShader res.1.2 frag.1) RVoid;
       Called (GlLinkProgram res.1.2) RVoid;
       Called (GlGetProgramiv res.1.2 GL_LINK_STATUS) (RInt st)].
Proof.
  unfold createProgram_body. cbn zeta.
  destruct (vtx =? 0) eqn:Ev.
  - rewrite ret_run. cbn [fst snd]. intros Hne. now elim Hne.
  - rewrite bind_run.
    destruct (createShader env GL_FRAGMENT_SHADER fragSrc w) as [frag w1].
    cbn [fst snd] in *. apply Z.eqb_neq in Ev.
    run_monad; show_trace; intros Hne; try (now elim Hne).
    all: repeat match goal with
           | E : (_ =? 0) = false |- _ => apply Z.eqb_neq in E
           end.
    all: repeat (split; [assumption || reflexivity|]).
    all: eexists; split; [|reflexivity]; assumption.
Qed.

(** X20.  A [createProgram] that returns a program compiled the vertex
    shader, then the fragment shader, and then made exactly these calls:
    [glCreateProgram], the attachment of the vertex and of the fragment
    shader, [glLinkProgram], the query of the link status, which was not 0,
    and [glDeleteShader] for both shaders. *)
Theorem createProgram_success_calls vtxSrc fragSrc w :
  let program := (createProgram env vtxSrc fragSrc w).1 in
  program <> 0 ->
  let vtx := createShader env GL_VERTEX_SHADER vtxSrc w in
  let frag := createShader env GL_FRAGMENT_SHADER fragSrc vtx.2 in
  vtx.1 <> 0 /\ frag.1 <> 0 /\
  exists st, st <> 0 /\
    trace (createProgram env vtxSrc fragSrc w).2 = trace frag.2 ++
      [Called GlCreateProgram (RInt program);
       Called (GlAttachShader program vtx.1) RVoid;
       Called (GlAttachShader program frag.1) RVoid;
       Called (GlLinkProgram program) RVoid;
       Called (GlGetProgramiv program GL_LINK_STATUS) (RInt st);
       Called (GlDeleteShader vtx.1) RVoid;
       Called (GlDeleteShader frag.1) RVoid].
Proof.
  cbn zeta. unfold createProgram. rewrite bind_run.
  destruct (createShader env GL_VERTEX_SHADER vtxSrc w) as [vtx w1].
  cbn [fst snd]. rewrite bind_run.
  pose proof (createProgram_body_success vtx fragSrc w1) as Hb. cbn zeta in Hb.
  destruct (createProgram_body env vtx fragSrc w1) as [[frag prog] w2].
  cbn [fst snd] in *. unfold call_void. rewrite !bind_run, !emit_run, ret_run. cbn [fst snd].
  intros Hne. destruct (Hb Hne) as (Hv & Hf & -> & st & Hst & Htr).
  split; [exact Hv|]. split; [exact Hf|]. exists st. split; [exact Hst|].
  rewrite !trace_record, Htr, <- !app_assoc. reflexivity.
Qed.
End ShaderSuccess.

(** ** Renderer: the draws behind the arrays *)

Section CountedLoops.
Context {T : Type}.
Lemma for_loop_counted_state {A} (P : nat -> A -> World (T:=T) -> Prop)
    (body : nat -> A -> M (T:=T) A) bound :
  (forall j a w, (j < bound)%nat -> P j a w -> P (j + 1)%nat (body j a w).1 (body j a w).2) ->
  forall fuel i a w,
    (bound - i <= fuel)%nat -> (i <= bound)%nat -> P i a w ->
    P bound (for_loop fuel i bound 1 body a w).1 (for_loop fuel i bound 1 body a w).2.
Proof.
  intros Hbody fuel. induction fuel as [|fuel IH]; intros i a w Hfuel Hi Hw; cbn [for_loop].
  - replace bound with i by lia. exact Hw.
  - destruct (Nat.ltb_spec i bound) as [Hlt|Hge].
    + rewrite bind_run. apply IH; [lia|lia|]. now apply Hbody.
    + replace bound with i by lia. exact Hw.
Qed.
End CountedLoops.

Section DrawProps.
Context {T : Type} `{Arith T}.
Variable hdr : Header (T:=T).

Lemma calcSceneParams_body_seeds s j a w :
  (j < MAX_INSTANCES_ITEM hdr * 2)%nat ->
  seeded_below hdr s j a w ->
  seeded_below hdr s (j + 1) (calcSceneParams_body j a w).1 (calcSceneParams_body j a w).2.
Proof.
  intros Hj (Hr & Ho & L1 & L2 & L3 & Hs). unfold calcSceneParams_body, seeded_below.
  rewrite !bind_run. unfold drand48, mret, M_ret.
  cbn [fst snd rand48 localOffset mVx mVy offsetRatio with_offsetBuf with_mVy with_mVx
       with_localOffset].
  rewrite !length_insert, Hr, Ho.
  replace (3 * (j + 1))%nat with (S (S (S (3 * j)))) by lia. rewrite !Nat.iter_succ.
  repeat (split; [reflexivity || assumption|]).
  intros i Hi. destruct (Nat.eq_dec i j) as [->|Hne].
  - rewrite !list_lookup_insert_eq by lia.
    replace (3 * j + 1)%nat with (S (3 * j)) by lia.
    replace (3 * j + 2)%nat with (S (S (3 * j))) by lia.
    replace (3 * j + 3)%nat with (S (S (S (3 * j)))) by lia.
    rewrite !Nat.iter_succ. repeat split; reflexivity.
  - rewrite !list_lookup_insert_ne by congruence. apply Hs. lia.
Qed.

Lemma calcSceneParams_seeds w h r wld :
  seeded_below hdr (rand48 wld) (MAX_INSTANCES_ITEM hdr * 2)
    (Renderer_calcSceneParams hdr w h r wld).1 (Renderer_calcSceneParams hdr w h r wld).2.
Proof.
  unfold Renderer_calcSceneParams. cbn zeta. rewrite bind_run. cbn [fst snd].
  match goal with |- context [(for_loop ?f0 ?i0 ?b0 1 ?body ?r0 wld).1] =>
    pose proof (for_loop_counted_state (seeded_below hdr (rand48 wld)) body b0
                  (fun j a w0 Hj Hp => calcSceneParams_body_seeds (rand48 wld) j a w0 Hj Hp)
                  f0 i0 r0 wld ltac:(lia) ltac:(lia)) as Hl;
    set (res := for_loop f0 i0 b0 1 body r0 wld) in *
  end.
  destruct Hl as (Hr & Ho & L1 & L2 & L3 & Hs).
  { unfold seeded_below. cbn [localOffset mVx mVy offsetRatio]. rewrite !length_replicate.
    repeat (split; [reflexivity|]). intros i Hi. lia. }
  unfold seeded_below. unfold mret, M_ret.
  cbn [fst snd with_mScale localOffset mVx mVy offsetRatio].
  repeat (split; [assumption|]). exact Hs.
Qed.

Lemma resize_body_spins s r0 j a w :
  spun_below hdr s r0 j a w ->
  spun_below hdr s r0 (j + 1) (resize_body hdr j a w).1 (resize_body hdr j a w).2.
Proof.
  intros (Hr & L1 & L2 & Hs). unfold resize_body, spun_below.
  rewrite !bind_run. unfold drand48, mret, M_ret.
  cbn [fst snd rand48 mAngles mAngularVelocity with_mAngles with_mAngularVelocity].
  rewrite !length_insert, Hr.
  replace (2 * (j + 1))%nat with (S (S (2 * j))) by lia. rewrite !Nat.iter_succ.
  repeat (split; [reflexivity || assumption|]).
  intros i Hi Hi1 Hi2. destruct (Nat.eq_dec i j) as [->|Hne].
  - rewrite !list_lookup_insert_eq by lia.
    replace (2 * j + 1)%nat with (S (2 * j)) by lia.
    replace (2 * j + 2)%nat with (S (S (2 * j))) by lia.
    rewrite !Nat.iter_succ. split; reflexivity.
  - rewrite !list_lookup_insert_ne by congruence. apply Hs; lia.
Qed.

(** X21.  [resize] fills the arrays from consecutive draws of [drand48]:
    slot [i] of [localOffset], [mVx] and [mVy] holds the offset and the two
    speeds computed from draws [3i+1], [3i+2] and [3i+3] after the state
    the generator was in. *)
Theorem resize_seeds_from_draws w h r wld i :
  (i < 2 * MAX_INSTANCES_ITEM hdr)%nat ->
  let draw n := Nat.iter n rand48_next (rand48 wld) in
  let r' := (Renderer_resize hdr w h r wld).1 in
  localOffset r' !! i = Some (seed_offset (draw (3 * i + 1)%nat)) /\
  mVx r' !! i = Some (seed_speed (draw (3 * i + 2)%nat)) /\
  mVy r' !! i = Some (seed_speed (draw (3 * i + 3)%nat)).
Proof.
  intros Hi. cbn zeta. rewrite resize_fst. cbn zeta.
  match goal with |- context [with_mLastFrameNs 0 (for_loop ?f0 ?i0 ?b0 ?s0 _ ?r0 ?w0).1] =>
    destruct (angles_same_motion hdr r0 f0 i0 b0 s0 w0) as (H1 & H2 & H3 & _) end.
  cbn [with_mLastFrameNs localOffset mVx mVy]. rewrite H1, H2, H3.
  destruct (calcSceneParams_seeds (w mod 2 ^ 32) (h mod 2 ^ 32) r
              (record (Called MapOffsetBuf RVoid) wld)) as (_ & _ & _ & _ & _ & Hs).
  apply Hs. lia.
Qed.

(** X22.  The second loop of [resize] gives instance [i], as far as the
    arrays reach, the angle computed from draw [6n+2i+1] and the angular
    velocity computed from draw [6n+2i+2], where [n] is
    [MAX_INSTANCES_ITEM]. *)
Theorem resize_angles_from_draws w h r wld i :
  (i < MAX_INSTANCES_ITEM hdr)%nat ->
  (i < length (mAngles r))%nat -> (i < length (mAngularVelocity r))%nat ->
  let draw n := Nat.iter n rand48_next (rand48 wld) in
  let r' := (Renderer_resize hdr w h r wld).1 in
  mAngles r' !! i =
    Some (seed_angle hdr (draw (6 * MAX_INSTANCES_ITEM hdr + 2 * i + 1)%nat)) /\
  mAngularVelocity r' !! i =
    Some (seed_spin hdr (draw (6 * MAX_INSTANCES_ITEM hdr + 2 * i + 2)%nat)).
Proof.
  intros Hi Hi1 Hi2. cbn zeta. rewrite resize_fst. cbn zeta.
  cbn [with_mLastFrameNs mAngles mAngularVelocity].
  set (c := Renderer_calcSceneParams hdr (w mod 2 ^ 32) (h mod 2 ^ 32) r
              (record (Called MapOffsetBuf RVoid) wld)).
  destruct (calcSceneParams_seeds (w mod 2 ^ 32) (h mod 2 ^ 32) r
              (record (Called MapOffsetBuf RVoid) wld)) as (Hr & _). fold c in Hr.
  cbn [record rand48] in Hr.
  assert (Hn : mNumInstances c.1 = MAX_INSTANCES_ITEM hdr) by apply calcSceneParams_instances.
  assert (Ha : mAngles c.1 = mAngles r /\ mAngularVelocity c.1 = mAngularVelocity r).
  { unfold c. rewrite calcSceneParams_fst. cbn zeta. cbn [with_mScale mAngles mAngularVelocity].
    match goal with |- context [(for_loop ?f0 ?i0 ?b0 ?s0 ?body ?r0 ?w0).1] =>
      generalize (for_loop_preserves
        (fun a => mAngles a = mAngles r /\ mAngularVelocity a = mAngularVelocity r) body) end.
    intros Hp. apply Hp; [|split; reflexivity].
    intros j a w0 [G1 G2]. unfold calcSceneParams_body. rewrite !bind_run.
    unfold mret, M_ret. cbn. now split. }
  destruct Ha as [Ha1 Ha2].
  rewrite Hn.
  set (w1 := record (Called UnmapOffsetBuf RVoid) c.2).
  pose proof (for_loop_counted_state (spun_below hdr (rand48 w1) c.1) (resize_body hdr)
                (MAX_INSTANCES_ITEM hdr)
                (fun j a w0 _ Hp => resize_body_spins (rand48 w1) c.1 j a w0 Hp)
                (MAX_INSTANCES_ITEM hdr) 0 c.1 w1 ltac:(lia) ltac:(lia)) as Hl.
  destruct Hl as (_ & _ & _ & Hs).
  { unfold spun_below. repeat (split; [reflexivity|]). intros ? ?. lia. }
  destruct (Hs i Hi ltac:(rewrite Ha1; exact Hi1) ltac:(rewrite Ha2; exact Hi2)) as [G1 G2].
  rewrite G1, G2. unfold w1. cbn [record rand48]. rewrite Hr.
  rewrite <- !Nat.iter_add. split; do 3 f_equal; lia.
Qed.
End DrawProps.

(** ** The elapsed time in binary floating point *)

Lemma rounded_between prec emax s Ml El Mb Eb r :
  rounded_within prec emax s Mb Eb r -> rounded_above prec emax s Ml El r ->
  exists m e, r = S754_finite s m e /\ bounded prec emax m e = true /\
    (dy Ml El <= dy (Zpos m) e <= dy Mb Eb)%Q.
Proof.
  intros [->|(m & e & -> & Hb & Hle)] [Hr|(m' & e' & Hr & _ & Hge)]; try discriminate Hr.
  injection Hr as <- <-. exists m, e. repeat split; assumption.
Qed.

Lemma ieee_elapsed_between n :
  0 < n < 2 ^ 64 ->
  exists m e, ieee_of_int single n = S754_finite false m e /\ bounded 24 128 m e = true /\
    (dy 1 0 <= dy (Zpos m) e <= dy 1 64)%Q.
Proof.
  intros [Hlo Hhi]. apply rounded_between; [|now apply ieee_of_int_ge].
  unfold ieee_of_int. cbn [prec_of emax_of]. destruct n as [|p|p]; try lia.
  cbn [binary_normalize]. apply binary_round_le; try lia; try reflexivity.
  - unfold emin. lia.
  - apply Qle_trans with (dy (2 ^ 64) 0); [apply dy_le; lia|].
    rewrite (dy_pow2 64 0) by lia. apply Qle_refl.
Qed.

(** X23.  In binary32 arithmetic, whenever the clock reading differs from
    the frame clock (as unsigned 64-bit numbers), [dt] is a number between
    [0.000000001f] and [2^64] times that: it is never zero, negative,
    infinite or NaN.  A reading below the frame clock wraps around to a
    large positive [dt]. *)
Theorem frame_dt_is_positive now last :
  (now - last) mod 2 ^ 64 <> 0 ->
  let dt := frame_dt (T:=spec_float) now last in
  let ns := ieee_value (lit single (1 # 1000000000)) in
  ieee_finite dt = true /\ (ns <= ieee_value dt <= inject_Z (2 ^ 64) * ns)%Q.
Proof.
  intros Hn. cbn zeta.
  pose proof (Z.mod_pos_bound (now - last) (2 ^ 64) eq_refl) as Hb.
  destruct (ieee_elapsed_between ((now - last) mod 2 ^ 64) ltac:(lia))
    as (m & e & Hx & Bx & Hlo & Hhi).
  assert (Hc : lit single (1 # 1000000000) = S754_finite false 9007199 (-53))
    by (vm_compute; reflexivity).
  unfold frame_dt. cbn [fmul of_int ieee_arith prec_of emax_of].
  change (ieee_lit single (1 # 1000000000)) with (lit single (1 # 1000000000)).
  rewrite Hc, Hx.
  destruct (rounded_between 24 128 false 9007199 (-53) 9007199 11
              (SFmul 24 128 (S754_finite false m e) (S754_finite false 9007199 (-53))))
    as (m' & e' & -> & _ & Hlo' & Hhi').
  - change false with (xorb false false).
    apply (SFmul_le 24 128 ltac:(lia) ltac:(lia) false false 1 64 9007199 (-53));
      try (unfold emin; lia).
    + right. exists m, e. repeat split; assumption.
    + right. eexists _, _. split; [reflexivity|]. split; [reflexivity|apply Qle_refl].
    + apply Qle_bool_iff. reflexivity.
  - change false with (xorb false false).
    apply (SFmul_ge 24 128 ltac:(lia) ltac:(lia) false false 1 0 9007199 (-53));
      try (unfold emin; lia).
    + right. exists m, e. repeat split; assumption.
    + right. eexists _, _. split; [reflexivity|]. split; [reflexivity|apply Qle_refl].
    + apply Qle_bool_iff. reflexivity.
  - cbn [ieee_finite ieee_value]. fold (dy (Zpos m') e'). fold (dy 9007199 (-53)).
    split; [reflexivity|]. split; [exact Hlo'|].
    eapply Qle_trans; [exact Hhi'|]. apply Qle_bool_iff. reflexivity.
Qed.

(** ** The bounce in binary floating point *)

(** *** What rounding to nearest computes *)

Lemma shr_iter_loc k m :
  0 <= m ->
  let res := Nat.iter (S k) shr_1 (Build_shr_record m false false) in
  shr_r res = Z.odd (m / 2 ^ Z.of_nat k) /\
  shr_s res = negb (m mod 2 ^ Z.of_nat k =? 0).
Proof.
  intros Hm. induction k as [|k IH]; cbn zeta in *.
  - cbn [Nat.iter]. rewrite shr_1_nonneg by exact Hm. cbn [shr_r shr_s].
    change (2 ^ Z.of_nat 0) with 1. rewrite Z.div_1_r, Z.mod_1_r. split; reflexivity.
  - rewrite Nat.iter_succ. destruct IH as [IHr IHs].
    pose proof (shr_iter (S k) m Hm) as [IHm _]. cbn zeta in IHm.
    destruct (Nat.iter (S k) shr_1 (Build_shr_record m false false)) as [mk rk sk] eqn:Ek.
    cbn [shr_m shr_r shr_s] in *.
    assert (Hmk : 0 <= mk) by (subst mk; apply Z.div_pos; lia).
    rewrite shr_1_nonneg by exact Hmk. cbn [shr_m shr_r shr_s].
    split; [now rewrite IHm|].
    rewrite IHr, IHs. rewrite (Nat2Z.inj_succ k), Z.pow_succ_r by lia.
    set (P := 2 ^ Z.of_nat k). assert (HP : 0 < P) by (apply Z.pow_pos_nonneg; lia).
    rewrite (Z.mul_comm 2 P), Z.rem_mul_r by lia.
    rewrite (Zmod_odd (m / P)).
    pose proof (Z.mod_pos_bound m P HP) as Hb.
    destruct (Z.odd (m / P)); destruct (Z.eqb_spec (m mod P) 0) as [E0|E0]; cbn [orb negb];
      symmetry; first [apply Z.eqb_eq; lia | apply negb_true_iff, Z.eqb_neq; lia
                      | apply negb_false_iff, Z.eqb_eq; lia].
Qed.

Lemma shr_loc m e n :
  0 <= m -> 0 < n ->
  exists res, shr (Build_shr_record m false false) e n = (res, e + n) /\
    shr_m res = m / 2 ^ n /\
    loc_of_shr_record res = loc_of_rem (m mod 2 ^ n) n.
Proof.
  intros Hm Hn. destruct n as [|p|p]; try lia. cbn [shr].
  rewrite iter_pos_nat. eexists. split; [reflexivity|].
  pose proof (shr_iter (Pos.to_nat p) m Hm) as Hs. cbn zeta in Hs.
  rewrite positive_nat_Z in Hs. destruct Hs as [Hq _]. split; [exact Hq|].
  destruct (Pos2Nat.is_succ p) as [k Hk].
  pose proof (shr_iter_loc k m Hm) as [Hr Hs]. cbn zeta in Hr, Hs.
  rewrite <- Hk in Hr, Hs.
  assert (HZ : Zpos p = Z.succ (Z.of_nat k)) by lia.
  unfold loc_of_rem. rewrite HZ, Z.pow_succ_r by lia.
  set (P := 2 ^ Z.of_nat k) in *. assert (HP : 0 < P) by (apply Z.pow_pos_nonneg; lia).
  rewrite (Z.mul_comm 2 P), Z.rem_mul_r by lia.
  pose proof (Z.mod_pos_bound m P HP) as Hb.
  destruct (Nat.iter (Pos.to_nat p) shr_1 _) as [mm r s]. cbn [shr_r shr_s loc_of_shr_record] in *.
  subst r s. rewrite (Zmod_odd (m / P)).
  destruct (Z.odd (m / P)); destruct (Z.eqb_spec (m mod P) 0) as [E0|E0]; cbn [negb].
  - rewrite E0. replace (0 + P * 1 =? 0) with false by (symmetry; apply Z.eqb_neq; lia).
    replace (2 * (0 + P * 1) ?= P * 2) with Eq by (symmetry; apply Z.compare_eq_iff; lia).
    reflexivity.
  - replace (m mod P + P * 1 =? 0) with false by (symmetry; apply Z.eqb_neq; lia).
    replace (2 * (m mod P + P * 1) ?= P * 2) with Gt by (symmetry; apply Z.compare_gt_iff; lia).
    reflexivity.
  - rewrite E0. replace (0 + P * 0 =? 0) with true by (symmetry; apply Z.eqb_eq; lia).
    reflexivity.
  - replace (m mod P + P * 0 =? 0) with false by (symmetry; apply Z.eqb_neq; lia).
    replace (2 * (m mod P + P * 0) ?= P * 2) with Lt by (symmetry; apply Z.compare_lt_iff; lia).
    reflexivity.
Qed.

Section Nearest.
Variables prec emax : Z.
Hypothesis prec_pos : 0 < prec.
Hypothesis prec_lt_emax : prec < emax.

Lemma shr_fexp_loc m e :
  0 <= m ->
  let k := Z.max 0 (fexp prec emax (Zdigits2 m + e) - e) in
  exists res, shr_fexp prec emax m e loc_Exact = (res, e + k) /\
    shr_m res = m / 2 ^ k /\
    loc_of_shr_record res = loc_of_rem (m mod 2 ^ k) k.
Proof.
  intros Hm k. unfold shr_fexp. cbn [shr_record_of_loc].
  destruct (Z.le_gt_cases (fexp prec emax (Zdigits2 m + e) - e) 0) as [Hle|Hgt].
  - replace k with 0 by lia. exists (Build_shr_record m false false).
    rewrite Z.add_0_r, Z.pow_0_r, Z.div_1_r, Z.mod_1_r. cbn [shr_m loc_of_shr_record].
    split; [|split; reflexivity].
    destruct (fexp prec emax (Zdigits2 m + e) - e); try reflexivity. lia.
  - replace k with (fexp prec emax (Zdigits2 m + e) - e) by lia.
    apply shr_loc; lia.
Qed.

(** What [binary_round_aux] computes from an exact input: the mantissa is
    cut at the exponent of the format and rounded to nearest, ties to
    even. *)
Lemma binary_round_aux_struct s m e :
  0 < m -> e <= fexp prec emax (Zdigits2 m + e) ->
  let e1 := fexp prec emax (Zdigits2 m + e) in
  let k := e1 - e in
  let m2 := round_nearest_even (m / 2 ^ k) (loc_of_rem (m mod 2 ^ k) k) in
  let r := binary_round_aux prec emax s m e loc_Exact in
  (m2 = 0 /\ r = S754_zero s) \/
  (0 < m2 /\
   ((r = S754_infinity s /\ emax < Zdigits2 m2 + e1) \/
    exists m' e', r = S754_finite s m' e' /\ bounded prec emax m' e' = true /\
                  (dy (Zpos m') e' == dy m2 e1)%Q /\
                  e' = e1 + Z.max 0 (fexp prec emax (Zdigits2 m2 + e1) - e1) /\
                  Zpos m' * 2 ^ (e' - e1) = m2)).
Proof.
  intros Hm Hin. cbn zeta. unfold binary_round_aux.
  pose proof (Zdigits2_bounds m Hm) as [Dlo Dhi].
  pose proof (Zdigits2_pos m Hm) as Dpos.
  destruct (shr_fexp_loc m e ltac:(lia)) as (r1 & E1 & Hq1 & Hl1). cbn zeta in *.
  rewrite E1. clear E1.
  set (d := Zdigits2 m) in *. set (e1 := fexp prec emax (d + e)) in *.
  replace (Z.max 0 (e1 - e)) with (e1 - e) in * by lia.
  replace (e + (e1 - e)) with e1 by lia.
  set (k := e1 - e) in *. assert (Hk : 0 <= k) by lia.
  assert (Hek : e + k = e1) by (unfold k; lia).
  assert (HP : 0 < 2 ^ k) by (apply Z.pow_pos_nonneg; lia).
  rewrite Hl1, Hq1. set (m1 := m / 2 ^ k) in *.
  assert (Hm1 : 0 <= m1) by (apply Z.div_pos; lia).
  destruct (round_nearest_even_bounds m1 (loc_of_rem (m mod 2 ^ k) k)) as [Hr _].
  set (m2 := round_nearest_even m1 (loc_of_rem (m mod 2 ^ k) k)) in *.
  destruct (shr_fexp_exact prec emax m2 e1 ltac:(lia)) as (r2 & E2 & Hq2 & _). cbn zeta in *.
  rewrite E2. clear E2.
  set (k2 := Z.max 0 (fexp prec emax (Zdigits2 m2 + e1) - e1)) in *.
  assert (Hk2 : 0 <= k2) by lia.
  set (m3 := shr_m r2) in *.
  destruct (Z.eq_dec m2 0) as [Hz|Hnz].
  { left. split; [exact Hz|]. rewrite Hq2, Hz, Z.div_0_l; [reflexivity|].
    apply Z.pow_nonzero; lia. }
  right. split; [lia|].
  assert (HC : m3 * 2 ^ k2 = m2 /\ fexp prec emax (Zdigits2 m3 + (e1 + k2)) = e1 + k2).
  { destruct (Z.eq_dec m1 0) as [Hz1|Hnz1].
    - assert (Hsmall : m < 2 ^ k).
      { unfold m1 in Hz1. apply Z.div_small_iff in Hz1; lia. }
      assert (d <= k).
      { destruct (Z.le_gt_cases d k); [assumption|].
        assert (2 ^ k <= 2 ^ (d - 1)) by (apply Z.pow_le_mono_r; lia). lia. }
      assert (Hm2 : m2 = 1) by lia.
      assert (Hk0 : k2 = 0) by (unfold k2, e1, fexp, emin in *; rewrite Hm2; cbn; lia).
      assert (Hm31 : m3 = 1) by (rewrite Hq2, Hm2, Hk0; reflexivity).
      rewrite Hm31, Hk0, Hm2. split; [reflexivity|]. unfold e1, fexp, emin in *. cbn. lia.
    - assert (Hd1 : Zdigits2 m1 = d - k) by (apply Zdigits2_div; lia).
      assert (Hd2 : Zdigits2 m2 = d - k \/ (m2 = 2 ^ (d - k) /\ Zdigits2 m2 = d - k + 1)).
      { destruct (Z.eq_dec m2 m1) as [->|Hne]; [left; assumption|].
        replace m2 with (m1 + 1) by lia. rewrite <- Hd1. apply Zdigits2_succ. lia. }
      pose proof (Zdigits2_pos m1 ltac:(lia)) as Hd1pos.
      destruct Hd2 as [Hd2|[Hpow Hd2]].
      + assert (Hk0 : k2 = 0) by (unfold k2, e1, fexp, emin in *; rewrite Hd2; lia).
        assert (Hm32 : m3 = m2) by (rewrite Hq2, Hk0, Z.pow_0_r; apply Z.div_1_r).
        rewrite Hm32, Hd2, Hk0, Z.pow_0_r. split; [lia|]. unfold e1, fexp, emin in *. lia.
      + assert (Hk2c : k2 = 0 \/ k2 = 1) by (unfold k2, e1, fexp, emin in *; rewrite Hd2; lia).
        destruct Hk2c as [Hk0|Hk1].
        * assert (Hm32 : m3 = m2) by (rewrite Hq2, Hk0, Z.pow_0_r; apply Z.div_1_r).
          rewrite Hm32, Hd2, Hk0, Z.pow_0_r. split; [lia|].
          unfold k2, e1, fexp, emin in *. rewrite Hd2 in Hk0. lia.
        * assert (Hpw : 2 ^ (d - k) = 2 ^ (d - k - 1) * 2).
          { rewrite Z.mul_comm, <- (Z.pow_succ_r 2 (d - k - 1)) by lia. f_equal. lia. }
          assert (Hm33 : m3 = 2 ^ (d - k - 1)).
          { rewrite Hq2, Hpow, Hk1, Hpw. change (2 ^ 1) with 2. apply Z.div_mul. lia. }
          split.
          -- rewrite Hm33, Hk1, Hpow, Hpw. reflexivity.
          -- rewrite Hm33, Zdigits2_pow2 by lia.
             unfold k2, e1, fexp, emin in *. rewrite Hd2 in Hk1. lia. }
  destruct HC as [Hexact Hcanon].
  assert (HP2 : 0 < 2 ^ k2) by (apply Z.pow_pos_nonneg; lia).
  assert (Hm3 : 0 < m3) by nia.
  assert (Hdig : Zdigits2 m2 = Zdigits2 m3 + k2).
  { rewrite <- Hexact. apply Zdigits2_shift; lia. }
  destruct m3 as [|p|p] eqn:Em3; try lia.
  destruct (Z.leb_spec (e1 + k2) (emax - prec)) as [Hov|Hov].
  - right. exists p, (e1 + k2). split; [reflexivity|]. split.
    + unfold bounded, canonical_mantissa. apply andb_true_iff. split.
      * apply Z.eqb_eq. exact Hcanon.
      * apply Z.leb_le. exact Hov.
    + split; [rewrite <- dy_shift by lia; rewrite Hexact; reflexivity|].
      split; [reflexivity|]. replace (e1 + k2 - e1) with k2 by lia. exact Hexact.
  - left. split; [reflexivity|]. rewrite Hdig. unfold fexp, emin in Hcanon. lia.
Qed.

Lemma dy_one_lt_inv a b : (dy 1 a < dy 1 b)%Q -> a < b.
Proof.
  intros Hlt. destruct (Z.lt_ge_cases a b) as [|Hge]; [assumption|exfalso].
  apply (Qlt_irrefl (dy 1 a)). eapply Qlt_le_trans; [exact Hlt|]. now apply dy_one_mono.
Qed.

(** Up to half a unit in the last place above a number of the format whose
    mantissa is even, rounding to nearest goes down to that number. *)
Lemma binary_round_aux_half s m e Mb Eb :
  0 < m -> e <= fexp prec emax (Zdigits2 m + e) ->
  2 ^ (prec - 1) <= Mb < 2 ^ prec -> Z.even Mb = true ->
  emin prec emax <= Eb -> Eb + prec <= emax ->
  (dy m e <= dy (2 * Mb + 1) (Eb - 1))%Q ->
  rounded_within prec emax s Mb Eb (binary_round_aux prec emax s m e loc_Exact).
Proof.
  intros Hm Hin [HMlo HMhi] Hev HEb Hfin Hle.
  destruct (Qlt_le_dec (dy Mb Eb) (dy m e)) as [Hgt|Hsmall];
    [|now apply binary_round_aux_le].
  pose proof (Zdigits2_bounds m Hm) as [Dlo Dhi].
  pose proof (Zdigits2_pos m Hm) as Dpos.
  assert (HPp : 0 < 2 ^ (prec - 1)) by (apply Z.pow_pos_nonneg; lia).
  assert (Hpw : 2 ^ prec = 2 * 2 ^ (prec - 1)).
  { rewrite <- Z.pow_succ_r by lia. f_equal. lia. }
  assert (Hd : Zdigits2 m + e = prec + Eb).
  { assert (H1 : Eb + (prec - 1) < e + Zdigits2 m).
    { apply dy_one_lt_inv. eapply Qle_lt_trans; [apply (dy_above_pow2 Mb Eb (prec - 1)); lia|].
      eapply Qlt_trans; [exact Hgt|]. apply dy_below_pow2; lia. }
    assert (H2 : e + (Zdigits2 m - 1) < Eb - 1 + (prec + 1)).
    { apply dy_one_lt_inv. eapply Qle_lt_trans; [apply (dy_above_pow2 m e (Zdigits2 m - 1)); lia|].
      eapply Qle_lt_trans; [exact Hle|]. apply dy_below_pow2; [lia|].
      rewrite Z.pow_add_r by lia. change (2 ^ 1) with 2. lia. }
    lia. }
  pose proof (binary_round_aux_struct s m e Hm Hin) as Hs. cbn zeta in Hs.
  rewrite Hd in Hs.
  assert (He1 : fexp prec emax (prec + Eb) = Eb) by (unfold fexp, emin in *; lia).
  rewrite He1 in Hs. rewrite Hd, He1 in Hin.
  set (k := Eb - e) in *. assert (Hk : 0 <= k) by (unfold k; lia).
  assert (Hgt' : Mb * 2 ^ k < m).
  { apply (dy_lt _ _ e). rewrite (dy_shift Mb e k) by lia.
    replace (e + k) with Eb by (unfold k; lia). exact Hgt. }
  assert (Hk1 : 1 <= k).
  { destruct (Z.eq_dec k 0) as [Hk0|]; [exfalso|lia].
    rewrite Hk0, Z.pow_0_r in Hgt'.
    assert (HE : Eb = e) by (unfold k in Hk0; lia). subst Eb.
    assert (Hm2 : (dy m e == dy (m * 2 ^ 1) (e - 1))%Q).
    { rewrite (dy_shift m (e - 1) 1) by lia. now replace (e - 1 + 1) with e by lia. }
    rewrite Hm2 in Hle. apply dy_le in Hle. change (2 ^ 1) with 2 in Hle. lia. }
  assert (Hle' : m <= (2 * Mb + 1) * 2 ^ (k - 1)).
  { apply (dy_le _ _ e). rewrite (dy_shift (2 * Mb + 1) e (k - 1)) by lia.
    replace (e + (k - 1)) with (Eb - 1) by (unfold k; lia). exact Hle. }
  assert (HQ : 0 < 2 ^ (k - 1)) by (apply Z.pow_pos_nonneg; lia).
  assert (Hpk : 2 ^ k = 2 * 2 ^ (k - 1)).
  { rewrite <- Z.pow_succ_r by lia. f_equal. lia. }
  assert (Hm1 : m / 2 ^ k = Mb).
  { symmetry. apply (Z.div_unique m (2 ^ k) Mb (m - Mb * 2 ^ k)); [|lia]. left. nia. }
  assert (Hrem : m mod 2 ^ k = m - Mb * 2 ^ k).
  { pose proof (Z.div_mod m (2 ^ k) ltac:(lia)) as Hdm. rewrite Hm1 in Hdm. lia. }
  assert (Hm2 : round_nearest_even (m / 2 ^ k) (loc_of_rem (m mod 2 ^ k) k) = Mb).
  { rewrite Hm1, Hrem. unfold loc_of_rem.
    replace (m - Mb * 2 ^ k =? 0) with false by (symmetry; apply Z.eqb_neq; lia).
    destruct (Z.compare_spec (2 * (m - Mb * 2 ^ k)) (2 ^ k)) as [Hc|Hc|Hc];
      cbn [round_nearest_even]; [now rewrite Hev|reflexivity|nia]. }
  rewrite Hm2 in Hs. destruct Hs as [[Hz _]|[_ [[_ Hov]|(m' & e' & -> & Hb & Hv & _)]]].
  - lia.
  - exfalso. pose proof (Zdigits2_bounds Mb ltac:(lia)) as [Glo _].
    assert (Zdigits2 Mb <= prec).
    { destruct (Z.le_gt_cases (Zdigits2 Mb) prec); [assumption|].
      assert (2 ^ prec <= 2 ^ (Zdigits2 Mb - 1)) by (apply Z.pow_le_mono_r; lia). lia. }
    lia.
  - right. exists m', e'. split; [reflexivity|]. split; [exact Hb|]. rewrite Hv. apply Qle_refl.
Qed.

(** A number of the format, given with a longer mantissa, is returned as it
    is. *)
Lemma binary_round_aux_representable s M E j :
  bounded prec emax M E = true -> 0 <= j ->
  binary_round_aux prec emax s (Zpos M * 2 ^ j) (E - j) loc_Exact = S754_finite s M E.
Proof.
  intros Hb Hj. destruct (bounded_inv prec emax prec_pos _ _ Hb) as (Hc & Hov & HM & HE).
  assert (HP : 0 < 2 ^ j) by (apply Z.pow_pos_nonneg; lia).
  assert (Hd : Zdigits2 (Zpos M * 2 ^ j) + (E - j) = Zpos (digits2_pos M) + E).
  { rewrite Zdigits2_shift by lia. cbn [Zdigits2]. lia. }
  pose proof (binary_round_aux_struct s (Zpos M * 2 ^ j) (E - j) ltac:(lia)) as Hs.
  cbn zeta in Hs. rewrite Hd, Hc in Hs. specialize (Hs ltac:(lia)).
  replace (E - (E - j)) with j in Hs by lia.
  rewrite Z.div_mul, Z.mod_mul in Hs by lia.
  unfold loc_of_rem in Hs. cbn [Z.eqb round_nearest_even] in Hs.
  cbn [Zdigits2] in Hs. rewrite Hc, Z.sub_diag in Hs. cbn [Z.max] in Hs.
  destruct Hs as [[Hz _]|[_ [[_ Hinf]|(m' & e' & -> & _ & _ & He' & Hm')]]].
  - lia.
  - unfold fexp, emin in Hc. lia.
  - rewrite Z.add_0_r in He'. subst e'. rewrite Z.sub_diag, Z.pow_0_r, Z.mul_1_r in Hm'.
    injection Hm' as ->. reflexivity.
Qed.

(** In the normal range, raising the exponent of the input by one raises
    the exponent of the result by one. *)
Lemma binary_round_aux_twice s m e m' e' :
  0 < m -> e <= fexp prec emax (Zdigits2 m + e) ->
  emin prec emax + prec <= Zdigits2 m + e ->
  binary_round_aux prec emax s m e loc_Exact = S754_finite s m' e' ->
  e' + 1 <= emax - prec ->
  binary_round_aux prec emax s m (e + 1) loc_Exact = S754_finite s m' (e' + 1).
Proof.
  intros Hm Hin Hnorm Hr Hov.
  pose proof (Zdigits2_bounds m Hm) as [Dlo Dhi].
  pose proof (Zdigits2_pos m Hm) as Dpos.
  pose proof (binary_round_aux_struct s m e Hm Hin) as Hs. cbn zeta in Hs.
  assert (H1 : fexp prec emax (Zdigits2 m + (e + 1)) = fexp prec emax (Zdigits2 m + e) + 1)
    by (unfold fexp, emin in *; lia).
  pose proof (binary_round_aux_struct s m (e + 1) Hm ltac:(lia)) as Ht. cbn zeta in Ht.
  rewrite H1 in Ht.
  set (e1 := fexp prec emax (Zdigits2 m + e)) in *.
  replace (e1 + 1 - (e + 1)) with (e1 - e) in Ht by lia.
  set (k := e1 - e) in *.
  set (m2 := round_nearest_even (m / 2 ^ k) (loc_of_rem (m mod 2 ^ k) k)) in *.
  rewrite Hr in Hs.
  destruct Hs as [[_ Hz]|[Hm2 [[Hinf _]|(m0 & e0 & Heq & Hb & _ & He0 & Hm0)]]];
    try discriminate.
  injection Heq as <- <-.
  destruct (bounded_inv prec emax prec_pos _ _ Hb) as (Hc & _ & _ & _).
  assert (HP : 0 < 2 ^ (e' - e1)) by (apply Z.pow_pos_nonneg; lia).
  assert (Hdig : Zdigits2 m2 = Zpos (digits2_pos m') + (e' - e1)).
  { rewrite <- Hm0. rewrite Zdigits2_shift by lia. reflexivity. }
  (* the rounded mantissa is at least as long as the input allows *)
  assert (Hk : 0 <= k) by (unfold k; lia).
  assert (HPk : 0 < 2 ^ k) by (apply Z.pow_pos_nonneg; lia).
  assert (Hlong : Zdigits2 m + e <= Zdigits2 m2 + e1).
  { pose proof (round_nearest_even_bounds (m / 2 ^ k) (loc_of_rem (m mod 2 ^ k) k)) as [[Hlo _] _].
    fold m2 in Hlo.
    assert (Hq : 0 < m / 2 ^ k).
    { apply Z.div_str_pos. split; [lia|].
      apply Z.le_trans with (2 ^ (Zdigits2 m - 1)); [|exact Dlo].
      apply Z.pow_le_mono_r; [lia|]. unfold k, e1, fexp, emin in *. lia. }
    pose proof (Zdigits2_div m k Hm Hk Hq) as Hd1.
    pose proof (Zdigits2_bounds (m / 2 ^ k) Hq) as [Qlo _].
    pose proof (Zdigits2_bounds m2 Hm2) as [_ Rhi].
    assert (Zdigits2 (m / 2 ^ k) <= Zdigits2 m2).
    { destruct (Z.le_gt_cases (Zdigits2 (m / 2 ^ k)) (Zdigits2 m2)); [assumption|].
      assert (2 ^ Zdigits2 m2 <= 2 ^ (Zdigits2 (m / 2 ^ k) - 1))
        by (apply Z.pow_le_mono_r; [lia|lia]). lia. }
    unfold k in *. lia. }
  assert (H2 : fexp prec emax (Zdigits2 m2 + (e1 + 1)) = fexp prec emax (Zdigits2 m2 + e1) + 1)
    by (unfold fexp, emin in *; lia).
  rewrite H2 in Ht.
  replace (fexp prec emax (Zdigits2 m2 + e1) + 1 - (e1 + 1))
    with (fexp prec emax (Zdigits2 m2 + e1) - e1) in Ht by lia.
  destruct Ht as [[Hz _]|[_ [[_ Hinf]|(m3 & e3 & -> & _ & _ & He3 & Hm3)]]].
  - lia.
  - exfalso. rewrite Hdig in Hinf. unfold fexp, emin in Hc. lia.
  - assert (He3' : e3 = e' + 1) by lia. clear He3. subst e3.
    replace (e' + 1 - (e1 + 1)) with (e' - e1) in Hm3 by lia.
    pose proof (eq_trans Hm3 (eq_sym Hm0)) as Heq.
    apply Z.mul_reg_r in Heq; [|lia]. congruence.
Qed.

Lemma binary_round_aux_valid s m e :
  0 < m -> e <= fexp prec emax (Zdigits2 m + e) ->
  valid_binary prec emax (binary_round_aux prec emax s m e loc_Exact) = true.
Proof.
  intros Hm Hin. pose proof (binary_round_aux_struct s m e Hm Hin) as Hs. cbn zeta in Hs.
  destruct Hs as [[_ ->]|[_ [[-> _]|(m' & e' & -> & Hb & _)]]]; try reflexivity. exact Hb.
Qed.

End Nearest.

Lemma dy_opp m e : (dy (- m) e == - dy m e)%Q.
Proof. unfold dy. rewrite inject_Z_opp. ring. Qed.

Lemma ieee_value_finite s m e : ieee_value (S754_finite s m e) = signed s (dy (Zpos m) e).
Proof. reflexivity. Qed.

Lemma rn_ext prec emax x x' y y' :
  (x == x')%Q -> (y == y')%Q -> rn prec emax x y -> rn prec emax x' y'.
Proof.
  intros Hx Hy (Hm & Hu & Hd). split; [|split].
  - intros M E H1 H2 H3. destruct (Hm M E H1 H2 H3) as [A B].
    split; intros Hle; rewrite <- Hy; [apply A|apply B]; rewrite Hx; exact Hle.
  - intros Hle. rewrite <- Hy. apply Hu. rewrite Hx. exact Hle.
  - intros Hle. rewrite <- Hy. apply Hd. rewrite Hx. exact Hle.
Qed.

Lemma rn_opp prec emax x y : rn prec emax x y -> rn prec emax (- x) (- y).
Proof.
  intros (Hm & Hu & Hd). split; [|split].
  - intros M E H1 H2 H3. destruct (Hm (- M) E ltac:(lia) H2 H3) as [A B].
    rewrite dy_opp in A, B. split; intros Hle.
    + assert (Hx : (- dy M E <= x)%Q) by lra. specialize (B Hx). lra.
    + assert (Hx : (x <= - dy M E)%Q) by lra. specialize (A Hx). lra.
  - intros Hle. assert (Hx : (- (1) - dy 1 (- prec) <= x)%Q) by lra. specialize (Hd Hx). lra.
  - intros Hle. assert (Hx : (x <= 1 + dy 1 (- prec))%Q) by lra. specialize (Hu Hx). lra.
Qed.

Lemma rn_of_mag prec emax s x a :
  (0 < x)%Q -> rn_mag prec emax x a -> rn prec emax (signed s x) (signed s a).
Proof.
  intros Hx (Ha & Hm & Hu).
  assert (Hpos : rn prec emax x a).
  { split; [|split].
    - intros M E H1 H2 H3. split; intros Hle.
      + assert (HM : 0 < M).
        { apply (dy_lt 0 M E). rewrite dy_zero. lra. }
        apply (Hm M E ltac:(lia) H2 H3). exact Hle.
      + destruct (Z.lt_ge_cases 0 M) as [HM|HM].
        * apply (Hm M E ltac:(lia) H2 H3). exact Hle.
        * assert (dy M E <= 0)%Q by (rewrite <- (dy_zero E); apply dy_le; lia). lra.
    - exact Hu.
    - intros _. lra. }
  destruct s; cbn [signed]; [apply rn_opp|]; exact Hpos.
Qed.

Section Rounds.
Variables prec emax : Z.
Hypothesis prec_two : 1 < prec.
Hypothesis prec_lt_emax : prec < emax.

Lemma prec_two_pos : 0 < prec.
Proof. lia. Qed.

Lemma one_dy : (dy (2 ^ (prec - 1)) (1 - prec) == 1)%Q.
Proof.
  rewrite dy_pow2 by lia. replace (1 - prec + (prec - 1)) with 0 by lia. reflexivity.
Qed.

Lemma one_half_dy : (dy (2 * 2 ^ (prec - 1) + 1) (1 - prec - 1) == 1 + dy 1 (- prec))%Q.
Proof.
  replace (2 * 2 ^ (prec - 1)) with (2 ^ prec)
    by (rewrite <- Z.pow_succ_r by lia; f_equal; lia).
  replace (1 - prec - 1) with (- prec) by lia.
  assert (H : (dy (2 ^ prec + 1) (- prec) == dy (2 ^ prec) (- prec) + dy 1 (- prec))%Q).
  { unfold dy. rewrite inject_Z_plus. ring. }
  rewrite H, dy_pow2 by lia. replace (- prec + prec) with 0 by lia. reflexivity.
Qed.

Lemma binary_round_aux_rounds s m e Mb Eb :
  0 < m -> e <= fexp prec emax (Zdigits2 m + e) ->
  Mb < 2 ^ prec -> emin prec emax <= Eb -> Eb + prec <= emax ->
  (dy m e <= dy Mb Eb)%Q ->
  rounds prec emax (signed s (dy m e)) (binary_round_aux prec emax s m e loc_Exact).
Proof.
  intros Hm Hin HMb HEb Hfin Hle.
  pose proof (binary_round_aux_le prec emax prec_two_pos prec_lt_emax s m e Mb Eb
                Hm Hin HMb HEb Hfin Hle) as Hr.
  set (r := binary_round_aux prec emax s m e loc_Exact) in *.
  assert (Hshape : exists a, (ieee_value r == signed s a)%Q /\ ieee_finite r = true /\
                     valid_binary prec emax r = true /\
                     (0 <= a)%Q /\
                     (r = S754_zero s /\ a = 0%Q \/
                      exists m' e', r = S754_finite s m' e' /\ a = dy (Zpos m') e')).
  { destruct Hr as [Hz|(m' & e' & Hf & Hb & _)].
    - exists 0%Q. rewrite Hz. repeat split; try reflexivity.
      + destruct s; reflexivity.
      + apply Qle_refl.
      + left. split; reflexivity.
    - exists (dy (Zpos m') e'). rewrite Hf. repeat split; try reflexivity.
      + exact Hb.
      + apply dy_nonneg. lia.
      + right. exists m', e'. split; reflexivity. }
  destruct Hshape as (a & Hv & Hf & Hvalid & Ha & Hcase).
  split; [exact Hf|]. split; [exact Hvalid|].
  apply (rn_ext prec emax (signed s (dy m e)) _ (signed s a)); [reflexivity|now symmetry|].
  apply rn_of_mag; [now apply dy_pos|].
  split; [exact Ha|]. split.
  - intros M E [HM0 HM] HE HEf. split; intros Hb.
    + pose proof (binary_round_aux_le prec emax prec_two_pos prec_lt_emax s m e M E
                    Hm Hin HM HE HEf Hb) as Hw. fold r in Hw.
      destruct Hcase as [[Hr0 ->]|(m' & e' & Hr' & ->)].
      * apply dy_nonneg. lia.
      * rewrite Hr' in Hw. destruct Hw as [Hw|(m2 & e2 & Hw & _ & Hw')]; [discriminate|].
        injection Hw as -> ->. exact Hw'.
    + pose proof (binary_round_aux_ge prec emax prec_two_pos s m e M E
                    Hm Hin (conj HM0 HM) HE Hb) as Hw. fold r in Hw.
      destruct Hcase as [[Hr0 ->]|(m' & e' & Hr' & ->)].
      * rewrite Hr0 in Hw. destruct Hw as [Hw|(m2 & e2 & Hw & _)]; discriminate.
      * rewrite Hr' in Hw. destruct Hw as [Hw|(m2 & e2 & Hw & _ & Hw')]; [discriminate|].
        injection Hw as -> ->. exact Hw'.
  - intros Hb. rewrite <- one_half_dy in Hb.
    assert (HP : 0 < 2 ^ (prec - 1)) by (apply Z.pow_pos_nonneg; lia).
    assert (Hpw : 2 ^ prec = 2 * 2 ^ (prec - 1)).
    { rewrite <- Z.pow_succ_r by lia. f_equal. lia. }
    pose proof (binary_round_aux_half prec emax prec_two_pos prec_lt_emax s m e
                  (2 ^ (prec - 1)) (1 - prec) Hm Hin ltac:(lia)) as Hw.
    fold r in Hw. rewrite <- one_dy.
    assert (Hev : Z.even (2 ^ (prec - 1)) = true).
    { replace (prec - 1) with (Z.succ (prec - 2)) by lia. rewrite Z.pow_succ_r by lia.
      apply Z.even_mul. }
    specialize (Hw Hev ltac:(unfold emin; lia) ltac:(lia) Hb).
    destruct Hcase as [[Hr0 ->]|(m' & e' & Hr' & ->)].
    + apply dy_nonneg. lia.
    + rewrite Hr' in Hw. destruct Hw as [Hw|(m2 & e2 & Hw & _ & Hw')]; [discriminate|].
      injection Hw as -> ->. exact Hw'.
Qed.

Lemma signed_bound s a B : (0 <= a)%Q -> (- B <= signed s a <= B)%Q -> (a <= B)%Q.
Proof. destruct s; cbn [signed]; intros Ha [H1 H2]; lra. Qed.

Lemma binary_round_rounds s m e Mb Eb :
  Mb < 2 ^ prec -> emin prec emax <= Eb -> Eb + prec <= emax ->
  (dy (Zpos m) e <= dy Mb Eb)%Q ->
  rounds prec emax (signed s (dy (Zpos m) e)) (binary_round prec emax s m e).
Proof.
  intros HMb HEb Hfin Hle. unfold binary_round.
  pose proof (shl_align_spec m e (fexp prec emax (Zpos (digits2_pos m) + e))) as Hs.
  destruct (shl_align m e _) as [mz ez]. cbn [fst snd] in Hs. destruct Hs as [He Hmz].
  assert (Hsh : 0 <= e - ez) by lia.
  assert (Hd : Zdigits2 (Zpos mz) = Zpos (digits2_pos m) + (e - ez)).
  { rewrite Hmz. apply (Zdigits2_shift (Zpos m)); lia. }
  assert (Hv : (dy (Zpos mz) ez == dy (Zpos m) e)%Q).
  { rewrite Hmz, dy_shift by lia. now replace (ez + (e - ez)) with e by lia. }
  assert (Hr : rounds prec emax (signed s (dy (Zpos mz) ez))
                 (binary_round_aux prec emax s (Zpos mz) ez loc_Exact)).
  { apply (binary_round_aux_rounds s (Zpos mz) ez Mb Eb); try assumption; try lia.
    - rewrite Hd.
      replace (Zpos (digits2_pos m) + (e - ez) + ez) with (Zpos (digits2_pos m) + e) by lia.
      lia.
    - rewrite Hv. exact Hle. }
  destruct Hr as (H1 & H2 & H3). split; [exact H1|]. split; [exact H2|].
  eapply rn_ext; [|reflexivity|exact H3]. destruct s; cbn [signed]; rewrite Hv; reflexivity.
Qed.

Lemma rn_zero : rn prec emax 0 0.
Proof.
  assert (Hu : (0 <= dy 1 (- prec))%Q) by (apply dy_nonneg; lia).
  split; [|split]; [intros M E _ _ _; split; intros H; exact H| |]; intros _; lra.
Qed.

Lemma binary_normalize_rounds z e Mb Eb :
  Mb < 2 ^ prec -> emin prec emax <= Eb -> Eb + prec <= emax ->
  (- dy Mb Eb <= dy z e <= dy Mb Eb)%Q ->
  rounds prec emax (dy z e) (binary_normalize prec emax z e false).
Proof.
  intros HMb HEb Hfin Hle. destruct z as [|p|p]; cbn [binary_normalize].
  - split; [reflexivity|]. split; [reflexivity|].
    eapply rn_ext; [symmetry; apply dy_zero|reflexivity|exact rn_zero].
  - apply (binary_round_rounds false p e Mb Eb); try assumption. apply Hle.
  - assert (Hn : (dy (Zneg p) e == signed true (dy (Zpos p) e))%Q).
    { cbn [signed]. change (Zneg p) with (- Zpos p). apply dy_opp. }
    destruct (binary_round_rounds true p e Mb Eb HMb HEb Hfin) as (H1 & H2 & H3).
    + rewrite Hn in Hle. cbn [signed] in Hle. destruct Hle as [Hle _]. lra.
    + split; [exact H1|]. split; [exact H2|].
      eapply rn_ext; [symmetry; exact Hn|reflexivity|exact H3].
Qed.

(** Numbers of the format next to 1 and -1. *)
Lemma bounded_grid m e :
  bounded prec emax m e = true -> (1 <= dy (Zpos m) e)%Q ->
  exists N, 2 ^ (prec - 1) <= N /\ (dy (Zpos m) e == dy N (1 - prec))%Q.
Proof.
  intros Hb Hone. destruct (bounded_inv prec emax prec_two_pos _ _ Hb) as (_ & _ & HM & _).
  assert (He : 1 - prec <= e).
  { destruct (Z.le_gt_cases (1 - prec) e) as [|Hlt]; [assumption|exfalso].
    assert (H1 : (dy (Zpos m) e < dy 1 (e + prec))%Q) by (apply dy_below_pow2; lia).
    assert (H2 : (dy 1 (e + prec) <= dy 1 0)%Q) by (apply dy_one_mono; lia).
    assert (H3 : (dy 1 0 == 1)%Q) by reflexivity. lra. }
  exists (Zpos m * 2 ^ (e - (1 - prec))).
  assert (Hv : (dy (Zpos m) e == dy (Zpos m * 2 ^ (e - (1 - prec))) (1 - prec))%Q).
  { rewrite dy_shift by lia. now replace (1 - prec + (e - (1 - prec))) with e by lia. }
  split; [|exact Hv].
  apply (dy_le _ _ (1 - prec)). rewrite <- Hv, one_dy. exact Hone.
Qed.

Lemma rn_refl r :
  ieee_finite r = true -> valid_binary prec emax r = true ->
  rn prec emax (ieee_value r) (ieee_value r).
Proof.
  intros Hf Hv.
  assert (Hu : (0 < dy 1 (- prec))%Q) by (apply dy_pos; lia).
  assert (H2u : (dy 1 (1 - prec) == 2 * dy 1 (- prec))%Q).
  { replace (1 - prec) with (- prec + 1) by lia. rewrite <- dy_pow2 by lia.
    unfold dy. change (inject_Z (2 ^ 1)) with 2%Q. ring. }
  assert (Hmag : forall m e, bounded prec emax m e = true ->
            (dy (Zpos m) e <= 1 + dy 1 (- prec))%Q -> (dy (Zpos m) e <= 1)%Q).
  { intros m e Hb Hle. destruct (Qlt_le_dec 1 (dy (Zpos m) e)) as [Hgt|]; [exfalso|assumption].
    destruct (bounded_grid m e Hb ltac:(lra)) as (N & HN & HvN).
    rewrite HvN in Hgt, Hle. rewrite <- one_dy in Hgt. apply dy_lt in Hgt.
    assert (H3 : (dy (2 ^ (prec - 1) + 1) (1 - prec) <= dy N (1 - prec))%Q)
      by (apply dy_le; lia).
    assert (H4 : (dy (2 ^ (prec - 1) + 1) (1 - prec) == 1 + dy 1 (1 - prec))%Q).
    { rewrite <- one_dy. unfold dy. rewrite inject_Z_plus. ring. }
    lra. }
  split; [|split].
  - intros M E _ _ _. split; intros H; exact H.
  - destruct r as [s0|s0| |s0 m e]; try discriminate Hf; cbn [ieee_value]; try (intros _; lra).
    fold (dy (Zpos m) e). pose proof (dy_nonneg (Zpos m) e ltac:(lia)) as Hpos.
    destruct s0; intros Hle; [lra|]. now apply Hmag.
  - destruct r as [s0|s0| |s0 m e]; try discriminate Hf; cbn [ieee_value]; try (intros _; lra).
    fold (dy (Zpos m) e). pose proof (dy_nonneg (Zpos m) e ltac:(lia)) as Hpos.
    destruct s0; intros Hle; [|lra].
    assert (dy (Zpos m) e <= 1)%Q by (apply (Hmag m e Hv); lra). lra.
Qed.

Lemma rounds_refl r :
  ieee_finite r = true -> valid_binary prec emax r = true ->
  rounds prec emax (ieee_value r) r.
Proof. intros Hf Hv. split; [exact Hf|]. split; [exact Hv|]. now apply rn_refl. Qed.

Lemma rounds_ext x x' r : (x == x')%Q -> rounds prec emax x r -> rounds prec emax x' r.
Proof.
  intros Hx (H1 & H2 & H3). split; [exact H1|]. split; [exact H2|].
  eapply rn_ext; [exact Hx|reflexivity|exact H3].
Qed.

Lemma SFmul_rounds x y Mb Eb :
  ieee_finite x = true -> valid_binary prec emax x = true ->
  ieee_finite y = true -> valid_binary prec emax y = true ->
  Mb < 2 ^ prec -> emin prec emax <= Eb -> Eb + prec <= emax ->
  (- dy Mb Eb <= ieee_value x * ieee_value y <= dy Mb Eb)%Q ->
  rounds prec emax (ieee_value x * ieee_value y) (SFmul prec emax x y).
Proof.
  intros Fx Vx Fy Vy HMb HEb Hfin Hle.
  assert (Hzero : forall s, rounds prec emax 0 (S754_zero s)).
  { intros s. split; [reflexivity|]. split; [reflexivity|]. exact rn_zero. }
  destruct x as [sx|sx| |sx mx ex]; try discriminate Fx;
    destruct y as [sy|sy| |sy my ey]; try discriminate Fy; cbn [SFmul].
  - eapply rounds_ext; [|apply Hzero]. cbn [ieee_value]. ring.
  - eapply rounds_ext; [|apply Hzero]. cbn [ieee_value]. ring.
  - eapply rounds_ext; [|apply Hzero]. cbn [ieee_value]. ring.
  - cbn [valid_binary] in Vx, Vy.
    destruct (bounded_inv prec emax prec_two_pos _ _ Vx) as (Cx & _ & _ & Nx).
    destruct (bounded_inv prec emax prec_two_pos _ _ Vy) as (Cy & _ & _ & Ny).
    rewrite !ieee_value_finite in *.
    assert (Hv : (signed (xorb sx sy) (dy (Zpos (mx * my)) (ex + ey)) ==
                  signed sx (dy (Zpos mx) ex) * signed sy (dy (Zpos my) ey))%Q).
    { change (Zpos (mx * my)) with (Zpos mx * Zpos my).
      destruct sx, sy; cbn [signed xorb]; rewrite dy_mul; ring. }
    eapply rounds_ext; [exact Hv|].
    apply (binary_round_aux_rounds _ _ _ Mb Eb); try assumption; try lia.
    + pose proof (Zdigits2_mul (Zpos mx) (Zpos my) ltac:(lia) ltac:(lia)) as Hd.
      change (Zdigits2 (Zpos mx)) with (Zpos (digits2_pos mx)) in Hd.
      change (Zdigits2 (Zpos my)) with (Zpos (digits2_pos my)) in Hd.
      change (Zpos (mx * my)) with (Zpos mx * Zpos my).
      unfold fexp, emin in *. lia.
    + rewrite <- Hv in Hle. eapply signed_bound; [|exact Hle]. apply dy_nonneg. lia.
Qed.

Lemma aligned_value s m e ez :
  ez <= e ->
  (dy (cond_Zopp s (Zpos (shl_align m e ez).1)) ez == signed s (dy (Zpos m) e))%Q.
Proof.
  intros Hle. pose proof (shl_align_spec m e ez) as [He Hm]. cbn zeta in *.
  replace (Z.min e ez) with ez in He by lia. rewrite He in Hm.
  assert (Hv : (dy (Zpos (shl_align m e ez).1) ez == dy (Zpos m) e)%Q).
  { rewrite Hm, dy_shift by lia. now replace (ez + (e - ez)) with e by lia. }
  destruct s; cbn [cond_Zopp signed]; [rewrite dy_opp|]; rewrite Hv; reflexivity.
Qed.

Lemma dy_add a b e : (dy (a + b) e == dy a e + dy b e)%Q.
Proof. unfold dy. rewrite inject_Z_plus. ring. Qed.

Lemma dy_sub a b e : (dy (a - b) e == dy a e - dy b e)%Q.
Proof.
  unfold Z.sub. rewrite dy_add, dy_opp. reflexivity.
Qed.

Lemma SFadd_rounds x y Mb Eb :
  ieee_finite x = true -> valid_binary prec emax x = true ->
  ieee_finite y = true -> valid_binary prec emax y = true ->
  Mb < 2 ^ prec -> emin prec emax <= Eb -> Eb + prec <= emax ->
  (- dy Mb Eb <= ieee_value x + ieee_value y <= dy Mb Eb)%Q ->
  rounds prec emax (ieee_value x + ieee_value y) (SFadd prec emax x y).
Proof.
  intros Fx Vx Fy Vy HMb HEb Hfin Hle.
  destruct x as [sx|sx| |sx mx ex]; try discriminate Fx;
    destruct y as [sy|sy| |sy my ey]; try discriminate Fy; cbn [SFadd].
  - assert (Hz : rounds prec emax 0 (if sx then if sy then S754_zero sx else S754_zero false
                                     else if sy then S754_zero false else S754_zero sx)).
    { destruct sx, sy; (split; [reflexivity|]; split; [reflexivity|]; exact rn_zero). }
    eapply rounds_ext; [|destruct sx, sy; exact Hz]. cbn [ieee_value]. ring.
  - eapply rounds_ext; [|apply (rounds_refl _ Fy Vy)]. cbn [ieee_value]. ring.
  - eapply rounds_ext; [|apply (rounds_refl _ Fx Vx)]. cbn [ieee_value]. ring.
  - rewrite !ieee_value_finite in *.
    assert (Hv : (dy (cond_Zopp sx (Zpos (shl_align mx ex (Z.min ex ey)).1) +
                      cond_Zopp sy (Zpos (shl_align my ey (Z.min ex ey)).1)) (Z.min ex ey) ==
                  signed sx (dy (Zpos mx) ex) + signed sy (dy (Zpos my) ey))%Q).
    { rewrite dy_add, !aligned_value by lia. reflexivity. }
    eapply rounds_ext; [exact Hv|].
    apply (binary_normalize_rounds _ _ Mb Eb); try assumption. rewrite Hv. exact Hle.
Qed.

Lemma SFsub_rounds x y Mb Eb :
  ieee_finite x = true -> valid_binary prec emax x = true ->
  ieee_finite y = true -> valid_binary prec emax y = true ->
  Mb < 2 ^ prec -> emin prec emax <= Eb -> Eb + prec <= emax ->
  (- dy Mb Eb <= ieee_value x - ieee_value y <= dy Mb Eb)%Q ->
  rounds prec emax (ieee_value x - ieee_value y) (SFsub prec emax x y).
Proof.
  intros Fx Vx Fy Vy HMb HEb Hfin Hle.
  destruct x as [sx|sx| |sx mx ex]; try discriminate Fx;
    destruct y as [sy|sy| |sy my ey]; try discriminate Fy; cbn [SFsub].
  - assert (Hz : rounds prec emax 0 (if sx then if sy then S754_zero false else S754_zero sx
                                     else if sy then S754_zero sx else S754_zero false)).
    { destruct sx, sy; (split; [reflexivity|]; split; [reflexivity|]; exact rn_zero). }
    eapply rounds_ext; [|destruct sx, sy; exact Hz]. cbn [ieee_value]. ring.
  - assert (Fn : ieee_finite (S754_finite (negb sy) my ey) = true) by reflexivity.
    eapply rounds_ext; [|apply (rounds_refl _ Fn Vy)].
    rewrite !ieee_value_finite. cbn [ieee_value]. destruct sy; cbn [negb signed]; ring.
  - eapply rounds_ext; [|apply (rounds_refl _ Fx Vx)]. cbn [ieee_value]. ring.
  - rewrite !ieee_value_finite in *.
    assert (Hv : (dy (cond_Zopp sx (Zpos (shl_align mx ex (Z.min ex ey)).1) -
                      cond_Zopp sy (Zpos (shl_align my ey (Z.min ex ey)).1)) (Z.min ex ey) ==
                  signed sx (dy (Zpos mx) ex) - signed sy (dy (Zpos my) ey))%Q).
    { rewrite dy_sub, !aligned_value by lia. reflexivity. }
    eapply rounds_ext; [exact Hv|].
    apply (binary_normalize_rounds _ _ Mb Eb); try assumption. rewrite Hv. exact Hle.
Qed.

(** A value of the format is its own rounding. *)
Lemma rn_exact x y M E :
  rn prec emax x y -> Z.abs M < 2 ^ prec -> emin prec emax <= E -> E + prec <= emax ->
  (x == dy M E)%Q -> (y == x)%Q.
Proof.
  intros (Hm & _) HM HE Hfin Hx. destruct (Hm M E HM HE Hfin) as [A B].
  rewrite Hx in *. apply Qle_antisym; [apply A|apply B]; apply Qle_refl.
Qed.

End Rounds.

Section Compare.
Variables prec emax : Z.
Hypothesis prec_pos : 0 < prec.

Lemma canonical_lt m1 e1 m2 e2 :
  bounded prec emax m1 e1 = true -> bounded prec emax m2 e2 = true -> e1 < e2 ->
  (dy (Zpos m1) e1 < dy (Zpos m2) e2)%Q.
Proof.
  intros B1 B2 Hlt.
  destruct (bounded_inv prec emax prec_pos _ _ B1) as (_ & _ & HM1 & HE1).
  destruct (bounded_inv prec emax prec_pos _ _ B2) as (C2 & _ & _ & _).
  pose proof (digits2_pos_bounds m2) as [Dlo _].
  assert (Hd : Zpos (digits2_pos m2) = prec) by (unfold fexp in C2; lia).
  rewrite Hd in Dlo.
  eapply Qlt_le_trans; [apply (dy_below_pow2 (Zpos m1) e1 prec); lia|].
  eapply Qle_trans; [apply (dy_one_mono (e1 + prec) (e2 + (prec - 1))); lia|].
  apply dy_above_pow2; lia.
Qed.

Lemma magnitude_compare m1 e1 m2 e2 :
  bounded prec emax m1 e1 = true -> bounded prec emax m2 e2 = true ->
  match (match e1 ?= e2 with Lt => Lt | Gt => Gt | Eq => Pos.compare_cont Eq m1 m2 end) with
  | Lt => (dy (Zpos m1) e1 < dy (Zpos m2) e2)%Q
  | Eq => (dy (Zpos m1) e1 == dy (Zpos m2) e2)%Q
  | Gt => (dy (Zpos m2) e2 < dy (Zpos m1) e1)%Q
  end.
Proof.
  intros B1 B2. destruct (Z.compare_spec e1 e2) as [He|He|He].
  - subst e2. change (Pos.compare_cont Eq m1 m2) with (Pos.compare m1 m2).
    destruct (Pos.compare_spec m1 m2) as [Hm|Hm|Hm].
    + subst m2. reflexivity.
    + apply dy_lt. lia.
    + apply dy_lt. lia.
  - now apply canonical_lt.
  - now apply canonical_lt.
Qed.

(** [<] on numbers of the format is [<] on their values. *)
Lemma SFltb_lt x y :
  ieee_finite x = true -> valid_binary prec emax x = true ->
  ieee_finite y = true -> valid_binary prec emax y = true ->
  SFltb x y = true <-> (ieee_value x < ieee_value y)%Q.
Proof.
  intros Fx Vx Fy Vy. unfold SFltb.
  destruct x as [sx|sx| |sx mx ex]; try discriminate Fx;
    destruct y as [sy|sy| |sy my ey]; try discriminate Fy;
    cbn [SFcompare ieee_value valid_binary] in *.
  - split; [discriminate|]. intros H. exfalso. apply (Qlt_irrefl 0). exact H.
  - fold (dy (Zpos my) ey). pose proof (dy_pos (Zpos my) ey ltac:(lia)) as Hp.
    destruct sy; split; try discriminate; try reflexivity; intros H; try lra.
  - fold (dy (Zpos mx) ex). pose proof (dy_pos (Zpos mx) ex ltac:(lia)) as Hp.
    destruct sx; split; try discriminate; try reflexivity; intros H; try lra.
  - fold (dy (Zpos mx) ex). fold (dy (Zpos my) ey).
    pose proof (dy_pos (Zpos mx) ex ltac:(lia)) as Hpx.
    pose proof (dy_pos (Zpos my) ey ltac:(lia)) as Hpy.
    pose proof (magnitude_compare mx ex my ey Vx Vy) as Hc.
    destruct sx, sy.
    + destruct (ex ?= ey); [destruct (Pos.compare_cont Eq mx my)| |]; cbn [CompOpp];
        split; try discriminate; try reflexivity; intros H; lra.
    + split; [intros _; lra|reflexivity].
    + split; [discriminate|intros H; lra].
    + destruct (ex ?= ey); [destruct (Pos.compare_cont Eq mx my)| |];
        split; try discriminate; try reflexivity; intros H; lra.
Qed.

End Compare.

Lemma grid_opp prec y : grid prec y -> grid prec (- y).
Proof.
  intros Hg Hy. destruct Hg as (N & HN); [lra|].
  exists (- N). rewrite dy_opp, <- HN. reflexivity.
Qed.

Lemma float_grid prec emax r :
  1 < prec -> ieee_finite r = true -> valid_binary prec emax r = true ->
  grid prec (ieee_value r).
Proof.
  intros Hp Hf Hv Hy. destruct r as [s|s| |s m e]; try discriminate Hf; cbn [ieee_value] in *;
    try lra.
  fold (dy (Zpos m) e) in *. pose proof (dy_pos (Zpos m) e ltac:(lia)) as Hpos.
  destruct (bounded_grid prec emax Hp m e Hv) as (N & _ & HN).
  - destruct s; destruct Hy; lra.
  - destruct s; [exists (- N); rewrite dy_opp, HN|exists N; rewrite HN]; reflexivity.
Qed.

Lemma dy_m24 K : (dy K (-24) == inject_Z K * (1 # 16777216))%Q.
Proof. reflexivity. Qed.

Lemma dy_m23 K : (dy K (-23) == inject_Z K * (1 # 8388608))%Q.
Proof. reflexivity. Qed.

Lemma dy_0 K : (dy K 0 == inject_Z K)%Q.
Proof. unfold dy. change (2 ^ 0)%Q with 1%Q. ring. Qed.

(** The bounce at the upper wall, on the values: from an offset in [-1, 1]
    and a displacement of at most 1, when the moved offset rounds to more
    than 1, taking twice the displacement off again lands in [-1, 1]. *)
Lemma bounce_core (o D s o1 s2 o2 : Q) :
  (- (1) <= o <= 1)%Q -> (D <= 1)%Q ->
  rn 53 1024 (o + D) s -> rn 24 128 s o1 -> grid 24 o1 -> (1 < o1)%Q ->
  rn 53 1024 (o1 - 2 * D) s2 -> rn 24 128 s2 o2 ->
  (- (1) <= o2 <= 1)%Q.
Proof.
  intros [Ho1 Ho2] HD (Ms & _ & _) (Mo & Uo & _) Hg Hgt (Ms2 & _ & _) (Mo2 & _ & _).
  (* the moved offset is at most 2 *)
  assert (Hs2 : (s <= 2)%Q).
  { destruct (Ms 2 0 ltac:(cbn; lia) ltac:(unfold emin; lia) ltac:(lia)) as [A _].
    rewrite dy_0 in A. apply A. change (inject_Z 2) with 2%Q. lra. }
  assert (Ho12 : (o1 <= 2)%Q).
  { destruct (Mo 2 0 ltac:(cbn; lia) ltac:(unfold emin; lia) ltac:(lia)) as [A _].
    rewrite dy_0 in A. apply A. exact Hs2. }
  destruct Hg as (N & HN); [lra|]. change (1 - 24) with (-23) in HN.
  assert (HNlo : 8388608 < N).
  { apply (dy_lt _ _ (-23)). rewrite <- HN.
    assert (H1 : (dy 8388608 (-23) == 1)%Q) by reflexivity. rewrite H1. exact Hgt. }
  assert (HNhi : N <= 16777216).
  { apply (dy_le _ _ (-23)). rewrite <- HN.
    assert (H2 : (dy 16777216 (-23) == 2)%Q) by reflexivity. rewrite H2. exact Ho12. }
  (* the sum that was rounded lies above the midpoint *)
  assert (Hmid : (dy (N + 8388608) (-24) < s)%Q).
  { destruct (Z.eq_dec N 8388609) as [->|Hne].
    - destruct (Qlt_le_dec (dy (8388609 + 8388608) (-24)) s) as [|Hle]; [assumption|exfalso].
      assert (H1 : (dy (8388609 + 8388608) (-24) == 1 + dy 1 (- (24)))%Q) by reflexivity.
      assert (o1 <= 1)%Q by (apply Uo; rewrite <- H1; exact Hle). lra.
    - destruct (Mo (N - 1) (-23) ltac:(cbn; lia) ltac:(unfold emin; lia) ltac:(lia)) as [A _].
      destruct (Qlt_le_dec (dy (N - 1) (-23)) s) as [Hlt|Hle].
      + eapply Qle_lt_trans; [|exact Hlt].
        assert (He : (dy (N - 1) (-23) == dy ((N - 1) * 2 ^ 1) (-24))%Q)
          by (rewrite (dy_shift (N - 1) (-24) 1) by lia; reflexivity).
        rewrite He. apply dy_le. change (2 ^ 1) with 2. lia.
      + exfalso. specialize (A Hle). rewrite HN in A. apply dy_le in A. lia. }
  assert (Hsum : (dy (N + 8388608) (-24) < o + D)%Q).
  { destruct (Ms (N + 8388608) (-24) ltac:(cbn; lia) ltac:(unfold emin; lia) ltac:(lia))
      as [A _].
    destruct (Qlt_le_dec (dy (N + 8388608) (-24)) (o + D)) as [|Hle]; [assumption|exfalso].
    specialize (A Hle). lra. }
  assert (Hback : (- (1) <= o1 - 2 * D <= 1)%Q).
  { rewrite dy_m24, inject_Z_plus in Hsum. rewrite dy_m23 in HN.
    change (inject_Z 8388608) with 8388608%Q in Hsum.
    remember (inject_Z N) as n. split; lra. }
  destruct Hback as [Hb1 Hb2].
  destruct (Ms2 1 0 ltac:(cbn; lia) ltac:(unfold emin; lia) ltac:(lia)) as [A1 _].
  destruct (Ms2 (-1) 0 ltac:(cbn; lia) ltac:(unfold emin; lia) ltac:(lia)) as [_ B1].
  destruct (Mo2 1 0 ltac:(cbn; lia) ltac:(unfold emin; lia) ltac:(lia)) as [A2 _].
  destruct (Mo2 (-1) 0 ltac:(cbn; lia) ltac:(unfold emin; lia) ltac:(lia)) as [_ B2].
  rewrite dy_0 in A1, B1, A2, B2.
  change (inject_Z 1) with 1%Q in *. change (inject_Z (-1)) with (- (1))%Q in *.
  split; [apply B2, B1, Hb1|apply A2, A1, Hb2].
Qed.

(** *** Doubling *)

Lemma magnitude_digits_lt m e K : 0 < m -> (dy 1 K < dy m e)%Q -> K < Zdigits2 m + e.
Proof.
  intros Hm Hlt. pose proof (Zdigits2_bounds m Hm) as [_ Dhi].
  pose proof (Zdigits2_pos m Hm) as Dpos.
  replace (Zdigits2 m + e) with (e + Zdigits2 m) by lia.
  apply dy_one_lt_inv. eapply Qlt_trans; [exact Hlt|]. apply dy_below_pow2; lia.
Qed.

Lemma magnitude_digits_le m e K : 0 < m -> (dy m e <= dy 1 K)%Q -> Zdigits2 m + e <= K + 1.
Proof.
  intros Hm Hle. pose proof (Zdigits2_bounds m Hm) as [Dlo _].
  pose proof (Zdigits2_pos m Hm) as Dpos.
  destruct (Z.le_gt_cases (Zdigits2 m + e) (K + 1)) as [|Hgt]; [assumption|exfalso].
  assert (H1 : (dy 1 (e + (Zdigits2 m - 1)) <= dy m e)%Q) by (apply dy_above_pow2; lia).
  assert (H2 : (dy 1 K < dy 1 (e + (Zdigits2 m - 1)))%Q).
  { replace (e + (Zdigits2 m - 1)) with (K + (e + (Zdigits2 m - 1) - K)) by lia.
    rewrite <- (dy_pow2 (e + (Zdigits2 m - 1) - K) K) by lia. apply dy_lt.
    assert (2 ^ 1 <= 2 ^ (e + (Zdigits2 m - 1) - K)) by (apply Z.pow_le_mono_r; lia).
    change (2 ^ 1) with 2 in *. lia. }
  lra.
Qed.

Lemma dy_twice m e : (dy m (e + 1) == 2 * dy m e)%Q.
Proof.
  rewrite <- (dy_shift m e 1) by lia. unfold dy. change (2 ^ 1) with 2.
  rewrite inject_Z_mult. change (inject_Z 2) with 2%Q. ring.
Qed.

Section Doubling.
Variables prec emax : Z.
Hypothesis prec_pos : 0 < prec.
Hypothesis prec_lt_emax : prec < emax.

Lemma product_input_ok mx ex my ey :
  bounded prec emax mx ex = true -> bounded prec emax my ey = true ->
  ex + ey <= fexp prec emax (Zdigits2 (Zpos (mx * my)) + (ex + ey)).
Proof.
  intros Bx By.
  destruct (bounded_inv prec emax prec_pos _ _ Bx) as (Cx & _ & _ & Nx).
  destruct (bounded_inv prec emax prec_pos _ _ By) as (Cy & _ & _ & Ny).
  pose proof (Zdigits2_mul (Zpos mx) (Zpos my) ltac:(lia) ltac:(lia)) as Hd.
  change (Zdigits2 (Zpos mx)) with (Zpos (digits2_pos mx)) in Hd.
  change (Zdigits2 (Zpos my)) with (Zpos (digits2_pos my)) in Hd.
  change (Zpos (mx * my)) with (Zpos mx * Zpos my).
  unfold fexp, emin in *. lia.
Qed.

Lemma bounded_twice m e :
  bounded prec emax m e = true -> emin prec emax + prec <= Zpos (digits2_pos m) + e ->
  e + 1 <= emax - prec -> bounded prec emax m (e + 1) = true.
Proof.
  intros Hb Hn Hov. destruct (bounded_inv prec emax prec_pos _ _ Hb) as (Hc & _ & _ & _).
  unfold bounded, canonical_mantissa. apply andb_true_iff. split.
  - apply Z.eqb_eq. unfold fexp, emin in *. lia.
  - apply Z.leb_le. exact Hov.
Qed.

(** [2 * x] for a normal [x]: the exponent goes up by one. *)
Lemma SFmul_two s m e :
  bounded prec emax m e = true -> emin prec emax + prec <= Zpos (digits2_pos m) + e ->
  e + 1 <= emax - prec ->
  SFmul prec emax (S754_finite false (Z.to_pos (2 ^ (prec - 1))) (2 - prec)) (S754_finite s m e) =
  S754_finite s m (e + 1).
Proof.
  intros Hb Hn Hov. cbn [SFmul xorb].
  assert (HP : 0 < 2 ^ (prec - 1)) by (apply Z.pow_pos_nonneg; lia).
  replace (Zpos (Z.to_pos (2 ^ (prec - 1)) * m)) with (Zpos m * 2 ^ (prec - 1))
    by (rewrite Pos2Z.inj_mul, Z2Pos.id by lia; lia).
  replace (2 - prec + e) with (e + 1 - (prec - 1)) by lia.
  apply binary_round_aux_representable; try assumption; try lia.
  now apply bounded_twice.
Qed.

Lemma SFmul_twice sx mx ex sy my ey m' e' :
  bounded prec emax mx ex = true -> bounded prec emax my ey = true ->
  emin prec emax + prec <= Zdigits2 (Zpos (mx * my)) + (ex + ey) ->
  SFmul prec emax (S754_finite sx mx ex) (S754_finite sy my ey) =
    S754_finite (xorb sx sy) m' e' ->
  e' + 1 <= emax - prec ->
  SFmul prec emax (S754_finite sx mx (ex + 1)) (S754_finite sy my ey) =
    S754_finite (xorb sx sy) m' (e' + 1).
Proof.
  intros Bx By Hn Hr Hov. cbn [SFmul] in *.
  replace (ex + 1 + ey) with (ex + ey + 1) by lia.
  apply binary_round_aux_twice; try assumption; try lia.
  now apply product_input_ok.
Qed.

Lemma shl_align_twice m e t :
  shl_align m (e + 1) (t + 1) = ((shl_align m e t).1, (shl_align m e t).2 + 1).
Proof.
  unfold shl_align. replace (t + 1 - (e + 1)) with (t - e) by lia.
  destruct (t - e); reflexivity.
Qed.

Lemma binary_round_twice s m e m' e' :
  emin prec emax + prec <= Zpos (digits2_pos m) + e ->
  binary_round prec emax s m e = S754_finite s m' e' ->
  e' + 1 <= emax - prec ->
  binary_round prec emax s m (e + 1) = S754_finite s m' (e' + 1).
Proof.
  intros Hn Hr Hov. unfold binary_round in *.
  replace (fexp prec emax (Zpos (digits2_pos m) + (e + 1)))
    with (fexp prec emax (Zpos (digits2_pos m) + e) + 1) by (unfold fexp, emin in *; lia).
  rewrite shl_align_twice.
  pose proof (shl_align_spec m e (fexp prec emax (Zpos (digits2_pos m) + e))) as Hs.
  destruct (shl_align m e _) as [mz ez]. cbn [fst snd] in *. destruct Hs as [He Hmz].
  assert (Hsh : 0 <= e - ez) by lia.
  assert (Hd : Zdigits2 (Zpos mz) = Zpos (digits2_pos m) + (e - ez)).
  { rewrite Hmz. apply (Zdigits2_shift (Zpos m)); lia. }
  apply binary_round_aux_twice; try assumption; try lia.
  rewrite Hd. replace (Zpos (digits2_pos m) + (e - ez) + ez) with (Zpos (digits2_pos m) + e) by lia.
  lia.
Qed.

End Doubling.

(** *** The operations of binary32 and binary64 *)

Lemma prec_of_two f : 1 < prec_of f.
Proof. destruct f; cbn; lia. Qed.

Lemma prec_lt_emax_of f : prec_of f < emax_of f.
Proof. destruct f; cbn; lia. Qed.

Lemma rounds_num f x r : rounds (prec_of f) (emax_of f) x r -> ieee_num f r.
Proof. intros (H1 & H2 & _). now split. Qed.

Lemma ieee_cast_rounds f x Mb Eb :
  ieee_finite x = true ->
  Mb < 2 ^ prec_of f -> emin (prec_of f) (emax_of f) <= Eb -> Eb + prec_of f <= emax_of f ->
  (- dy Mb Eb <= ieee_value x <= dy Mb Eb)%Q ->
  rounds (prec_of f) (emax_of f) (ieee_value x) (ieee_cast f x).
Proof.
  intros Fx HMb HEb Hfin Hle. destruct x as [s|s| |s m e]; try discriminate Fx.
  - split; [reflexivity|]. split; [reflexivity|].
    apply rn_zero.
  - cbn [ieee_cast]. rewrite ieee_value_finite in *.
    apply (binary_round_rounds _ _ (prec_of_two f) (prec_lt_emax_of f) s m e Mb Eb);
      try assumption.
    eapply signed_bound; [|exact Hle]. apply dy_nonneg. lia.
Qed.

(** Converting a number that the target format holds changes nothing of
    its value. *)
Lemma ieee_cast_value f x :
  ieee_finite x = true ->
  match x with
  | S754_finite _ m e =>
      Zpos m < 2 ^ prec_of f /\ emin (prec_of f) (emax_of f) <= e /\ e + prec_of f <= emax_of f
  | _ => True
  end ->
  ieee_num f (ieee_cast f x) /\ (ieee_value (ieee_cast f x) == ieee_value x)%Q.
Proof.
  intros Fx Hrep. destruct x as [s|s| |s m e]; try discriminate Fx.
  - split; [split; reflexivity|reflexivity].
  - destruct Hrep as (HM & HE & Hfin).
    assert (Hr : rounds (prec_of f) (emax_of f) (ieee_value (S754_finite s m e))
                   (ieee_cast f (S754_finite s m e))).
    { apply (ieee_cast_rounds f _ (Zpos m) e); try assumption; try reflexivity.
      rewrite ieee_value_finite. pose proof (dy_nonneg (Zpos m) e ltac:(lia)).
      destruct s; cbn [signed]; split; lra. }
    split; [eapply rounds_num; exact Hr|].
    destruct Hr as (_ & _ & Hrn).
    apply (rn_exact _ _ _ _ (if s then - Zpos m else Zpos m) e Hrn);
      try assumption.
    + destruct s; lia.
    + rewrite ieee_value_finite. destruct s; cbn [signed]; [rewrite dy_opp|]; reflexivity.
Qed.

Lemma ieee_widen x :
  ieee_num single x ->
  ieee_num double (ieee_cast double x) /\ (ieee_value (ieee_cast double x) == ieee_value x)%Q.
Proof.
  intros [Fx Vx]. apply ieee_cast_value; [exact Fx|].
  destruct x as [s|s| |s m e]; try exact I. cbn [valid_binary prec_of emax_of] in *.
  destruct (bounded_inv 24 128 ltac:(lia) _ _ Vx) as (_ & Hov & HM & HE).
  unfold emin in *. assert (2 ^ 24 < 2 ^ 53) by (apply Z.pow_lt_mono_r; lia). lia.
Qed.

Lemma ieee_cast_same f x :
  ieee_num f x ->
  ieee_num f (ieee_cast f x) /\ (ieee_value (ieee_cast f x) == ieee_value x)%Q.
Proof.
  intros [Fx Vx]. apply ieee_cast_value; [exact Fx|].
  destruct x as [s|s| |s m e]; try exact I. cbn [valid_binary] in Vx.
  pose proof (prec_of_two f).
  destruct (bounded_inv (prec_of f) (emax_of f) ltac:(lia) _ _ Vx) as (_ & Hov & HM & HE). lia.
Qed.

(** Comparison, on the values. *)
Lemma ieee_lt_value x y :
  ieee_num double x -> ieee_num double y ->
  ieee_lt x y = true <-> (ieee_value x < ieee_value y)%Q.
Proof.
  intros Hx Hy. unfold ieee_lt.
  destruct (ieee_cast_same double x Hx) as ([Fx Vx] & Ex).
  destruct (ieee_cast_same double y Hy) as ([Fy Vy] & Ey).
  rewrite (SFltb_lt 53 1024 ltac:(lia) _ _ Fx Vx Fy Vy), Ex, Ey. reflexivity.
Qed.

Lemma ieee_num_opp f x : ieee_num f x -> ieee_num f (SFopp x).
Proof. intros [Fx Vx]. destruct x; try discriminate Fx; split; try reflexivity; exact Vx. Qed.

Lemma ieee_value_opp x : (ieee_value (SFopp x) == - ieee_value x)%Q.
Proof.
  destruct x as [s|s| |s m e]; cbn [SFopp ieee_value]; try reflexivity.
  destruct s; cbn [negb]; ring.
Qed.

(** *** The displacement [v * dt * 0.1] and its double *)

Lemma lit_tenth : ieee_lit double (1 # 10) = S754_finite false 7205759403792794 (-56).
Proof. vm_compute. reflexivity. Qed.

Lemma of_int_two : ieee_of_int single 2 = S754_finite false 8388608 (-22).
Proof. vm_compute. reflexivity. Qed.

Lemma finite_within prec emax s m e :
  rounded_within prec emax s (Zpos m) e (S754_finite s m e) <->
  bounded prec emax m e = true.
Proof.
  split.
  - intros [Hz|(m' & e' & Heq & Hb & _)]; [discriminate|]. injection Heq as <- <-. exact Hb.
  - intros Hb. right. exists m, e. split; [reflexivity|]. split; [exact Hb|apply Qle_refl].
Qed.

Lemma signed_pos_iff s a b :
  (0 < a)%Q -> (0 < b)%Q -> (b < signed s a \/ signed s a < - b)%Q -> (b < a)%Q.
Proof. destruct s; cbn [signed]; intros Ha Hb [H|H]; lra. Qed.

Lemma ieee_displacement_doubled v dt :
  ieee_num single v -> (- (5) <= ieee_value v <= 5)%Q ->
  ieee_num single dt -> (0 <= ieee_value dt <= 2)%Q ->
  let D := fmul double (cast double (fmul single v dt)) (lit double (1 # 10)) in
  let D2 := fmul double (cast double (fmul single (fmul single (of_int single 2) v) dt))
              (lit double (1 # 10)) in
  (dy 1 (-53) < ieee_value D \/ ieee_value D < - dy 1 (-53))%Q ->
  ieee_num double D2 /\ (ieee_value D2 == 2 * ieee_value D)%Q.
Proof.
  intros [Fv Vv] Hv [Fd Vd] Hd. cbn zeta.
  cbn [fmul cast lit of_int ieee_arith prec_of emax_of]. rewrite lit_tenth, of_int_two.
  pose proof (dy_pos 1 (-53) ltac:(lia)) as Hu.
  destruct v as [sv|sv| |sv mv ev]; try discriminate Fv.
  { destruct dt as [sd|sd| |sd md ed]; try discriminate Fd;
      cbn [SFmul ieee_cast ieee_value]; intros [H|H]; lra. }
  destruct dt as [sd|sd| |sd md ed]; try discriminate Fd.
  { cbn [SFmul ieee_cast ieee_value]; intros [H|H]; lra. }
  cbn [valid_binary] in Vv, Vd. rewrite !ieee_value_finite in Hv, Hd.
  pose proof (dy_pos (Zpos mv) ev ltac:(lia)) as Pv.
  pose proof (dy_pos (Zpos md) ed ltac:(lia)) as Pd.
  assert (Hmv : (dy (Zpos mv) ev <= 5)%Q) by (apply (signed_bound sv); [|exact Hv]; lra).
  assert (Hmd : (dy (Zpos md) ed <= 2)%Q).
  { apply (signed_bound sd); [lra|]. split; [|apply Hd]. destruct Hd; lra. }
  (* the product [v * dt] *)
  assert (Hp : rounded_within 24 128 (xorb sv sd) 10 0
                 (SFmul 24 128 (S754_finite sv mv ev) (S754_finite sd md ed))).
  { apply (SFmul_le 24 128 ltac:(lia) ltac:(lia) sv sd (Zpos mv) ev (Zpos md) ed);
      try (apply finite_within; assumption); try (unfold emin; lia).
    assert (H10 : (dy 10 0 == 10)%Q) by reflexivity. rewrite H10. nra. }
  destruct Hp as [Hp|(mp & ep & Hp & Bp & Hp10)].
  { rewrite Hp. cbn [SFmul ieee_cast ieee_value]. intros [H|H]; lra. }
  set (sp := xorb sv sd) in *.
  pose proof (dy_pos (Zpos mp) ep ltac:(lia)) as Pp.
  destruct (bounded_inv 24 128 ltac:(lia) _ _ Bp) as (_ & Hovp & HMp & HEp).
  assert (H24 : 2 ^ 24 < 2 ^ 53) by (apply Z.pow_lt_mono_r; lia).
  (* widened to binary64 *)
  destruct (rounded_between 53 1024 sp (Zpos mp) ep (Zpos mp) ep
              (binary_round 53 1024 sp mp ep)) as (mP & eP & HP & BP & HPlo & HPhi).
  { apply binary_round_le; try lia; [unfold emin in *; lia|apply Qle_refl]. }
  { apply binary_round_ge; try lia; [unfold emin in *; lia|apply Qle_refl]. }
  assert (HPv : (dy (Zpos mP) eP == dy (Zpos mp) ep)%Q) by (apply Qle_antisym; assumption).
  (* times 0.1 *)
  set (mc := 7205759403792794%positive). set (ec := -56).
  assert (Bc : bounded 53 1024 mc ec = true) by reflexivity.
  assert (Hc1 : (dy (Zpos mc) ec < 1)%Q) by reflexivity.
  assert (Hc10 : (10 * dy (Zpos mc) ec <= 2)%Q) by (apply Qle_bool_iff; reflexivity).
  pose proof (dy_pos (Zpos mc) ec ltac:(lia)) as Pc.
  assert (HD : rounded_within 53 1024 (xorb sp false) 2 0
                 (SFmul 53 1024 (S754_finite sp mP eP) (S754_finite false mc ec))).
  { apply (SFmul_le 53 1024 ltac:(lia) ltac:(lia) sp false (Zpos mP) eP (Zpos mc) ec);
      try (apply finite_within; assumption); try (unfold emin; lia).
    assert (H2 : (dy 2 0 == 2)%Q) by reflexivity. rewrite H2, HPv.
    assert (H10 : (dy 10 0 == 10)%Q) by reflexivity. rewrite H10 in Hp10. nra. }
  rewrite Hp. cbn [ieee_cast prec_of emax_of]. rewrite HP.
  destruct HD as [HD|(mD & eD & HD & BD & HD2)].
  { rewrite HD. cbn [ieee_value]. intros [H|H]; lra. }
  rewrite HD, ieee_value_finite. intros Hbig.
  pose proof (dy_pos (Zpos mD) eD ltac:(lia)) as PD.
  apply signed_pos_iff in Hbig; [|exact PD|exact Hu].
  (* none of the intermediate results is small *)
  assert (HinD : (dy 1 (-53) < dy (Zpos (mP * mc)) (eP + ec))%Q).
  { destruct (Qlt_le_dec (dy 1 (-53)) (dy (Zpos (mP * mc)) (eP + ec))) as [|Hle];
      [assumption|exfalso].
    pose proof (binary_round_aux_le 53 1024 ltac:(lia) ltac:(lia) (xorb sp false)
                  (Zpos (mP * mc)) (eP + ec) 1 (-53) ltac:(lia)
                  (product_input_ok 53 1024 ltac:(lia) ltac:(lia) _ _ _ _ BP Bc)
                  ltac:(lia) ltac:(unfold emin; lia) ltac:(lia) Hle) as Hw.
    cbn [SFmul] in HD. rewrite HD in Hw.
    destruct Hw as [Hw|(m' & e' & Hw & _ & Hw')]; [discriminate|].
    injection Hw as <- <-. lra. }
  assert (Hpbig : (dy 1 (-53) < dy (Zpos mp) ep)%Q).
  { change (Zpos (mP * mc)) with (Zpos mP * Zpos mc) in HinD.
    rewrite dy_mul, HPv in HinD. nra. }
  assert (Hinp : (dy 1 (-53) < dy (Zpos (mv * md)) (ev + ed))%Q).
  { destruct (Qlt_le_dec (dy 1 (-53)) (dy (Zpos (mv * md)) (ev + ed))) as [|Hle];
      [assumption|exfalso].
    pose proof (binary_round_aux_le 24 128 ltac:(lia) ltac:(lia) sp
                  (Zpos (mv * md)) (ev + ed) 1 (-53) ltac:(lia)
                  (product_input_ok 24 128 ltac:(lia) ltac:(lia) _ _ _ _ Vv Vd)
                  ltac:(lia) ltac:(unfold emin; lia) ltac:(lia) Hle) as Hw.
    cbn [SFmul] in Hp. fold sp in Hp. rewrite Hp in Hw.
    destruct Hw as [Hw|(m' & e' & Hw & _ & Hw')]; [discriminate|].
    injection Hw as <- <-. lra. }
  assert (Hvbig : (dy 1 (-54) < dy (Zpos mv) ev)%Q).
  { change (Zpos (mv * md)) with (Zpos mv * Zpos md) in Hinp. rewrite dy_mul in Hinp.
    assert (H54 : (dy 1 (-53) == 2 * dy 1 (-54))%Q) by reflexivity. rewrite H54 in Hinp.
    pose proof (dy_pos 1 (-54) ltac:(lia)) as P54.
    set (a := dy (Zpos mv) ev) in *. set (b := dy (Zpos md) ed) in *.
    set (u := dy 1 (-54)) in *.
    assert (Hab : (a * b <= a * 2)%Q) by (apply Qmult_le_l; assumption).
    clearbody a b u. lra. }
  (* digits *)
  pose proof (magnitude_digits_lt (Zpos mv) ev (-54) ltac:(lia) Hvbig) as Dv1.
  pose proof (magnitude_digits_le (Zpos mv) ev 3 ltac:(lia)) as Dv2.
  specialize (Dv2 ltac:(assert (H8 : (dy 1 3 == 8)%Q) by reflexivity; rewrite H8; lra)).
  pose proof (magnitude_digits_lt (Zpos (mv * md)) (ev + ed) (-53) ltac:(lia) Hinp) as Dvd.
  pose proof (magnitude_digits_lt (Zpos mp) ep (-53) ltac:(lia) Hpbig) as Dp1.
  pose proof (magnitude_digits_le (Zpos mp) ep 4 ltac:(lia)) as Dp2.
  specialize (Dp2 ltac:(eapply Qle_trans; [exact Hp10|]; apply Qle_bool_iff; reflexivity)).
  pose proof (magnitude_digits_le (Zpos mP) eP 4 ltac:(lia)) as DP2.
  specialize (DP2 ltac:(rewrite HPv; eapply Qle_trans; [exact Hp10|]; apply Qle_bool_iff;
                        reflexivity)).
  pose proof (magnitude_digits_lt (Zpos (mP * mc)) (eP + ec) (-53) ltac:(lia) HinD) as DPc.
  pose proof (magnitude_digits_lt (Zpos mD) eD (-53) ltac:(lia) Hbig) as DD1.
  pose proof (magnitude_digits_le (Zpos mD) eD 1 ltac:(lia)) as DD2.
  specialize (DD2 ltac:(eapply Qle_trans; [exact HD2|]; apply Qle_bool_iff; reflexivity)).
  pose proof (Zdigits2_pos (Zpos mv) ltac:(lia)) as Qv.
  pose proof (Zdigits2_pos (Zpos mp) ltac:(lia)) as Qp.
  pose proof (Zdigits2_pos (Zpos mP) ltac:(lia)) as QP.
  pose proof (Zdigits2_pos (Zpos mD) ltac:(lia)) as QD.
  cbn [Zdigits2] in Dv1, Dv2, Dp1, Dp2, DP2, DD1, DD2, Qv, Qp, QP, QD.
  (* the doubled chain, link by link *)
  pose proof (SFmul_two 24 128 ltac:(lia) ltac:(lia) sv mv ev Vv
                ltac:(unfold emin; lia) ltac:(lia)) as E1.
  change (Z.to_pos (2 ^ (24 - 1))) with 8388608%positive in E1.
  change (2 - 24) with (-22) in E1. rewrite E1.
  pose proof (SFmul_twice 24 128 ltac:(lia) ltac:(lia) sv mv ev sd md ed mp ep Vv Vd
                ltac:(unfold emin; lia) Hp ltac:(lia)) as E2.
  rewrite E2. cbn [ieee_cast prec_of emax_of].
  pose proof (binary_round_twice 53 1024 ltac:(lia) ltac:(lia) sp mp ep mP eP
                ltac:(unfold emin; lia) HP ltac:(lia)) as E3.
  fold sp. rewrite E3.
  pose proof (SFmul_twice 53 1024 ltac:(lia) ltac:(lia) sp mP eP false mc ec mD eD BP Bc
                ltac:(unfold emin; lia) HD ltac:(lia)) as E4.
  rewrite E4. split.
  - split; [reflexivity|]. cbn [valid_binary].
    apply (bounded_twice 53 1024 ltac:(lia)); [exact BD|unfold emin; lia|lia].
  - rewrite !ieee_value_finite. destruct (xorb sp false); cbn [signed]; rewrite dy_twice; ring.
Qed.

(** *** One slot through [advance] *)

Lemma rn_between prec emax x y M E :
  rn prec emax x y -> Z.abs M < 2 ^ prec -> emin prec emax <= E -> E + prec <= emax ->
  (- dy M E <= x <= dy M E)%Q -> (- dy M E <= y <= dy M E)%Q.
Proof.
  intros (Hm & _) HM HE Hfin [H1 H2].
  destruct (Hm M E HM HE Hfin) as [A _].
  destruct (Hm (- M) E ltac:(lia) HE Hfin) as [_ B]. rewrite dy_opp in B.
  split; [apply B, H1|apply A, H2].
Qed.

Lemma ieee_advance_in_range o v dt :
  ieee_unit o -> ieee_speed v -> ieee_short dt ->
  ieee_unit (advance o v dt).1 /\ ieee_speed (advance o v dt).2.
Proof.
  intros [No Ho] [Nv Hv] [Nd Hd].
  pose proof (ieee_displacement_doubled v dt Nv Hv Nd Hd) as Hdouble. cbn zeta in Hdouble.
  unfold advance, fgt.
  cbn [cast fadd fsub fmul fneg lit of_int flt ieee_arith prec_of emax_of] in *.
  set (c1 := ieee_lit double (1 # 10)) in *.
  set (p := SFmul 24 128 v dt) in *.
  set (P := ieee_cast double p) in *.
  set (D := SFmul 53 1024 P c1) in *.
  set (O := ieee_cast double o) in *.
  set (s := SFadd 53 1024 O D) in *.
  set (o1 := ieee_cast single s) in *.
  set (O1 := ieee_cast double o1) in *.
  set (D2 := SFmul 53 1024
               (ieee_cast double (SFmul 24 128 (SFmul 24 128 (ieee_of_int single 2) v) dt)) c1) in *.
  set (s2 := SFsub 53 1024 O1 D2).
  set (o2 := ieee_cast single s2).
  assert (H10 : (dy 10 0 == 10)%Q) by reflexivity.
  assert (H2 : (dy 2 0 == 2)%Q) by reflexivity.
  assert (H4 : (dy 4 0 == 4)%Q) by reflexivity.
  assert (H1 : (dy 1 0 == 1)%Q) by reflexivity.
  pose proof (dy_pos 1 (-53) ltac:(lia)) as Hu.
  (* the displacement *)
  assert (Hvd : (- (10) <= ieee_value v * ieee_value dt <= 10)%Q) by (split; nra).
  assert (Hp : rounds 24 128 (ieee_value v * ieee_value dt) p).
  { apply (SFmul_rounds 24 128 ltac:(lia) ltac:(lia) v dt 10 0);
      try apply Nv; try apply Nd; try (unfold emin; lia). rewrite H10. exact Hvd. }
  assert (Rp : (- (10) <= ieee_value p <= 10)%Q).
  { rewrite <- H10. destruct Hp as (_ & _ & Hp).
    apply (rn_between 24 128 _ _ 10 0 Hp); try (unfold emin; cbn; lia). rewrite H10. exact Hvd. }
  destruct (ieee_widen p (rounds_num single _ _ Hp)) as (NP & EP). fold P in NP, EP.
  assert (Nc : ieee_num double c1) by (split; reflexivity).
  assert (Hc0 : (0 < ieee_value c1)%Q) by reflexivity.
  assert (Hc10 : (10 * ieee_value c1 <= 1 + dy 1 (-53))%Q) by (apply Qle_bool_iff; reflexivity).
  assert (H53 : (dy 1 (-53) < 1)%Q) by reflexivity.
  assert (HPc : (- (1 + dy 1 (-53)) <= ieee_value P * ieee_value c1 <= 1 + dy 1 (-53))%Q).
  { rewrite EP. set (q := ieee_value c1) in *. set (x := ieee_value p) in *.
    clearbody q x. split; nra. }
  assert (HD : rounds 53 1024 (ieee_value P * ieee_value c1) D).
  { apply (SFmul_rounds 53 1024 ltac:(lia) ltac:(lia) P c1 2 0);
      try apply NP; try apply Nc; try (unfold emin; lia). rewrite H2. split; lra. }
  assert (RD : (- (1) <= ieee_value D <= 1)%Q).
  { destruct HD as (_ & _ & (_ & Hup & Hdn)). split; [apply Hdn|apply Hup];
      change (- (53)) with (-53); lra. }
  (* the moved offset *)
  destruct (ieee_widen o No) as (NO & EO). fold O in NO, EO.
  assert (HOD : (- (2) <= ieee_value O + ieee_value D <= 2)%Q) by (rewrite EO; split; lra).
  assert (Hs : rounds 53 1024 (ieee_value O + ieee_value D) s).
  { apply (SFadd_rounds 53 1024 ltac:(lia) ltac:(lia) O D 2 0);
      try apply NO; try apply (rounds_num double _ _ HD); try (unfold emin; lia).
    rewrite H2. exact HOD. }
  assert (Rs : (- (2) <= ieee_value s <= 2)%Q).
  { rewrite <- H2. destruct Hs as (_ & _ & Hs).
    apply (rn_between 53 1024 _ _ 2 0 Hs); try (unfold emin; cbn; lia). rewrite H2. exact HOD. }
  assert (Ho1 : rounds 24 128 (ieee_value s) o1).
  { apply (ieee_cast_rounds single s 2 0); try (cbn; unfold emin; lia).
    - apply Hs.
    - rewrite H2. exact Rs. }
  assert (Ro1 : (- (2) <= ieee_value o1 <= 2)%Q).
  { rewrite <- H2. destruct Ho1 as (_ & _ & Ho1).
    apply (rn_between 24 128 _ _ 2 0 Ho1); try (unfold emin; cbn; lia). rewrite H2. exact Rs. }
  pose proof (rounds_num single _ _ Ho1) as No1.
  destruct (ieee_widen o1 No1) as (NO1 & EO1). fold O1 in NO1, EO1.
  (* the two tests *)
  assert (None : ieee_num double (ieee_lit double 1)) by (split; reflexivity).
  assert (Eone : (ieee_value (ieee_lit double 1) == 1)%Q) by reflexivity.
  pose proof (ieee_lt_value _ _ None NO1) as T1. rewrite Eone, EO1 in T1.
  pose proof (ieee_lt_value _ _ NO1 (ieee_num_opp double _ None)) as T2.
  rewrite ieee_value_opp, Eone, EO1 in T2.
  (* what the bounce needs, whichever wall is hit *)
  assert (Hbounce : (dy 1 (-53) < ieee_value D \/ ieee_value D < - dy 1 (-53))%Q ->
            ieee_num double D2 /\ (ieee_value D2 == 2 * ieee_value D)%Q /\
            rounds 53 1024 (ieee_value o1 - 2 * ieee_value D) s2 /\
            rounds 24 128 (ieee_value s2) o2).
  { intros Hbig. destruct (Hdouble Hbig) as (ND2 & ED2).
    assert (HO1D2 : (- (4) <= ieee_value O1 - ieee_value D2 <= 4)%Q)
      by (rewrite EO1, ED2; split; lra).
    assert (Hs2 : rounds 53 1024 (ieee_value O1 - ieee_value D2) s2).
    { apply (SFsub_rounds 53 1024 ltac:(lia) ltac:(lia) O1 D2 4 0);
        try apply NO1; try apply ND2; try (unfold emin; cbn; lia). rewrite H4. exact HO1D2. }
    assert (Rs2 : (- (4) <= ieee_value s2 <= 4)%Q).
    { rewrite <- H4. destruct Hs2 as (_ & _ & Hs2).
      apply (rn_between 53 1024 _ _ 4 0 Hs2); try (unfold emin; cbn; lia).
      rewrite H4. exact HO1D2. }
    split; [exact ND2|]. split; [exact ED2|]. split.
    - eapply rounds_ext; [|exact Hs2]. rewrite EO1, ED2. reflexivity.
    - apply (ieee_cast_rounds single s2 4 0); try (cbn; unfold emin; lia).
      + apply Hs2.
      + rewrite H4. exact Rs2. }
  assert (Hsum : rn 53 1024 (ieee_value o + ieee_value D) (ieee_value s)).
  { destruct Hs as (_ & _ & Hs). eapply rn_ext; [|reflexivity|exact Hs]. rewrite EO. reflexivity. }
  pose proof (float_grid 24 128 o1 ltac:(lia) (proj1 No1) (proj2 No1)) as Hgrid.
  destruct (ieee_lt (ieee_lit double 1) O1) eqn:Ehi; cbn [orb fst snd].
  - (* above 1 *)
    assert (Hgt : (1 < ieee_value o1)%Q) by (apply T1; reflexivity).
    assert (Hbig : (dy 1 (-53) < ieee_value D)%Q).
    { destruct (Qlt_le_dec (dy 1 (-53)) (ieee_value D)) as [|Hle]; [assumption|exfalso].
      destruct Hsum as (_ & Hup & _). destruct Ho1 as (_ & _ & (Hm & _)).
      destruct (Hm 1 0 ltac:(cbn; lia) ltac:(unfold emin; lia) ltac:(lia)) as [A _].
      rewrite H1 in A. assert (ieee_value s <= 1)%Q by (apply Hup; change (- (53)) with (-53); lra).
      specialize (A ltac:(assumption)). lra. }
    destruct (Hbounce (or_introl Hbig)) as (ND2 & ED2 & Hs2 & Ho2).
    split; [split; [exact (rounds_num single _ _ Ho2)|]|].
    + apply (bounce_core (ieee_value o) (ieee_value D) (ieee_value s) (ieee_value o1)
               (ieee_value s2) (ieee_value o2)); try assumption; try apply RD.
      * apply Ho1.
      * apply Hs2.
      * apply Ho2.
    + split; [apply ieee_num_opp, Nv|]. rewrite ieee_value_opp. split; lra.
  - destruct (ieee_lt O1 (SFopp (ieee_lit double 1))) eqn:Elo; cbn [fst snd].
    + (* below -1 *)
      assert (Hlt : (ieee_value o1 < - (1))%Q) by (apply T2; reflexivity).
      assert (Hbig : (ieee_value D < - dy 1 (-53))%Q).
      { destruct (Qlt_le_dec (ieee_value D) (- dy 1 (-53))) as [|Hle]; [assumption|exfalso].
        destruct Hsum as (_ & _ & Hdn). destruct Ho1 as (_ & _ & (Hm & _)).
        destruct (Hm (-1) 0 ltac:(cbn; lia) ltac:(unfold emin; lia) ltac:(lia)) as [_ B].
        assert (Hm1 : (dy (-1) 0 == - (1))%Q) by reflexivity. rewrite Hm1 in B.
        assert (- (1) <= ieee_value s)%Q by (apply Hdn; change (- (53)) with (-53); lra).
        specialize (B ltac:(assumption)). lra. }
      destruct (Hbounce (or_intror Hbig)) as (ND2 & ED2 & Hs2 & Ho2).
      split; [split; [exact (rounds_num single _ _ Ho2)|]|].
      * assert (Hneg : (- (1) <= - ieee_value o2 <= 1)%Q).
        { apply (bounce_core (- ieee_value o) (- ieee_value D) (- ieee_value s)
                   (- ieee_value o1) (- ieee_value s2) (- ieee_value o2)).
          - split; lra.
          - lra.
          - eapply rn_ext; [|reflexivity|apply rn_opp; exact Hsum]. ring.
          - apply rn_opp, Ho1.
          - apply grid_opp, Hgrid.
          - lra.
          - eapply rn_ext; [|reflexivity|apply rn_opp, Hs2]. ring.
          - apply rn_opp, Ho2. }
        split; lra.
      * split; [apply ieee_num_opp, Nv|]. rewrite ieee_value_opp. split; lra.
    + (* inside *)
      split; [split; [exact No1|]|split; [exact Nv|exact Hv]].
      split.
      * apply Qnot_lt_le. intros Hc. apply T2 in Hc. congruence.
      * apply Qnot_lt_le. intros Hc. apply T1 in Hc. congruence.
Qed.

(** *** Frames of at most two seconds *)

Lemma binary_round_valid prec emax s m e :
  0 < prec -> prec < emax ->
  valid_binary prec emax (binary_round prec emax s m e) = true.
Proof.
  intros Hp He. unfold binary_round.
  pose proof (shl_align_spec m e (fexp prec emax (Zpos (digits2_pos m) + e))) as Hs.
  destruct (shl_align m e _) as [mz ez]. cbn [fst snd] in Hs. destruct Hs as [Hz Hmz].
  assert (Hsh : 0 <= e - ez) by lia.
  assert (Hd : Zdigits2 (Zpos mz) = Zpos (digits2_pos m) + (e - ez)).
  { rewrite Hmz. apply (Zdigits2_shift (Zpos m)); lia. }
  apply binary_round_aux_valid; try assumption; try lia.
  rewrite Hd. replace (Zpos (digits2_pos m) + (e - ez) + ez) with (Zpos (digits2_pos m) + e) by lia.
  lia.
Qed.

Lemma ieee_cast_valid f x :
  valid_binary (prec_of f) (emax_of f) (ieee_cast f x) = true.
Proof.
  destruct x as [s|s| |s m e]; try reflexivity. cbn [ieee_cast].
  apply binary_round_valid; [pose proof (prec_of_two f); lia|apply prec_lt_emax_of].
Qed.

Lemma ieee_within_unit x :
  ieee_within 1 (ieee_cast single x) = true -> ieee_unit (ieee_cast single x).
Proof.
  intros Hw. apply ieee_within_range in Hw. destruct Hw as [Hf Hr].
  split; [split; [exact Hf|apply (ieee_cast_valid single)]|exact Hr].
Qed.

Lemma ieee_within_speed x :
  ieee_within 5 (ieee_cast single x) = true -> ieee_speed (ieee_cast single x).
Proof.
  intros Hw. apply ieee_within_range in Hw. destruct Hw as [Hf Hr].
  split; [split; [exact Hf|apply (ieee_cast_valid single)]|exact Hr].
Qed.

Lemma fzero_ieee_unit : ieee_unit fzero.
Proof. split; [split; reflexivity|]. cbn. split; lra. Qed.

Lemma fzero_ieee_speed : ieee_speed fzero.
Proof. split; [split; reflexivity|]. cbn. split; lra. Qed.

(** The elapsed time of a frame of at most two seconds. *)
Lemma ieee_frame_dt_short now last :
  (now - last) mod 2 ^ 64 <= 2000000000 -> ieee_short (frame_dt now last).
Proof.
  intros Hgap. unfold frame_dt.
  pose proof (Z.mod_pos_bound (now - last) (2 ^ 64) eq_refl) as [Hpos _].
  set (n := (now - last) mod 2 ^ 64) in *.
  cbn [fmul of_int lit ieee_arith prec_of emax_of].
  assert (Hb : (dy 1953125 10 == 2000000000)%Q) by reflexivity.
  assert (Hn : (0 <= dy n 0 <= 2000000000)%Q).
  { rewrite dy_0. split.
    - change 0%Q with (inject_Z 0). now rewrite <- Zle_Qle.
    - change 2000000000%Q with (inject_Z 2000000000). now rewrite <- Zle_Qle. }
  assert (Hx : rounds 24 128 (dy n 0) (ieee_of_int single n)).
  { apply (binary_normalize_rounds 24 128 ltac:(lia) ltac:(lia) n 0 1953125 10);
      try (unfold emin; lia). rewrite Hb. split; lra. }
  assert (Rx : (0 <= ieee_value (ieee_of_int single n) <= 2000000000)%Q).
  { destruct Hx as (_ & _ & (Hm & _)).
    destruct (Hm 0 0 ltac:(cbn; lia) ltac:(unfold emin; lia) ltac:(lia)) as [_ B].
    destruct (Hm 1953125 10 ltac:(cbn; lia) ltac:(unfold emin; lia) ltac:(lia)) as [A _].
    rewrite dy_zero in B. rewrite Hb in A. split; [apply B|apply A]; lra. }
  set (x := ieee_of_int single n) in *.
  set (c := ieee_lit single (1 # 1000000000)).
  assert (Nc : ieee_num single c) by (split; reflexivity).
  assert (Hc0 : (0 < ieee_value c)%Q) by reflexivity.
  assert (Hc2 : (2000000000 * ieee_value c <= 2)%Q) by (apply Qle_bool_iff; reflexivity).
  assert (H2 : (dy 2 0 == 2)%Q) by reflexivity.
  assert (Hxc : (0 <= ieee_value x * ieee_value c <= 2)%Q).
  { set (q := ieee_value c) in *. set (y := ieee_value x) in *. clearbody q y. split; nra. }
  assert (Hdt : rounds 24 128 (ieee_value x * ieee_value c) (SFmul 24 128 x c)).
  { apply (SFmul_rounds 24 128 ltac:(lia) ltac:(lia) x c 2 0);
      try apply (rounds_num single _ _ Hx); try apply Nc; try (unfold emin; lia).
    rewrite H2. split; lra. }
  split; [exact (rounds_num single _ _ Hdt)|].
  destruct Hdt as (_ & _ & (Hm & _)).
  destruct (Hm 0 0 ltac:(cbn; lia) ltac:(unfold emin; lia) ltac:(lia)) as [_ B].
  destruct (Hm 2 0 ltac:(cbn; lia) ltac:(unfold emin; lia) ltac:(lia)) as [A _].
  rewrite dy_zero in B. rewrite H2 in A. split; [apply B|apply A]; lra.
Qed.

Section IeeePaced.
Variable hdr : Header (T:=spec_float).

Lemma ieee_step_body_in_bounds dt j a :
  ieee_short dt -> ieee_in_bounds a -> ieee_in_bounds (step_body dt j a).
Proof.
  intros Hdt (Hlo & Hvx & Hvy). unfold ieee_in_bounds.
  rewrite step_body_localOffset, step_body_mVx, step_body_mVy. cbn zeta.
  assert (Hx := ieee_advance_in_range (slot (localOffset a) j) (slot (mVx a) j) dt
                  (slot_closed _ _ _ fzero_ieee_unit Hlo)
                  (slot_closed _ _ _ fzero_ieee_speed Hvx) Hdt).
  destruct Hx as [Hx1 Hx2].
  assert (Hlo1 : Forall ieee_unit
            (<[j := (advance (slot (localOffset a) j) (slot (mVx a) j) dt).1]> (localOffset a)))
    by (apply Forall_insert; trivial).
  assert (Hy := ieee_advance_in_range _ (slot (mVy a) j) dt
                  (slot_closed _ _ (j + 1) fzero_ieee_unit Hlo1)
                  (slot_closed _ _ _ fzero_ieee_speed Hvy) Hdt).
  destruct Hy as [Hy1 Hy2].
  repeat split; apply Forall_insert; trivial.
Qed.

Lemma ieee_seeds_in_bounds i a w :
  ieee_in_bounds a -> offsetRatio a = lit single 2 ->
  ieee_in_bounds (calcSceneParams_body i a w).1 /\
  offsetRatio (calcSceneParams_body i a w).1 = lit single 2.
Proof.
  intros (Hlo & Hvx & Hvy) Hr. unfold calcSceneParams_body.
  rewrite !bind_run. unfold mret, M_ret. cbn [fst].
  unfold ieee_in_bounds. cbn [offsetRatio localOffset mVx mVy with_offsetBuf with_mVy with_mVx
                           with_localOffset].
  split; [|exact Hr]. rewrite Hr. unfold drand48. cbn [fst snd rand48].
  split; [|split]; apply Forall_insert; trivial.
  - apply ieee_within_unit. apply (ieee_seed_offset _ (rand48_next_range _)).
  - apply ieee_within_speed. apply (ieee_seed_speed _ (rand48_next_range _)).
  - apply ieee_within_speed. apply (ieee_seed_speed _ (rand48_next_range _)).
Qed.

Lemma ieee_resize_in_bounds w h r wld : ieee_in_bounds (Renderer_resize hdr w h r wld).1.
Proof.
  rewrite resize_fst. cbn zeta.
  match goal with |- ieee_in_bounds (with_mLastFrameNs 0 (for_loop ?f ?i ?b ?s _ ?r0 ?w0).1) =>
    destruct (angles_same_motion hdr r0 f i b s w0) as (H1 & H2 & H3 & _ & _ & H6 & _) end.
  unfold ieee_in_bounds. cbn [with_mLastFrameNs offsetRatio localOffset mVx mVy].
  rewrite H1, H2, H3, calcSceneParams_fst. cbn zeta.
  cbn [with_mScale offsetRatio localOffset mVx mVy].
  apply (for_loop_preserves (fun a => ieee_in_bounds a /\ offsetRatio a = lit single 2)).
  - intros j a w' [Ha Hr]. now apply ieee_seeds_in_bounds.
  - split; [|reflexivity]. unfold ieee_in_bounds, fresh_arrays. cbn.
    repeat split; apply Forall_replicate; first [apply fzero_ieee_unit|apply fzero_ieee_speed].
Qed.

Lemma ieee_paced_in_bounds r :
  paced_after_resize hdr 2000000000 r -> ieee_in_bounds r.
Proof.
  induction 1 as [w h r wld|env r wld _ IH Hgap].
  - apply ieee_resize_in_bounds.
  - rewrite step_fst. cbn zeta. unfold ieee_in_bounds.
    cbn [with_mLastFrameNs localOffset mVx mVy].
    destruct (0 <? mLastFrameNs r)%Z eqn:Hclock; [|exact IH].
    apply Z.ltb_lt in Hclock. specialize (Hgap Hclock). unfold elapsed_ns in Hgap.
    apply (for_loop_preserves ieee_in_bounds); [|exact IH].
    intros j a w Ha. unfold mret, M_ret. cbn [fst].
    apply ieee_step_body_in_bounds; [|exact Ha]. now apply ieee_frame_dt_short.
Qed.

(** C1 (amended).  In binary32/binary64 arithmetic, after a [resize] and
    any number of [step]s none of which comes more than two seconds after
    the one before, every offset component is a number in [-1, 1]. *)
Theorem paced_offsets_stay_in_range r :
  paced_after_resize hdr 2000000000 r ->
  Forall (fun o => ieee_finite o = true /\ (- (1) <= ieee_value o <= 1)%Q) (localOffset r).
Proof.
  intros Hr. destruct (ieee_paced_in_bounds r Hr) as (Hlo & _).
  eapply Forall_impl; [exact Hlo|]. intros o [[Hf _] Ho]. split; assumption.
Qed.

End IeeePaced.

(** ** Concrete runs of the further properties *)

Lemma createShader_without_object_witness :
  (createShader dead_driver GL_VERTEX_SHADER "void main() {}" empty_world).1 = 0.
Proof.
  exact (proj1 (createShader_without_object dead_driver GL_VERTEX_SHADER "void main() {}"
                  empty_world eq_refl)).
Defined.

Lemma createProgram_link_result_witness :
  (createProgram unlinking_driver "v" "f" empty_world).1 = 0 /\
  In (Logged ERROR "Could not link program" [])
     (trace (createProgram unlinking_driver "v" "f" empty_world).2) /\
  In (Called (GlDeleteProgram 1) RVoid)
     (trace (createProgram unlinking_driver "v" "f" empty_world).2).
Proof.
  apply (createProgram_link_result unlinking_driver "v" "f" empty_world
           (trace (createProgram unlinking_driver "v" "f" empty_world).2) 1 0).
  - reflexivity.
  - unfold link_status. vm_compute. tauto.
Defined.

Lemma createProgram_vertex_failure_witness :
  (createProgram silent_driver "v" "f" empty_world).1 = 0.
Proof.
  exact (proj1 (createProgram_vertex_failure silent_driver "v" "f" empty_world eq_refl)).
Defined.

Lemma resize_forgets_motion_witness :
  localOffset (Renderer_resize (header_exact 1) 640 480 resized empty_world).1 =
  localOffset (Renderer_resize (header_exact 1) 640 480 stepped_once empty_world).1.
Proof.
  exact (proj1 (resize_forgets_motion (header_exact 1) 640 480 resized stepped_once
                  empty_world empty_world eq_refl)).
Defined.

Lemma offset_buffer_mirrors_offsets_witness :
  offsetBuf stepped_once !! 1%nat = localOffset stepped_once !! 1%nat /\
  is_Some (localOffset stepped_once !! 1%nat).
Proof.
  apply (offset_buffer_mirrors_offsets (header_exact 1) stepped_once 1 stepped_once_reached).
  simpl. lia.
Defined.

Lemma step_skips_odd_speeds_witness :
  mVx (Renderer_step (header_exact 1) (env_at 2 "") stepped_once empty_world).1 !! 1%nat =
    mVx stepped_once !! 1%nat /\
  mVy (Renderer_step (header_exact 1) (env_at 2 "") stepped_once empty_world).1 !! 1%nat =
    mVy stepped_once !! 1%nat.
Proof.
  exact (step_skips_odd_speeds (header_exact 1) (env_at 2 "") stepped_once empty_world 1
           eq_refl).
Defined.

Lemma step_after_clock_zero_witness :
  mLastFrameNs (Renderer_step (header_exact 1) (env_at 0 "") stepped_once empty_world).1 = 0.
Proof.
  exact (proj1 (step_after_clock_zero (header_exact 1) (env_at 0 "") (env_at 5 "")
                  stepped_once empty_world empty_world eq_refl)).
Defined.

Lemma step_without_elapsed_time_witness :
  In (Logged INFO "fps:%f" [AFloat (S754_infinity false)])
     (trace (Renderer_step (header_ieee 1) (env_at 1 "") ieee_stepped_once empty_world).2).
Proof.
  apply (step_without_elapsed_time (header_ieee 1) (env_at 1 "") ieee_stepped_once empty_world).
  - vm_compute. reflexivity.
  - vm_compute. reflexivity.
Defined.

Lemma render_draws_all_instances_witness :
  (Renderer_render (header_exact 1) (env_at 2 "") stepped_once empty_world).1 =
  (Renderer_step (header_exact 1) (env_at 2 "") stepped_once empty_world).1.
Proof.
  exact (proj1 (render_draws_all_instances (header_exact 1) (env_at 2 "") stepped_once
                  empty_world stepped_once_reached)).
Defined.

Lemma resize_then_step_witness :
  exists r1 r2,
    g_renderer (Java_com_android_gles3jni_GLES3JNILib_resize (header_exact 1) 640 480
                  {| trace := []; rand48 := rand48_init; g_renderer := Some resized |}).2
      = Some r1 /\
    g_renderer (Java_com_android_gles3jni_GLES3JNILib_step (header_exact 1) (env_at 1 "")
                  (Java_com_android_gles3jni_GLES3JNILib_resize (header_exact 1) 640 480
                     {| trace := []; rand48 := rand48_init; g_renderer := Some resized |}).2).2
      = Some r2 /\
    localOffset r2 = localOffset r1.
Proof.
  destruct (resize_then_step (header_exact 1) (env_at 1 "") 640 480 resized
              {| trace := []; rand48 := rand48_init; g_renderer := Some resized |} eq_refl)
    as (r1 & r2 & H1 & H2 & _ & H4 & _).
  exists r1, r2. auto.
Defined.

Lemma speeds_stay_in_range_witness :
  Forall (fun v => ieee_finite v = true /\ (-(5) <= ieee_value v <= 5)%Q)
         (mVx (after_long_frame (header_ieee 1))).
Proof.
  exact (proj1 (speeds_stay_in_range (header_ieee 1) (after_long_frame (header_ieee 1))
                  (after_long_frame_reached (header_ieee 1)))).
Defined.

Lemma resize_zero_width_scale_witness :
  (mScale (Renderer_resize (header_ieee 1) 0 1920 (Renderer_new (header_ieee 1) ES3)
             empty_world).1).2 = S754_infinity false.
Proof.
  exact (resize_zero_width_scale (header_ieee 1) 0 1920 (Renderer_new (header_ieee 1) ES3)
           empty_world eq_refl).
Defined.

Lemma createShader_success_calls_witness :
  exists st, st <> 0 /\
    trace (createShader (env_at (T:=Q) 1 "") GL_VERTEX_SHADER "v" empty_world).2 =
    trace (empty_world (T:=Q)) ++
      [Called (GlCreateShader GL_VERTEX_SHADER)
         (RInt (createShader (env_at (T:=Q) 1 "") GL_VERTEX_SHADER "v" empty_world).1);
       Called (GlShaderSource
                 (createShader (env_at (T:=Q) 1 "") GL_VERTEX_SHADER "v" empty_world).1 "v")
         RVoid;
       Called (GlCompileShader
                 (createShader (env_at (T:=Q) 1 "") GL_VERTEX_SHADER "v" empty_world).1)
         RVoid;
       Called (GlGetShaderiv
                 (createShader (env_at (T:=Q) 1 "") GL_VERTEX_SHADER "v" empty_world).1
                 GL_COMPILE_STATUS) (RInt st)].
Proof.
  apply (createShader_success_calls (env_at (T:=Q) 1 "") GL_VERTEX_SHADER "v" empty_world).
  vm_compute. discriminate.
Defined.

Lemma createProgram_success_calls_witness :
  (createShader (env_at (T:=Q) 1 "") GL_VERTEX_SHADER "v" empty_world).1 <> 0.
Proof.
  refine (proj1 (createProgram_success_calls (env_at (T:=Q) 1 "") "v" "f" empty_world _)).
  vm_compute. discriminate.
Defined.

Lemma resize_seeds_from_draws_witness :
  localOffset resized !! 0%nat = Some (seed_offset (rand48_next rand48_init)).
Proof.
  refine (proj1 (resize_seeds_from_draws (header_exact 1) 1080 1920
                   (Renderer_new (header_exact 1) ES3) empty_world 0 _)).
  simpl. lia.
Defined.

Lemma resize_angles_from_draws_witness :
  mAngles resized !! 0%nat =
  Some (seed_angle (header_exact 1) (Nat.iter 7 rand48_next rand48_init)).
Proof.
  refine (proj1 (resize_angles_from_draws (header_exact 1) 1080 1920
                   (Renderer_new (header_exact 1) ES3) empty_world 0 _ _ _)); simpl; lia.
Defined.

Lemma frame_dt_is_positive_witness :
  ieee_finite (frame_dt (T:=spec_float) 2000000000 1000000000) = true.
Proof.
  apply (frame_dt_is_positive 2000000000 1000000000). vm_compute. discriminate.
Defined.

Lemma session_keeps_one_renderer_witness :
  let cs := [(env_at 1 "OpenGL ES 3.0", JInit); (env_at 1 "", JResize 1080 1920);
             (env_at 1 "", JStep); (env_at 2 "", JStep)] in
  let w' := jni_session (header_exact 1) cs empty_world in
  resized_before_moving (header_exact 1) cs empty_world /\
  exists evs, trace w' = trace (empty_world (T:=Q)) ++ evs /\
              renderers_alive evs (held (empty_world (T:=Q))) = Some (held w').
Proof.
  cbn zeta.
  assert (Hdef : resized_before_moving (header_exact 1)
            [(env_at 1 "OpenGL ES 3.0", JInit); (env_at 1 "", JResize 1080 1920);
             (env_at 1 "", JStep); (env_at 2 "", JStep)] empty_world).
  { vm_compute. repeat split; intros; reflexivity. }
  split; [exact Hdef|].
  exact (session_keeps_one_renderer (header_exact 1) _ empty_world Hdef).
Defined.

Lemma paced_offsets_witness :
  Forall (fun o => ieee_finite o = true /\ (- (1) <= ieee_value o <= 1)%Q)
    (localOffset (Renderer_step (header_ieee 1) (env_at 2 "") ieee_first_step empty_world).1).
Proof.
  apply (paced_offsets_stay_in_range (header_ieee 1)).
  apply pr_step; [apply pr_step; [apply pr_resize|]|].
  - intros _. vm_compute. discriminate.
  - intros _. vm_compute. discriminate.
Defined.
